(** * mcptest: the capture relay and the transcript reformatter

    A shallow embedding of [command-capture.py] (class [MCPCommandCapture]:
    the supervisor [start] and the three relays [handle_stdin],
    [handle_stdout], [handle_stderr]) and of [json-log-formatter.py]
    ([format_json_logs]), with the properties of the specification stated
    and settled over it.

    Python values are rendered as follows.
    - [bytes] is a list of [Byte.byte].
    - [str] is a list of Unicode code points, each an [N].
    - an operation that can raise returns a [result].
    - the interpreter's clock, the event loop's choices and the streams'
      contents are inputs of the step functions. *)

From Stdlib Require Import List NArith ZArith Lia Bool String Ascii.
From Stdlib Require Import Init.Byte.
From Stdlib Require Import SpecFloat.
Import ListNotations.

Set Implicit Arguments.
Set Warnings "-register-all".


Local Open Scope N_scope.
Local Open Scope list_scope.

(** ** Text and bytes *)

Module Text.

Definition bytes := list byte.
Definition str := list N.

(** A Rocq string literal read as a Python [str] of ASCII characters. *)
Fixpoint lit (s : string) : str :=
  match s with
  | EmptyString => []
  | String c s' => N_of_ascii c :: lit s'
  end.

Definition byte_of (n : N) : byte :=
  match Byte.of_N n with
  | Some b => b
  | None => x00
  end.

(** The bytes of an ASCII literal, as a Python [b"..."] constant. *)
Definition blit (s : string) : bytes := map byte_of (lit s).

Definition REPLACEMENT : N := 0xFFFD.

Definition is_surrogate (c : N) : bool := (0xD800 <=? c) && (c <=? 0xDFFF).

Definition is_scalar (c : N) : bool := (c <=? 0x10FFFF) && negb (is_surrogate c).

(** [errors=] argument of [bytes.decode]. *)
Inductive error_mode := Strict | Replace.

(** What a codec call yields: the value, or the Unicode error raised. *)
Inductive codec_result (A : Type) :=
| Decoded (a : A)
| UnicodeError.
Arguments UnicodeError {A}.

Definition is_continuation (b : N) : bool := (0x80 <=? b) && (b <=? 0xBF).

(** The error handler: ['strict'] raises, ['replace'] emits U+FFFD and goes
    on with the bytes after the ill-formed subsequence. *)
Definition on_error (errors : error_mode) (k : codec_result str)
  : codec_result str :=
  match errors with
  | Strict => UnicodeError
  | Replace =>
      match k with
      | Decoded s => Decoded (REPLACEMENT :: s)
      | UnicodeError => UnicodeError
      end
  end.

Definition emit (c : N) (k : codec_result str) : codec_result str :=
  match k with
  | Decoded s => Decoded (c :: s)
  | UnicodeError => UnicodeError
  end.

(** Admissible second byte after the lead byte [ch] of a 3-byte form:
    rejects the overlong forms after E0 and the surrogates after ED. *)
Definition second_ok3 (ch ch2 : N) : bool :=
  is_continuation ch2 &&
  negb (if ch2 <? 0xA0 then ch =? 0xE0 else ch =? 0xED).

(** Admissible second byte after the lead byte [ch] of a 4-byte form:
    rejects the overlong forms after F0 and values above U+10FFFF after F4. *)
Definition second_ok4 (ch ch2 : N) : bool :=
  is_continuation ch2 &&
  negb (if ch2 <? 0x90 then ch =? 0xF0 else ch =? 0xF4).

Definition cp2 (b1 b2 : N) : N := (b1 - 0xC0) * 64 + (b2 - 0x80).
Definition cp3 (b1 b2 b3 : N) : N :=
  (b1 - 0xE0) * 4096 + (b2 - 0x80) * 64 + (b3 - 0x80).
Definition cp4 (b1 b2 b3 b4 : N) : N :=
  (b1 - 0xF0) * 262144 + (b2 - 0x80) * 4096 + (b3 - 0x80) * 64 + (b4 - 0x80).

(** [bytes.decode('utf-8', errors=...)]: the interpreter's UTF-8 decoder.
    An ill-formed subsequence is reported up to (not including) the first
    byte that cannot continue it; a sequence cut short by the end of the
    input is reported whole. *)
Fixpoint utf8_decode (errors : error_mode) (bs : bytes) : codec_result str :=
  match bs with
  | [] => Decoded []
  | c1 :: r1 =>
      let ch := Byte.to_N c1 in
      if ch <? 0x80 then emit ch (utf8_decode errors r1)
      else if ch <? 0xC2 then on_error errors (utf8_decode errors r1)
      else if ch <? 0xE0 then
        match r1 with
        | [] => on_error errors (Decoded [])
        | c2 :: r2 =>
            let ch2 := Byte.to_N c2 in
            if is_continuation ch2
            then emit (cp2 ch ch2) (utf8_decode errors r2)
            else on_error errors (utf8_decode errors r1)
        end
      else if ch <? 0xF0 then
        match r1 with
        | [] => on_error errors (Decoded [])
        | c2 :: r2 =>
            let ch2 := Byte.to_N c2 in
            if second_ok3 ch ch2 then
              match r2 with
              | [] => on_error errors (Decoded [])
              | c3 :: r3 =>
                  let ch3 := Byte.to_N c3 in
                  if is_continuation ch3
                  then emit (cp3 ch ch2 ch3) (utf8_decode errors r3)
                  else on_error errors (utf8_decode errors r2)
              end
            else on_error errors (utf8_decode errors r1)
        end
      else if ch <? 0xF5 then
        match r1 with
        | [] => on_error errors (Decoded [])
        | c2 :: r2 =>
            let ch2 := Byte.to_N c2 in
            if second_ok4 ch ch2 then
              match r2 with
              | [] => on_error errors (Decoded [])
              | c3 :: r3 =>
                  let ch3 := Byte.to_N c3 in
                  if is_continuation ch3 then
                    match r3 with
                    | [] => on_error errors (Decoded [])
                    | c4 :: r4 =>
                        let ch4 := Byte.to_N c4 in
                        if is_continuation ch4
                        then emit (cp4 ch ch2 ch3 ch4) (utf8_decode errors r4)
                        else on_error errors (utf8_decode errors r3)
                    end
                  else on_error errors (utf8_decode errors r2)
              end
            else on_error errors (utf8_decode errors r1)
        end
      else on_error errors (utf8_decode errors r1)
  end.

(** The UTF-8 form of one code point; a surrogate cannot be encoded. *)
Definition utf8_encode_char (c : N) : option bytes :=
  if c <? 0x80 then Some [byte_of c]
  else if c <? 0x800 then
    Some [byte_of (0xC0 + c / 64); byte_of (0x80 + c mod 64)]
  else if is_surrogate c then None
  else if c <? 0x10000 then
    Some [byte_of (0xE0 + c / 4096); byte_of (0x80 + (c / 64) mod 64);
          byte_of (0x80 + c mod 64)]
  else if c <=? 0x10FFFF then
    Some [byte_of (0xF0 + c / 262144); byte_of (0x80 + (c / 4096) mod 64);
          byte_of (0x80 + (c / 64) mod 64); byte_of (0x80 + c mod 64)]
  else None.

(** [str.encode('utf-8')] with the default strict handler. *)
Fixpoint utf8_encode (s : str) : codec_result bytes :=
  match s with
  | [] => Decoded []
  | c :: s' =>
      match utf8_encode_char c, utf8_encode s' with
      | Some b, Decoded bs => Decoded (b ++ bs)
      | _, _ => UnicodeError
      end
  end.

(** [str.isspace] on one character: the characters [str.rstrip()] with no
    argument removes. *)
Definition isspace (c : N) : bool :=
  ((0x09 <=? c) && (c <=? 0x0D)) || ((0x1C <=? c) && (c <=? 0x20)) ||
  (c =? 0x85) || (c =? 0xA0) || (c =? 0x1680) ||
  ((0x2000 <=? c) && (c <=? 0x200A)) || (c =? 0x2028) || (c =? 0x2029) ||
  (c =? 0x202F) || (c =? 0x205F) || (c =? 0x3000).

(** [str.rstrip()]: drop the longest suffix of whitespace. *)
Fixpoint rstrip (s : str) : str :=
  match s with
  | [] => []
  | c :: s' =>
      match rstrip s' with
      | [] => if isspace c then [] else [c]
      | t => c :: t
      end
  end.

End Text.

(** ** The clock and the transcript timestamp *)

Module Clock.
Import Text.

(** A reading of [datetime.datetime.now()]. *)
Record datetime := {
  year : N; month : N; day : N;
  hour : N; minute : N; second : N; microsecond : N
}.

(** The ranges of the fields of a [datetime] object. *)
Definition valid_datetime (d : datetime) : bool :=
  (1 <=? year d) && (year d <=? 9999) &&
  (1 <=? month d) && (month d <=? 12) &&
  (1 <=? day d) && (day d <=? 31) &&
  (hour d <=? 23) && (minute d <=? 59) && (second d <=? 59) &&
  (microsecond d <=? 999999).

Definition digit (n : N) : N := 48 + n mod 10.

(** [n] as [w] decimal digits, zero padded. *)
Fixpoint digits (w : nat) (n : N) : str :=
  match w with
  | O => []
  | S w' => digits w' (n / 10) ++ [digit n]
  end.

(** [%Y]: the year in decimal, which the C library does not pad. *)
Definition strftime_Y (y : N) : str :=
  if y <? 10 then digits 1 y
  else if y <? 100 then digits 2 y
  else if y <? 1000 then digits 3 y
  else digits 4 y.

(** [d.strftime("%Y-%m-%d %H:%M:%S.%f")]. *)
Definition strftime (d : datetime) : str :=
  strftime_Y (year d) ++ lit "-" ++ digits 2 (month d) ++ lit "-" ++
  digits 2 (day d) ++ lit " " ++ digits 2 (hour d) ++ lit ":" ++
  digits 2 (minute d) ++ lit ":" ++ digits 2 (second d) ++ lit "." ++
  digits 6 (microsecond d).

(** The slice [s[:-k]]. *)
Definition drop_last (k : nat) (s : str) : str :=
  firstn (List.length s - k) s.

(** [datetime.datetime.now().strftime("%Y-%m-%d %H:%M:%S.%f")[:-3]]. *)
Definition timestamp (now : datetime) : str := drop_last 3 (strftime now).

End Clock.

(** ** The capture session: relays and supervisor *)

Module Capture.
Import Text Clock.

(** The direction tag of a relay. *)
Inductive tag := IN | OUT | ERR.

Definition tag_eqb (a b : tag) : bool :=
  match a, b with
  | IN, IN | OUT, OUT | ERR, ERR => true
  | _, _ => false
  end.

Definition tag_name (t : tag) : str :=
  match t with
  | IN => lit "IN"
  | OUT => lit "OUT"
  | ERR => lit "ERR"
  end.

Definition NL : N := 10.

(** The text of a record before it is encoded:
    [f"[{timestamp}] TAG: {line.decode('utf-8', errors='replace').rstrip()}\n"]. *)
Definition record_text (t : tag) (ts : str) (content : str) : str :=
  lit "[" ++ ts ++ lit "] " ++ tag_name t ++ lit ": " ++ content ++ [NL].

(** The expression bound to [log_entry] in each handler; the decode and the
    encode are the two places where it could raise. *)
Definition log_entry (t : tag) (now : datetime) (line : bytes)
  : codec_result bytes :=
  match utf8_decode Replace line with
  | Decoded text => utf8_encode (record_text t (timestamp now) (rstrip text))
  | UnicodeError => UnicodeError
  end.

(** *** Effects *)

Inductive exn :=
| CancelledError
| Exception (what : string).

(** The operations on files and streams that the environment can make fail. *)
Inductive io_op :=
| OpLogWrite | OpLogFlush | OpLogClose
| OpDestWrite (t : tag) | OpDestFlush (t : tag).

(** The calls a session performs on the outside world, oldest first.
    [ReadLine t line] is the value [line] of the [await ... readline] of
    relay [t]; [LogWrite t e] and [LogFlush t] are [self.log_file.write(e)]
    and [self.log_file.flush()] called by relay [t]; [DestWrite IN] is
    [self.process.stdin.write], [DestFlush IN] the call of
    [self.process.stdin.drain()]; for [OUT] and [ERR] they are [write] and
    [flush] on [sys.stdout.buffer] and [sys.stderr.buffer]. *)
Inductive event :=
| ReadLine (t : tag) (line : bytes)
| LogWrite (t : tag) (entry : bytes)
| LogFlush (t : tag)
| LogClose
| DestWrite (t : tag) (line : bytes)
| DestFlush (t : tag)
| ChildStdinClose
| LoggerError (t : tag) (what : string)
| TaskCancel (t : tag).

(** [self.log_file]. *)
Inductive handle := NoFile | OpenFile | ClosedFile.

Record world := {
  log_file : handle;
  stdin_closing : bool;        (* self.process.stdin.is_closing() *)
  faulty : io_op -> bool;      (* operations that raise OSError just now *)
  trace : list event
}.

Inductive outcome (A : Type) :=
| Ok (a : A)
| Raise (e : exn).
Arguments Raise {A}.

Definition M (A : Type) : Type := world -> outcome A * world.

Definition ret {A} (a : A) : M A := fun w => (Ok a, w).

Definition raise {A} (e : exn) : M A := fun w => (Raise e, w).

Definition bind {A B} (m : M A) (k : A -> M B) : M B :=
  fun w =>
    match m w with
    | (Ok a, w') => k a w'
    | (Raise e, w') => (Raise e, w')
    end.

Notation "x <- m ;; k" := (bind m (fun x => k))
  (at level 61, m at next level, right associativity).
Notation "m ;;; k" := (bind m (fun _ => k))
  (at level 61, right associativity).

Definition record_event (e : event) (w : world) : world :=
  {| log_file := log_file w; stdin_closing := stdin_closing w;
     faulty := faulty w; trace := trace w ++ [e] |}.

Definition emit_event (e : event) : M unit :=
  fun w => (Ok tt, record_event e w).

Definition check_fault (op : io_op) : M unit :=
  fun w => if faulty w op then (Raise (Exception "OSError"), w) else (Ok tt, w).

(** An operation on [self.log_file]: a closed file raises [ValueError]. *)
Definition on_log_file (op : io_op) (e : event) : M unit :=
  fun w =>
    match log_file w with
    | OpenFile => (check_fault op ;;; emit_event e) w
    | ClosedFile => (Raise (Exception "ValueError: closed file"), w)
    | NoFile => (Raise (Exception "AttributeError"), w)
    end.

Definition log_write (t : tag) (entry : bytes) : M unit :=
  on_log_file OpLogWrite (LogWrite t entry).

Definition log_flush (t : tag) : M unit := on_log_file OpLogFlush (LogFlush t).

(** [write(line)] on a relay's destination; the stream writer of the child's
    stdin buffers the data and does not raise. *)
Definition dest_write (t : tag) (line : bytes) : M unit :=
  match t with
  | IN => emit_event (DestWrite IN line)
  | _ => check_fault (OpDestWrite t) ;;; emit_event (DestWrite t line)
  end.

(** [flush()] on the parent's stream, or the call of [drain()] whose result
    is awaited. *)
Definition dest_flush (t : tag) : M unit :=
  match t with
  | IN => emit_event (DestFlush IN)
  | _ => check_fault (OpDestFlush t) ;;; emit_event (DestFlush t)
  end.

Definition logger_error (t : tag) (what : string) : M unit :=
  emit_event (LoggerError t what).

(** [self.process.stdin.close()]. *)
Definition stdin_close : M unit :=
  fun w => (Ok tt, {| log_file := log_file w; stdin_closing := true;
                      faulty := faulty w;
                      trace := trace w ++ [ChildStdinClose] |}).

Definition stdin_is_closing : M bool := fun w => (Ok (stdin_closing w), w).

(** Evaluating the [log_entry] expression inside the [try]. *)
Definition build_log_entry (t : tag) (now : datetime) (line : bytes) : M bytes :=
  match log_entry t now line with
  | Decoded e => ret e
  | UnicodeError => raise (Exception "UnicodeError")
  end.

(** *** The relay coroutines *)

(** Where a relay coroutine is suspended. *)
Inductive pc := Unstarted | AtReadline | AtDrain | Finished.

(** What the event loop hands to a suspended coroutine: the value of the
    awaited call, or an exception thrown at the [await]. *)
Inductive awaited :=
| Value (v : bytes)
| Thrown (e : exn).

Definition await (r : awaited) : M bytes :=
  match r with
  | Value v => ret v
  | Thrown e => raise e
  end.

(** The [try ... except asyncio.CancelledError: break
    except Exception as e: self.logger.error(...); break] around the body
    of each loop.  [Some p]: the coroutine is suspended at [p];
    [None]: the loop was left by [break]. *)
Definition try_except (t : tag) (body : M (option pc)) : M (option pc) :=
  fun w =>
    match body w with
    | (Ok c, w') => (Ok c, w')
    | (Raise CancelledError, w') => (Ok None, w')
    | (Raise (Exception what), w') => (logger_error t what ;;; ret None) w'
    end.

(** From the value of [await ... readline] to the next [await] or [break]:
    the statements of one iteration, the same in the three handlers up to
    the tag and the destination. *)
Definition iteration (t : tag) (now : datetime) (r : awaited) : M (option pc) :=
  line <- await r ;;
  emit_event (ReadLine t line) ;;;
  match line with
  | [] => ret None                                   (* if not line: break *)
  | _ =>
      entry <- build_log_entry t now line ;;
      log_write t entry ;;;
      log_flush t ;;;
      dest_write t line ;;;
      dest_flush t ;;;
      ret (Some (match t with IN => AtDrain | _ => AtReadline end))
  end.

(** [handle_stdout] and [handle_stderr]: nothing follows the loop. *)
Definition handle_output (t : tag) (p : pc) (now : datetime) (r : awaited)
  : M pc :=
  match p with
  | Unstarted =>
      match r with
      | Value _ => ret AtReadline       (* the asserts hold; first readline *)
      | Thrown _ => ret Finished        (* thrown into an unstarted coroutine *)
      end
  | AtReadline =>
      c <- try_except t (iteration t now r) ;;
      match c with
      | Some p' => ret p'
      | None => ret Finished
      end
  | AtDrain => ret AtDrain
  | Finished => ret Finished
  end.

Definition handle_stdout := handle_output OUT.
Definition handle_stderr := handle_output ERR.

(** The statements after the loop of [handle_stdin]:
    [if not self.process.stdin.is_closing(): self.process.stdin.close()]. *)
Definition close_stdin_if_open : M pc :=
  closing <- stdin_is_closing ;;
  (if closing then ret tt else stdin_close) ;;;
  ret Finished.

Definition handle_stdin (p : pc) (now : datetime) (r : awaited) : M pc :=
  match p with
  | Unstarted =>
      match r with
      | Value _ => ret AtReadline
      | Thrown _ => ret Finished
      end
  | AtReadline =>
      c <- try_except IN (iteration IN now r) ;;
      match c with
      | Some p' => ret p'
      | None => close_stdin_if_open
      end
  | AtDrain =>
      (* [await self.process.stdin.drain()], then the next iteration's
         [await ... run_in_executor(None, sys.stdin.buffer.readline)] *)
      c <- try_except IN (await r ;;; ret (Some AtReadline)) ;;
      match c with
      | Some p' => ret p'
      | None => close_stdin_if_open
      end
  | Finished => ret Finished
  end.

Definition handler (t : tag) : pc -> datetime -> awaited -> M pc :=
  match t with
  | IN => handle_stdin
  | OUT => handle_stdout
  | ERR => handle_stderr
  end.

(** *** Tasks and the supervisor *)

(** An [asyncio.Task] around a relay coroutine: where the coroutine is, and
    whether [cancel()] was requested and is still to be delivered. *)
Record task := { at_pc : pc; must_cancel : bool }.

(** [task.cancel()]: a request, delivered as [CancelledError] at the
    coroutine's [await] when the event loop next runs the task; nothing
    happens to a task that is done. *)
Definition task_cancel (t : tag) (k : task) : M task :=
  match at_pc k with
  | Finished => ret k
  | _ => emit_event (TaskCancel t) ;;;
         ret {| at_pc := at_pc k; must_cancel := true |}
  end.

(** The event loop runs task [t] with [r] ready for its [await]. *)
Definition wake (t : tag) (k : task) (now : datetime) (r : awaited) : M task :=
  p <- handler t (at_pc k) now
         (if must_cancel k then Thrown CancelledError else r) ;;
  ret {| at_pc := p; must_cancel := false |}.

(** Where [start] is. *)
Inductive supervisor_pc :=
| AwaitingExit                 (* suspended in [await self.process.wait()] *)
| Returned (code : Z)          (* [return self.process.returncode] done *)
| Failed.                      (* left by the [OSError] of [self.log_file.close()] *)

Record session := {
  env : world;
  stdin_task : task;
  stdout_task : task;
  stderr_task : task;
  returncode : option Z;       (* self.process.returncode *)
  supervisor : supervisor_pc
}.

Definition task_of (t : tag) (s : session) : task :=
  match t with
  | IN => stdin_task s
  | OUT => stdout_task s
  | ERR => stderr_task s
  end.

Definition set_task (t : tag) (k : task) (s : session) : session :=
  match t with
  | IN => {| env := env s; stdin_task := k; stdout_task := stdout_task s;
             stderr_task := stderr_task s; returncode := returncode s;
             supervisor := supervisor s |}
  | OUT => {| env := env s; stdin_task := stdin_task s; stdout_task := k;
              stderr_task := stderr_task s; returncode := returncode s;
              supervisor := supervisor s |}
  | ERR => {| env := env s; stdin_task := stdin_task s;
              stdout_task := stdout_task s; stderr_task := k;
              returncode := returncode s; supervisor := supervisor s |}
  end.

Definition set_env (w : world) (s : session) : session :=
  {| env := w; stdin_task := stdin_task s; stdout_task := stdout_task s;
     stderr_task := stderr_task s; returncode := returncode s;
     supervisor := supervisor s |}.

(** [start] from its first line to its suspension in
    [await self.process.wait()], the log file opened and the child spawned:
    the three tasks are created and none has run yet. *)
Definition start_begin (faults : io_op -> bool) : session :=
  let fresh := {| at_pc := Unstarted; must_cancel := false |} in
  {| env := {| log_file := OpenFile; stdin_closing := false;
               faulty := faults; trace := [] |};
     stdin_task := fresh; stdout_task := fresh; stderr_task := fresh;
     returncode := None;
     supervisor := AwaitingExit |}.

(** Whether the buffer of [self.log_file] holds data: a record was
    written and no flush has succeeded since.  A flush that raises leaves
    the data in the buffer. *)
Definition unflushed (tr : list event) : bool :=
  fold_left (fun pending e =>
               match e with
               | LogWrite _ _ => true
               | LogFlush _ => false
               | _ => pending
               end) tr false.

(** Whether [close()] of the open log file raises [OSError]: [close]
    flushes the buffer first, and re-raises the error of that flush after
    it has closed the file; closing the descriptor can fail as well. *)
Definition close_raises (w : world) : bool :=
  (unflushed (trace w) && faulty w OpLogFlush) || faulty w OpLogClose.

(** [if self.log_file: self.log_file.close()]: a file object is true
    whether open or closed; the file is closed even when [close] raises,
    and [close] of a closed file does nothing. *)
Definition close_log_file : M unit :=
  fun w =>
    let closed := {| log_file := ClosedFile; stdin_closing := stdin_closing w;
                     faulty := faulty w; trace := trace w ++ [LogClose] |} in
    match log_file w with
    | NoFile => (Ok tt, w)
    | OpenFile =>
        if close_raises w then (Raise (Exception "OSError"), closed)
        else (Ok tt, closed)
    | ClosedFile => (Ok tt, closed)
    end.

(** The task after [cancel()] was called on it. *)
Definition cancelled (k : task) : task :=
  match at_pc k with
  | Finished => k
  | _ => {| at_pc := at_pc k; must_cancel := true |}
  end.

(** [start] from the return of [await self.process.wait()] to its
    [return]: no [await] in between, so no task runs in between.  An
    error raised by the close leaves [start] before the [return]. *)
Definition start_end (s : session) : M (task * task * task) :=
  k_in <- task_cancel IN (stdin_task s) ;;
  k_out <- task_cancel OUT (stdout_task s) ;;
  k_err <- task_cancel ERR (stderr_task s) ;;
  close_log_file ;;;
  ret (k_in, k_out, k_err).

(** What can happen next in a session. *)
Inductive label :=
| Wake (t : tag) (now : datetime) (r : awaited)   (* the loop runs a relay *)
| ChildExits (code : Z)                           (* the child terminates *)
| PipeLost                                        (* child's stdin pipe breaks *)
| Faults (f : io_op -> bool)                      (* devices start or stop failing *)
| SupervisorResumes.                              (* the loop runs [start] on *)

(** One step of the session; [None] when the step cannot happen. *)
Definition step (l : label) (s : session) : option session :=
  match l with
  | Wake t now r =>
      match at_pc (task_of t s) with
      | Finished => None
      | _ =>
          match wake t (task_of t s) now r (env s) with
          | (Ok k, w) => Some (set_task t k (set_env w s))
          | (Raise _, w) =>
              Some (set_task t {| at_pc := Finished; must_cancel := false |}
                      (set_env w s))
          end
      end
  | ChildExits code =>
      match returncode s with
      | Some _ => None
      | None =>
          Some {| env := env s; stdin_task := stdin_task s;
                  stdout_task := stdout_task s; stderr_task := stderr_task s;
                  returncode := Some code; supervisor := supervisor s |}
      end
  | PipeLost =>
      Some (set_env {| log_file := log_file (env s); stdin_closing := true;
                       faulty := faulty (env s); trace := trace (env s) |} s)
  | Faults f =>
      Some (set_env {| log_file := log_file (env s);
                       stdin_closing := stdin_closing (env s);
                       faulty := f; trace := trace (env s) |} s)
  | SupervisorResumes =>
      match supervisor s, returncode s with
      | AwaitingExit, Some code =>
          match start_end s (env s) with
          | (Ok (k_in, k_out, k_err), w) =>
              Some {| env := w; stdin_task := k_in; stdout_task := k_out;
                      stderr_task := k_err; returncode := Some code;
                      supervisor := Returned code |}
          | (Raise _, w) =>
              (* the three [cancel()] calls were made before the close *)
              Some {| env := w; stdin_task := cancelled (stdin_task s);
                      stdout_task := cancelled (stdout_task s);
                      stderr_task := cancelled (stderr_task s);
                      returncode := Some code; supervisor := Failed |}
          end
      | _, _ => None
      end
  end.

(** A schedule, run from a session. *)
Fixpoint run (ls : list label) (s : session) : option session :=
  match ls with
  | [] => Some s
  | l :: ls' =>
      match step l s with
      | Some s' => run ls' s'
      | None => None
      end
  end.

(** The exit status the operating system records for [sys.exit(code)]:
    the low eight bits of [code] (POSIX), so that the return code [-9] of
    a child killed by signal 9 gives 247. *)
Definition exit_status (code : Z) : Z := code mod 256.

(** The exit code of the capture process: [asyncio.run(main())] is what
    [start] returned and [sys.exit(exit_code)] exits with its status; an
    error that [start] raised is caught nowhere, and the interpreter ends
    with status 1. *)
Definition exit_code (s : session) : option Z :=
  match supervisor s with
  | Returned code => Some (exit_status code)
  | Failed => Some 1%Z
  | AwaitingExit => None
  end.

(** *** Reading a trace *)

Definition reads (t : tag) (tr : list event) : list bytes :=
  flat_map (fun e => match e with
                     | ReadLine t' (b :: l) => if tag_eqb t t' then [b :: l] else []
                     | _ => []
                     end) tr.

Definition forwarded (t : tag) (tr : list event) : list bytes :=
  flat_map (fun e => match e with
                     | DestWrite t' l => if tag_eqb t t' then [l] else []
                     | _ => []
                     end) tr.

Definition records (t : tag) (tr : list event) : list bytes :=
  flat_map (fun e => match e with
                     | LogWrite t' l => if tag_eqb t t' then [l] else []
                     | _ => []
                     end) tr.

Definition is_log_write (e : event) : bool :=
  match e with LogWrite _ _ => true | _ => false end.

Definition is_log_close (e : event) : bool :=
  match e with LogClose => true | _ => false end.

End Capture.

(** ** Regular expressions, as far as the reformatter's pattern needs them *)

Module Regex.
Import Text.

(** The decimal digits of Unicode 14.0 (general category Nd), which [\d]
    matches in a [str] pattern: first and last code point of each run. *)
Definition decimal_ranges : list (N * N) :=
  [(0x30, 0x39); (0x660, 0x669); (0x6F0, 0x6F9); (0x7C0, 0x7C9);
   (0x966, 0x96F); (0x9E6, 0x9EF); (0xA66, 0xA6F); (0xAE6, 0xAEF);
   (0xB66, 0xB6F); (0xBE6, 0xBEF); (0xC66, 0xC6F); (0xCE6, 0xCEF);
   (0xD66, 0xD6F); (0xDE6, 0xDEF); (0xE50, 0xE59); (0xED0, 0xED9);
   (0xF20, 0xF29); (0x1040, 0x1049); (0x1090, 0x1099); (0x17E0, 0x17E9);
   (0x1810, 0x1819); (0x1946, 0x194F); (0x19D0, 0x19D9); (0x1A80, 0x1A89);
   (0x1A90, 0x1A99); (0x1B50, 0x1B59); (0x1BB0, 0x1BB9); (0x1C40, 0x1C49);
   (0x1C50, 0x1C59); (0xA620, 0xA629); (0xA8D0, 0xA8D9); (0xA900, 0xA909);
   (0xA9D0, 0xA9D9); (0xA9F0, 0xA9F9); (0xAA50, 0xAA59); (0xABF0, 0xABF9);
   (0xFF10, 0xFF19); (0x104A0, 0x104A9); (0x10D30, 0x10D39);
   (0x11066, 0x1106F); (0x110F0, 0x110F9); (0x11136, 0x1113F);
   (0x111D0, 0x111D9); (0x112F0, 0x112F9); (0x11450, 0x11459);
   (0x114D0, 0x114D9); (0x11650, 0x11659); (0x116C0, 0x116C9);
   (0x11730, 0x11739); (0x118E0, 0x118E9); (0x11950, 0x11959);
   (0x11C50, 0x11C59); (0x11D50, 0x11D59); (0x11DA0, 0x11DA9);
   (0x16A60, 0x16A69); (0x16AC0, 0x16AC9); (0x16B50, 0x16B59);
   (0x1D7CE, 0x1D7FF); (0x1E140, 0x1E149); (0x1E2F0, 0x1E2F9);
   (0x1E950, 0x1E959); (0x1FBF0, 0x1FBF9)].

Definition isdecimal (c : N) : bool :=
  existsb (fun r => (fst r <=? c) && (c <=? snd r)) decimal_ranges.

Inductive re :=
| Lit (s : str)                (* the characters of [s], literally *)
| Digit                        (* \d *)
| Dot                          (* .  : any character but a newline *)
| Seq (r1 r2 : re)
| Alt (r1 r2 : re)             (* r1|r2 *)
| Rep (n : nat) (r : re)       (* r{n} *)
| Plus (r : re).               (* r+, greedy *)

(** [s] split as [p ++ rest] when it starts with [p]. *)
Fixpoint strip_prefix (p s : str) : option str :=
  match p, s with
  | [], _ => Some s
  | a :: p', b :: s' => if a =? b then strip_prefix p' s' else None
  | _ :: _, [] => None
  end.

Definition one_char (ok : N -> bool) (s : str) : list (str * str) :=
  match s with
  | c :: rest => if ok c then [([c], rest)] else []
  | [] => []
  end.

Definition then_ (first : list (str * str)) (next : str -> list (str * str))
  : list (str * str) :=
  flat_map (fun ar => map (fun br => (fst ar ++ fst br, snd br)) (next (snd ar)))
           first.

(** [r{n}], from the matcher [m] of [r]. *)
Fixpoint rep_of (m : str -> list (str * str)) (n : nat) (s : str)
  : list (str * str) :=
  match n with
  | O => [([], s)]
  | S n' => then_ (m s) (rep_of m n')
  end.

(** [r+], greedy, from the matcher [m] of [r]: after one match of [r],
    first the ways that go on (as long as [r] consumed something), then
    the way that stops. *)
Fixpoint plus_of (m : str -> list (str * str)) (fuel : nat) (s : str)
  : list (str * str) :=
  match fuel with
  | O => []
  | S fuel' =>
      flat_map
        (fun ar =>
           (if (List.length (snd ar) <? List.length s)%nat
            then map (fun br => (fst ar ++ fst br, snd br))
                     (plus_of m fuel' (snd ar))
            else []) ++ [ar])
        (m s)
  end.

(** The ways [r] matches at the start of [s], as (matched text, rest), in
    the order a backtracking matcher tries them. *)
Fixpoint matches (r : re) (s : str) {struct r} : list (str * str) :=
  match r with
  | Lit p =>
      match strip_prefix p s with
      | Some rest => [(p, rest)]
      | None => []
      end
  | Digit => one_char isdecimal s
  | Dot => one_char (fun c => negb (c =? 10)) s
  | Seq r1 r2 => then_ (matches r1 s) (matches r2)
  | Alt r1 r2 => matches r1 s ++ matches r2 s
  | Rep n r1 => rep_of (matches r1) n s
  | Plus r1 => plus_of (matches r1) (S (List.length s)) s
  end.

(** [re.match] of a pattern made of two groups, [(g1)(g2)]:
    [group(1)] and [group(2)] of the first way to match. *)
Definition match_groups (g1 g2 : re) (s : str) : option (str * str) :=
  match flat_map (fun ar => map (fun br => (fst ar, fst br)) (matches g2 (snd ar)))
                 (matches g1 s) with
  | m :: _ => Some m
  | [] => None
  end.

End Regex.

(** ** Python's [float]: conversion from a decimal literal, and [repr] *)

Module PyFloat.
Import Text.

(** [float] is IEEE 754 binary64. *)
Definition prec : Z := 53.
Definition emax : Z := 1024.

Definition sf_eqb (x y : spec_float) : bool :=
  match x, y with
  | S754_zero a, S754_zero b => Bool.eqb a b
  | S754_infinity a, S754_infinity b => Bool.eqb a b
  | S754_nan, S754_nan => true
  | S754_finite a m e, S754_finite b m' e' =>
      Bool.eqb a b && Pos.eqb m m' && Z.eqb e e'
  | _, _ => false
  end.

(** The binary64 number nearest to [D * 10^p] (ties to even), with the
    sign [neg]: what [float(text)] computes from a decimal literal. *)
Definition of_decimal (neg : bool) (D : N) (p : Z) : spec_float :=
  match D with
  | N0 => S754_zero neg
  | Npos d =>
      if (0 <=? p)%Z
      then binary_round prec emax neg (d * Z.to_pos (10 ^ p)) 0
      else
        let '(mz, ez, lz) :=
          SFdiv_core_binary prec emax (Zpos d) 0 (10 ^ (- p))%Z 0 in
        binary_round_aux prec emax neg mz ez lz
  end.

(** The decimal digits of [n], most significant first; [[0]] for zero. *)
Fixpoint digits_fuel (fuel : nat) (n : N) (acc : list N) : list N :=
  match fuel with
  | O => acc
  | S fuel' =>
      let acc' := n mod 10 :: acc in
      if n / 10 =? 0 then acc' else digits_fuel fuel' (n / 10) acc'
  end.

Definition decimal_digits (n : N) : list N :=
  digits_fuel (S (N.to_nat (N.size n))) n [].

Definition digit_char (d : N) : N := 48 + d.

(** [str(n)] for a non-negative [int]. *)
Definition decimal (n : N) : str := map digit_char (decimal_digits n).

Definition ndigits (n : N) : Z := Z.of_nat (List.length (decimal_digits n)).

(** [a/b / 10^k] as a fraction. *)
Definition scaled (a b : N) (k : Z) : N * N :=
  if (0 <=? k)%Z then (a, b * 10 ^ Z.to_N k) else (a * 10 ^ Z.to_N (- k), b).

(** The greatest [t] with [10^t <= a/b], for positive [a] and [b]. *)
Definition floor_log10 (a b : N) : Z :=
  let t := (ndigits a - ndigits b)%Z in
  let '(num, den) := scaled a b t in
  if den <=? num then t else (t - 1)%Z.

(** The exact value [m * 2^e] as a fraction. *)
Definition fraction (m : positive) (e : Z) : N * N :=
  if (0 <=? e)%Z then (Npos m * 2 ^ Z.to_N e, 1)
  else (Npos m, 2 ^ Z.to_N (- e)).

(** The decimal [c * 10^k] of [n] significant digits to print for the
    positive number [m * 2^e]: of the two that bracket it, the nearer one
    among those that read back as the same float; [None] if neither does.
    With [force], the nearer one whether or not it reads back. *)
Definition candidate (force : bool) (m : positive) (e : Z) (n : Z)
  : option (N * Z) :=
  let '(a, b) := fraction m e in
  let k := (floor_log10 a b - (n - 1))%Z in
  let '(num, den) := scaled a b k in
  let lo := num / den in
  let r := num mod den in
  let hi := lo + 1 in
  let reads_back c :=
    force || sf_eqb (of_decimal false c k) (S754_finite false m e) in
  if r =? 0 then Some (lo, k)
  else
    match reads_back lo, reads_back hi with
    | true, true =>
        match 2 * r ?= den with
        | Lt => Some (lo, k)
        | Gt => Some (hi, k)
        | Eq => if N.even lo then Some (lo, k) else Some (hi, k)
        end
    | true, false => Some (lo, k)
    | false, true => Some (hi, k)
    | false, false => None
    end.

(** The shortest decimal that reads back as [m * 2^e]: at most 17
    significant digits are needed for binary64. *)
Fixpoint shortest_from (m : positive) (e : Z) (n : Z) (tries : nat)
  : N * Z :=
  match tries with
  | O =>
      match candidate true m e n with
      | Some ck => ck
      | None => (0, 0%Z)
      end
  | S tries' =>
      match candidate false m e n with
      | Some ck => ck
      | None => shortest_from m e (n + 1) tries'
      end
  end.

Definition shortest (m : positive) (e : Z) : N * Z := shortest_from m e 1 16.

Fixpoint strip_zeros_rev (ds : list N) : list N :=
  match ds with
  | d :: ds' => if d =? 0 then strip_zeros_rev ds' else ds
  | [] => []
  end.

(** Digits without trailing zeros. *)
Definition strip_trailing_zeros (ds : list N) : list N :=
  rev (strip_zeros_rev (rev ds)).

Definition zeros (n : nat) : str := repeat 48 n.

(** [float.__repr__] of a positive finite number given by its shortest
    digits [ds] and the position [decpt] of the decimal point after the
    first digits: exponent notation when [decpt <= -4] or [decpt > 16]. *)
Definition format_short (ds : list N) (decpt : Z) : str :=
  let cs := map digit_char ds in
  if ((decpt <=? -4) || (16 <? decpt))%Z then
    let x := (decpt - 1)%Z in
    let xs := decimal (Z.to_N (Z.abs x)) in
    firstn 1 cs ++
    (match skipn 1 cs with [] => [] | rest => lit "." ++ rest end) ++
    lit "e" ++ (if (x <? 0)%Z then lit "-" else lit "+") ++
    (match xs with [_] => lit "0" ++ xs | _ => xs end)
  else if (decpt <=? 0)%Z then
    lit "0." ++ zeros (Z.to_nat (- decpt)) ++ cs
  else if (Z.of_nat (List.length cs) <=? decpt)%Z then
    cs ++ zeros (Z.to_nat decpt - List.length cs) ++ lit ".0"
  else
    firstn (Z.to_nat decpt) cs ++ lit "." ++ skipn (Z.to_nat decpt) cs.

Definition repr_finite (m : positive) (e : Z) : str :=
  let '(c, k) := shortest m e in
  let ds := decimal_digits c in
  format_short (strip_trailing_zeros ds) (k + Z.of_nat (List.length ds)).

(** What [json.dumps] writes for a float ([floatstr] with [allow_nan]):
    [float.__repr__] but for the three values JSON has no literal for. *)
Definition floatstr (x : spec_float) : str :=
  match x with
  | S754_nan => lit "NaN"
  | S754_infinity false => lit "Infinity"
  | S754_infinity true => lit "-Infinity"
  | S754_zero false => lit "0.0"
  | S754_zero true => lit "-0.0"
  | S754_finite neg m e =>
      (if neg then lit "-" else []) ++ repr_finite m e
  end.

End PyFloat.

(** ** The [json] module: [loads] and [dumps(indent=2, ensure_ascii=False)] *)

Module Json.
Import Text PyFloat.

(** A decoded JSON document: [None], [bool], [int], [float], [str],
    [list], and [dict] with its keys in insertion order. *)
Inductive json :=
| JNull
| JBool (b : bool)
| JInt (z : Z)
| JFloat (x : spec_float)
| JStr (s : str)
| JArr (items : list json)
| JObj (members : list (str * json)).

Fixpoint str_eqb (a b : str) : bool :=
  match a, b with
  | [], [] => true
  | x :: a', y :: b' => (x =? y) && str_eqb a' b'
  | _, _ => false
  end.

(** [d[k] = v]: a key already present keeps its place. *)
Fixpoint dict_set {V : Type} (d : list (str * V)) (k : str) (v : V)
  : list (str * V) :=
  match d with
  | [] => [(k, v)]
  | (k', v') :: d' =>
      if str_eqb k k' then (k, v) :: d' else (k', v') :: dict_set d' k v
  end.

(** *** Scanning *)

Inductive scan (A : Type) :=
| Scanned (a : A) (rest : str)
| Malformed                    (* JSONDecodeError *)
| Exhausted.                   (* the recursion budget of the model ran out *)
Arguments Malformed {A}.
Arguments Exhausted {A}.

Definition is_whitespace (c : N) : bool :=
  (c =? 32) || (c =? 9) || (c =? 10) || (c =? 13).

Fixpoint skip_ws (s : str) : str :=
  match s with
  | c :: r => if is_whitespace c then skip_ws r else s
  | [] => []
  end.

Definition is_digit (c : N) : bool := (48 <=? c) && (c <=? 57).

Fixpoint span (p : N -> bool) (s : str) : str * str :=
  match s with
  | c :: r => if p c then let '(a, b) := span p r in (c :: a, b) else ([], s)
  | [] => ([], [])
  end.

Definition hex_value (c : N) : option N :=
  if (48 <=? c) && (c <=? 57) then Some (c - 48)
  else if (97 <=? c) && (c <=? 102) then Some (c - 87)
  else if (65 <=? c) && (c <=? 70) then Some (c - 55)
  else None.

Definition hex4 (a b c d : N) : option N :=
  match hex_value a, hex_value b, hex_value c, hex_value d with
  | Some x, Some y, Some z, Some w => Some (((x * 16 + y) * 16 + z) * 16 + w)
  | _, _, _, _ => None
  end.

Definition is_high_surrogate (c : N) : bool := (0xD800 <=? c) && (c <=? 0xDBFF).
Definition is_low_surrogate (c : N) : bool := (0xDC00 <=? c) && (c <=? 0xDFFF).
Definition join_surrogates (hi lo : N) : N :=
  0x10000 + (hi - 0xD800) * 0x400 + (lo - 0xDC00).

(** The character a one-letter escape stands for. *)
Definition unescape (c : N) : option N :=
  if c =? 34 then Some 34            (* quote *)
  else if c =? 92 then Some 92       (* backslash *)
  else if c =? 47 then Some 47       (* slash *)
  else if c =? 98 then Some 8        (* b: backspace *)
  else if c =? 102 then Some 12      (* f: form feed *)
  else if c =? 110 then Some 10      (* n: line feed *)
  else if c =? 114 then Some 13      (* r: carriage return *)
  else if c =? 116 then Some 9       (* t: tab *)
  else None.

Definition push (c : N) (k : option (str * str)) : option (str * str) :=
  match k with
  | Some (s, rest) => Some (c :: s, rest)
  | None => None
  end.

(** [scanstring] in strict mode, from the character after the opening
    quote: the decoded string and what follows the closing quote. *)
Fixpoint scanstring (s : str) : option (str * str) :=
  match s with
  | [] => None                                   (* unterminated *)
  | c :: r =>
      if c =? 34 then Some ([], r)
      else if c =? 92 then
        match r with
        | [] => None
        | e :: r1 =>
            if e =? 117 then                     (* \uXXXX *)
              match r1 with
              | a :: b :: c' :: d :: r2 =>
                  match hex4 a b c' d with
                  | None => None
                  | Some u =>
                      match r2 with
                      | bs :: uu :: a2 :: b2 :: c2 :: d2 :: ((_ :: _) as r3) =>
                          if is_high_surrogate u && (bs =? 92) && (uu =? 117)
                          then
                            match hex4 a2 b2 c2 d2 with
                            | None => None
                            | Some u2 =>
                                if is_low_surrogate u2
                                then push (join_surrogates u u2) (scanstring r3)
                                else push u (scanstring r2)
                            end
                          else push u (scanstring r2)
                      | _ => push u (scanstring r2)
                      end
                  end
              | _ => None                        (* invalid \uXXXX escape *)
              end
            else
              match unescape e with
              | Some x => push x (scanstring r1)
              | None => None                     (* invalid \escape *)
              end
        end
      else if c <=? 0x1F then None               (* invalid control character *)
      else push c (scanstring r)
  end.

(** The value of a run of decimal digits. *)
Definition digits_value (ds : str) : N :=
  fold_left (fun acc c => acc * 10 + (c - 48)) ds 0.

(** A number as the scanner delimits it: sign, integer digits, fraction
    digits and exponent, the last two possibly absent. *)
Record number_token := {
  negative : bool;
  int_digits : str;
  frac_digits : option str;
  exponent : option (bool * str)       (* a minus sign?, the digits *)
}.

Definition token_is_float (t : number_token) : bool :=
  match frac_digits t, exponent t with
  | None, None => false
  | _, _ => true
  end.

Definition match_sign (s : str) : bool * str :=
  match s with
  | c :: r => if c =? 45 then (true, r) else (false, s)
  | [] => (false, s)
  end.

Definition match_int (s : str) : option (str * str) :=
  match s with
  | c :: r =>
      if (49 <=? c) && (c <=? 57)
      then let '(ds, r') := span is_digit r in Some (c :: ds, r')
      else if c =? 48 then Some ([c], r)
      else None
  | [] => None
  end.

Definition match_frac (s : str) : option str * str :=
  match s with
  | dot :: d :: _ =>
      if (dot =? 46) && is_digit d
      then let '(ds, r') := span is_digit (tl s) in (Some ds, r')
      else (None, s)
  | _ => (None, s)
  end.

Definition match_exp (s : str) : option (bool * str) * str :=
  match s with
  | e :: r =>
      if (e =? 101) || (e =? 69) then
        let '(minus, signed, r1) :=
          match r with
          | sg :: _ :: _ =>
              if (sg =? 45) || (sg =? 43) then (sg =? 45, true, tl r)
              else (false, false, r)
          | _ => (false, false, r)
          end in
        match span is_digit r1 with
        | ([], _) => (None, s)                   (* no digit: backtrack *)
        | (ds, r2) => (Some (minus, ds), r2)
        end
      else (None, s)
  | [] => (None, s)
  end.

(** [_match_number]: an optional minus sign, then [0] or a run of digits
    that does not start with [0], then optionally a dot with digits, then
    optionally [e] or [E] with an optional sign and digits. *)
Definition match_number (s : str) : option (number_token * str) :=
  let '(neg, s1) := match_sign s in
  match match_int s1 with
  | None => None
  | Some (ds, s2) =>
      let '(fr, s3) := match_frac s2 in
      let '(ex, s4) := match_exp s3 in
      Some ({| negative := neg; int_digits := ds; frac_digits := fr;
               exponent := ex |}, s4)
  end.

(** [int(numstr)] or [float(numstr)] of a delimited number. *)
Definition number_value (t : number_token) : json :=
  if token_is_float t then
    let fr := match frac_digits t with Some f => f | None => [] end in
    let x := match exponent t with
             | Some (true, ds) => (- Z.of_N (digits_value ds))%Z
             | Some (false, ds) => Z.of_N (digits_value ds)
             | None => 0%Z
             end in
    JFloat (of_decimal (negative t) (digits_value (int_digits t ++ fr))
                       (x - Z.of_nat (List.length fr)))
  else
    JInt (if negative t then - Z.of_N (digits_value (int_digits t))
          else Z.of_N (digits_value (int_digits t)))%Z.

Definition scan_literal (s : str) : option (json * str) :=
  match Regex.strip_prefix (lit "null") s with
  | Some r => Some (JNull, r)
  | None =>
  match Regex.strip_prefix (lit "true") s with
  | Some r => Some (JBool true, r)
  | None =>
  match Regex.strip_prefix (lit "false") s with
  | Some r => Some (JBool false, r)
  | None =>
  match Regex.strip_prefix (lit "NaN") s with
  | Some r => Some (JFloat S754_nan, r)
  | None =>
  match Regex.strip_prefix (lit "Infinity") s with
  | Some r => Some (JFloat (S754_infinity false), r)
  | None =>
  match Regex.strip_prefix (lit "-Infinity") s with
  | Some r => Some (JFloat (S754_infinity true), r)
  | None =>
  match match_number s with
  | Some (t, r) => Some (number_value t, r)
  | None => None
  end end end end end end end.

Definition lift {A B} (f : A -> B) (o : option (A * str)) : scan B :=
  match o with
  | Some (a, rest) => Scanned (f a) rest
  | None => Malformed
  end.

(** [scan_once] with [_parse_array] ([parse_items]: at an element) and
    [_parse_object] ([parse_members]: at a key). *)
Fixpoint scan_once (fuel : nat) (s : str) {struct fuel} : scan json :=
  match fuel with
  | O => Exhausted
  | S fuel' =>
      match s with
      | [] => Malformed
      | c :: r =>
          if c =? 34 then lift JStr (scanstring r)
          else if c =? 123 then
            match skip_ws r with
            | c2 :: r2 =>
                if c2 =? 125 then Scanned (JObj []) r2
                else parse_members fuel' (c2 :: r2) []
            | [] => Malformed
            end
          else if c =? 91 then
            match skip_ws r with
            | c2 :: r2 =>
                if c2 =? 93 then Scanned (JArr []) r2
                else parse_items fuel' (c2 :: r2) []
            | [] => Malformed
            end
          else lift (fun v => v) (scan_literal s)
      end
  end

with parse_items (fuel : nat) (s : str) (acc : list json) {struct fuel}
  : scan json :=
  match fuel with
  | O => Exhausted
  | S fuel' =>
      match scan_once fuel' s with
      | Scanned v rest =>
          match skip_ws rest with
          | c :: r =>
              if c =? 93 then Scanned (JArr (rev (v :: acc))) r
              else if c =? 44 then parse_items fuel' (skip_ws r) (v :: acc)
              else Malformed
          | [] => Malformed
          end
      | Malformed => Malformed
      | Exhausted => Exhausted
      end
  end

with parse_members (fuel : nat) (s : str) (acc : list (str * json))
       {struct fuel} : scan json :=
  match fuel with
  | O => Exhausted
  | S fuel' =>
      match s with
      | q :: r =>
          if q =? 34 then
            match scanstring r with
            | Some (key, rest) =>
                match skip_ws rest with
                | colon :: r2 =>
                    if colon =? 58 then
                      match scan_once fuel' (skip_ws r2) with
                      | Scanned v rest2 =>
                          match skip_ws rest2 with
                          | c :: r3 =>
                              if c =? 125
                              then Scanned (JObj (dict_set acc key v)) r3
                              else if c =? 44
                              then parse_members fuel' (skip_ws r3)
                                     (dict_set acc key v)
                              else Malformed
                          | [] => Malformed
                          end
                      | Malformed => Malformed
                      | Exhausted => Exhausted
                      end
                    else Malformed
                | [] => Malformed
                end
            | None => Malformed
            end
          else Malformed
      | [] => Malformed
      end
  end.

(** [s.startswith('\ufeff')]. *)
Definition starts_with_bom (s : str) : bool :=
  match s with
  | c :: _ => c =? 0xFEFF
  | [] => false
  end.

(** [json.loads(s)] for a [str]: [None] is [JSONDecodeError]. *)
Definition json_loads (s : str) : option json :=
  if starts_with_bom s then None                 (* unexpected UTF-8 BOM *)
  else
    match scan_once (S (2 * List.length s)) (skip_ws s) with
    | Scanned v rest =>
        match skip_ws rest with
        | [] => Some v
        | _ :: _ => None                         (* extra data *)
        end
    | _ => None
    end.

(** *** Printing *)

Definition hex_digit (d : N) : N := if d <? 10 then 48 + d else 87 + d.

(** [encode_basestring]'s replacement for one character. *)
Definition escape_char (c : N) : str :=
  if c =? 34 then [92; 34]
  else if c =? 92 then [92; 92]
  else if c =? 10 then [92; 110]
  else if c =? 13 then [92; 114]
  else if c =? 9 then [92; 116]
  else if c =? 8 then [92; 98]
  else if c =? 12 then [92; 102]
  else if c <? 0x20 then [92; 117; 48; 48; hex_digit (c / 16); hex_digit (c mod 16)]
  else [c].

Definition encode_basestring (s : str) : str :=
  [34] ++ flat_map escape_char s ++ [34].

(** [int.__repr__]. *)
Definition int_repr (z : Z) : str :=
  match z with
  | Zneg p => 45 :: decimal (Npos p)
  | _ => decimal (Z.to_N z)
  end.

Fixpoint join (sep : str) (parts : list str) : str :=
  match parts with
  | [] => []
  | [p] => p
  | p :: ps => p ++ sep ++ join sep ps
  end.

(** ['\n' + indent * level] with [indent] two spaces. *)
Definition newline_indent (level : nat) : str := 10 :: repeat 32 (2 * level).

(** The chunks [_iterencode] yields for a value at nesting [level],
    concatenated. *)
Fixpoint dumps_at (level : nat) (v : json) : str :=
  match v with
  | JNull => lit "null"
  | JBool true => lit "true"
  | JBool false => lit "false"
  | JInt z => int_repr z
  | JFloat x => floatstr x
  | JStr s => encode_basestring s
  | JArr [] => lit "[]"
  | JArr items =>
      lit "[" ++ newline_indent (S level) ++
      join (lit "," ++ newline_indent (S level))
           (map (dumps_at (S level)) items) ++
      newline_indent level ++ lit "]"
  | JObj [] => lit "{}"
  | JObj members =>
      lit "{" ++ newline_indent (S level) ++
      join (lit "," ++ newline_indent (S level))
           (map (fun kv => let '(k, x) := kv in
                           encode_basestring k ++ lit ": " ++
                           dumps_at (S level) x) members) ++
      newline_indent level ++ lit "}"
  end.

(** [json.dumps(obj, indent=2, ensure_ascii=False)]. *)
Definition json_dumps (v : json) : str := dumps_at 0 v.

End Json.

(** ** The reformatter *)

Module Formatter.
Import Text Regex Json.

Definition NL : N := 10.
Definition CR : N := 13.

(** Text-mode reading: ["\r\n"] and ["\r"] become ["\n"]. *)
Fixpoint universal_newlines (s : str) : str :=
  match s with
  | [] => []
  | c :: r =>
      if c =? CR then
        NL :: match r with
              | c2 :: r2 => if c2 =? NL then universal_newlines r2
                            else universal_newlines r
              | [] => []
              end
      else c :: universal_newlines r
  end.

(** The lines of a text, each with its newline. *)
Fixpoint split_lines (s : str) : list str :=
  match s with
  | [] => []
  | c :: r =>
      if c =? NL then [NL] :: split_lines r
      else match split_lines r with
           | [] => [[c]]
           | l :: ls => (c :: l) :: ls
           end
  end.

(** [f.readlines()] on a file opened with [open(input_file, 'r',
    encoding='utf-8')], from the decoded content of the file. *)
Definition readlines (content : str) : list str :=
  split_lines (universal_newlines content).

Definition d (n : nat) : re := Rep n Digit.

(** [group(1)] of [pattern]:
    [\[\d{4}-\d{2}-\d{2} \d{2}:\d{2}:\d{2}\.\d{3}\] (?:IN|OUT): ]. *)
Definition pattern_prefix : re :=
  Seq (Lit (lit "[")) (Seq (d 4) (Seq (Lit (lit "-")) (Seq (d 2)
  (Seq (Lit (lit "-")) (Seq (d 2) (Seq (Lit (lit " ")) (Seq (d 2)
  (Seq (Lit (lit ":")) (Seq (d 2) (Seq (Lit (lit ":")) (Seq (d 2)
  (Seq (Lit (lit ".")) (Seq (d 3) (Seq (Lit (lit "] "))
  (Seq (Alt (Lit (lit "IN")) (Lit (lit "OUT"))) (Lit (lit ": "))))))))))))))))).

(** [group(2)] of [pattern]: [.+]. *)
Definition pattern_json : re := Plus Dot.

(** [formatted_json.replace('\n', '\n  ')]. *)
Definition indent_continuation (s : str) : str :=
  flat_map (fun c => if c =? NL then [NL; 32; 32] else [c]) s.

(** The body of the [for line in lines] loop: the value appended to
    [formatted_lines]. *)
Definition format_line (line : str) : str :=
  match match_groups pattern_prefix pattern_json line with
  | Some (prefix, json_part) =>
      match json_loads json_part with
      | Some json_obj =>
          prefix ++ indent_continuation (json_dumps json_obj) ++ [NL]
      | None => line
      end
  | None => line
  end.

Definition format_lines (lines : list str) : list str := map format_line lines.

(** [format_json_logs]: from the content of the input file to what is
    written ([f.writelines(formatted_lines)], or [print(line, end='')] for
    each). *)
Definition format_json_logs (content : str) : str :=
  List.concat (format_lines (readlines content)).

End Formatter.

Module ClockSpec.
Import Text Clock.

Definition is_ascii_digit (c : N) : bool := (48 <=? c) && (c <=? 57).

(** The transcript timestamp of a clock reading with a four-digit year:
    the date, the time, and the milliseconds, the microseconds cut (not
    rounded) to three digits. *)
Definition iso_millis (d : datetime) : str :=
  digits 4 (year d) ++ lit "-" ++ digits 2 (month d) ++ lit "-" ++
  digits 2 (day d) ++ lit " " ++ digits 2 (hour d) ++ lit ":" ++
  digits 2 (minute d) ++ lit ":" ++ digits 2 (second d) ++ lit "." ++
  digits 3 (microsecond d / 1000).

End ClockSpec.

Module CaptureSpec.
Import Text Clock Capture.

(** The calls of one iteration that runs to its end. *)
Definition iteration_events (t : tag) (line entry : bytes) : list event :=
  [ReadLine t line; LogWrite t entry; LogFlush t; DestWrite t line; DestFlush t].

(** The calls of the statements after the loop. *)
Definition closing_events (t : tag) (was_closing : bool) : list event :=
  match t with
  | IN => if was_closing then [] else [ChildStdinClose]
  | _ => []
  end.

Definition next_pc (t : tag) : pc :=
  match t with IN => AtDrain | _ => AtReadline end.

(** What one run of relay [t] by the event loop adds to the trace, from
    where the coroutine was to where it is left. *)
Inductive block (t : tag) (was_closing : bool) (now : datetime)
  : pc -> list event -> pc -> Prop :=
| Blk_first :
    block t was_closing now Unstarted [] AtReadline
| Blk_never_run :
    block t was_closing now Unstarted [] Finished
| Blk_line line entry :
    line <> [] -> log_entry t now line = Decoded entry ->
    block t was_closing now AtReadline (iteration_events t line entry) (next_pc t)
| Blk_fault line entry k what :
    line <> [] -> log_entry t now line = Decoded entry ->
    (1 <= k <= 4)%nat ->
    block t was_closing now AtReadline
          (firstn k (iteration_events t line entry) ++
           LoggerError t what :: closing_events t was_closing) Finished
| Blk_eof :
    block t was_closing now AtReadline
          (ReadLine t [] :: closing_events t was_closing) Finished
| Blk_cancelled p :
    p = AtReadline \/ p = AtDrain ->
    block t was_closing now p (closing_events t was_closing) Finished
| Blk_raised p what :
    p = AtReadline \/ p = AtDrain ->
    block t was_closing now p
          (LoggerError t what :: closing_events t was_closing) Finished
| Blk_drained :
    block t was_closing now AtDrain [] AtReadline
| Blk_idle :
    block t was_closing now AtDrain [] AtDrain.

(** The world after a block. *)
Definition after_block (w : world) (es : list event) : world :=
  {| log_file := log_file w;
     stdin_closing := stdin_closing w || existsb (fun e => match e with ChildStdinClose => true | _ => false end) es;
     faulty := faulty w;
     trace := trace w ++ es |}.

(** What each step does to the session, in terms of blocks. *)
Inductive step_effect (s : session) : label -> session -> Prop :=
| Eff_wake t now r p' es :
    at_pc (task_of t s) <> Finished ->
    block t (stdin_closing (env s)) now (at_pc (task_of t s)) es p' ->
    (must_cancel (task_of t s) = true ->
     (t = IN \/ at_pc (task_of t s) <> AtDrain) ->
     p' = Finished /\ (es = [] \/ es = [ChildStdinClose])) ->
    step_effect s (Wake t now r)
      (set_task t {| at_pc := p'; must_cancel := false |}
         (set_env (after_block (env s) es) s))
| Eff_exit code :
    returncode s = None ->
    step_effect s (ChildExits code)
      {| env := env s; stdin_task := stdin_task s;
         stdout_task := stdout_task s; stderr_task := stderr_task s;
         returncode := Some code; supervisor := supervisor s |}
| Eff_env l w :
    l = PipeLost \/ (exists f, l = Faults f) ->
    log_file w = log_file (env s) -> trace w = trace (env s) ->
    step_effect s l (set_env w s)
| Eff_return code cancels k_in k_out k_err sup :
    supervisor s = AwaitingExit -> returncode s = Some code ->
    sup = Returned code \/ sup = Failed ->
    Forall (fun e => exists t, e = TaskCancel t) cancels ->
    (forall t k k', (t, k, k') = (IN, stdin_task s, k_in) \/
                    (t, k, k') = (OUT, stdout_task s, k_out) \/
                    (t, k, k') = (ERR, stderr_task s, k_err) ->
       at_pc k' = at_pc k /\ (at_pc k' = Finished \/ must_cancel k' = true)) ->
    step_effect s SupervisorResumes
      {| env := {| log_file := match log_file (env s) with NoFile => NoFile | _ => ClosedFile end;
                   stdin_closing := stdin_closing (env s);
                   faulty := faulty (env s);
                   trace := trace (env s) ++ cancels ++
                            match log_file (env s) with NoFile => [] | _ => [LogClose] end |};
         stdin_task := k_in; stdout_task := k_out; stderr_task := k_err;
         returncode := Some code; supervisor := sup |}.

Definition tail_ok (tail : list event) : Prop := tail = [] \/ tail = [LogClose].

End CaptureSpec.

Module RelaySpec.
Import Text Clock Capture ClockSpec CaptureSpec.

(** Every write to a destination is directly followed by the flush of
    that destination (for the child's stdin, the call of [drain]), or by
    the report of the error that the flush raised. *)
Fixpoint writes_flushed (tr : list event) : bool :=
  match tr with
  | [] => true
  | DestWrite t _ :: rest =>
      match rest with
      | DestFlush t' :: _ => tag_eqb t t' && writes_flushed rest
      | LoggerError t' _ :: _ => tag_eqb t t' && writes_flushed rest
      | _ => false
      end
  | _ :: rest => writes_flushed rest
  end.

(** Every record written to the log is directly followed by the flush of
    the log file, or by the report of the error that the flush raised. *)
Fixpoint logs_flushed (tr : list event) : bool :=
  match tr with
  | [] => true
  | LogWrite t _ :: rest =>
      match rest with
      | LogFlush t' :: _ => tag_eqb t t' && logs_flushed rest
      | LoggerError t' _ :: _ => tag_eqb t t' && logs_flushed rest
      | _ => false
      end
  | _ :: rest => logs_flushed rest
  end.

(** The record of the transcript format for [line] read by relay [t] at
    [now]: [[YYYY-MM-DD HH:MM:SS.mmm] TAG: content] and a newline, in
    UTF-8, the content being the line decoded and stripped on the right. *)
Definition transcript_record (t : tag) (now : datetime) (line entry : bytes) : Prop :=
  exists text,
    utf8_decode Replace line = Decoded text /\
    utf8_encode (lit "[" ++ iso_millis now ++ lit "] " ++ tag_name t ++
                 lit ": " ++ rstrip text ++ [Capture.NL]) = Decoded entry.

(** The clock never shows a year of fewer than four digits. *)
Definition clocks_ok (ls : list label) : bool :=
  forallb (fun l => match l with
                    | Wake _ now _ => 1000 <=? year now
                    | _ => true
                    end) ls.

(** The line the event loop hands to relay [t] in the step [l] taken
    from [s]: the value of the relay's [readline] await, when the relay
    is woken with a line while it is suspended there and no cancellation
    is pending.  End of stream (the empty value) is no line. *)
Definition handed_line (t : tag) (l : label) (s : session) : list bytes :=
  match l with
  | Wake t' _ (Value (b :: line)) =>
      if tag_eqb t t' then
        match at_pc (task_of t s), must_cancel (task_of t s) with
        | AtReadline, false => [b :: line]
        | _, _ => []
        end
      else []
  | _ => []
  end.

(** The lines handed to relay [t] over the schedule [ls] run from [s],
    in the order of the schedule: what the relay's source delivered. *)
Fixpoint delivered (t : tag) (ls : list label) (s : session) : list bytes :=
  match ls with
  | [] => []
  | l :: ls' =>
      match step l s with
      | Some s' => handed_line t l s ++ delivered t ls' s'
      | None => []
      end
  end.

(** What the supervisor's [start] guarantees about the log file. *)
Definition sink_inv (s : session) : Prop :=
  (forall t, t = IN \/ at_pc (task_of t s) <> AtDrain) /\
  match supervisor s with
  | AwaitingExit =>
      log_file (env s) = OpenFile /\ ~ In LogClose (trace (env s))
  | Returned _ | Failed =>
      log_file (env s) = ClosedFile /\
      (forall t, at_pc (task_of t s) = Finished \/ must_cancel (task_of t s) = true) /\
      exists pre post,
        trace (env s) = pre ++ LogClose :: post /\ ~ In LogClose pre /\
        Forall (fun e => e = ChildStdinClose) post
  end.

Definition exit_inv (ls : list label) (s : session) : Prop :=
  (forall n, In (ChildExits n) ls <-> returncode s = Some n) /\
  (forall v, supervisor s = Returned v -> returncode s = Some v).

(** What holds of relay [t] in every session: its writes and the log's
    are flushed, it has forwarded the lines it read, and logged one
    record for each, the last line apart when an error stopped it. *)
Definition relay_inv (t : tag) (ls : list label) (s : session) : Prop :=
  let tr := trace (env s) in
  writes_flushed tr = true /\ logs_flushed tr = true /\
  (forwarded t tr = reads t tr \/
   (at_pc (task_of t s) = Finished /\
    exists l what, reads t tr = forwarded t tr ++ [l] /\ In (LoggerError t what) tr)) /\
  exists stamped,
    Forall2 (fun nl e => log_entry t (fst nl) (snd nl) = Decoded e)
            stamped (records t tr) /\
    Forall (fun nl => exists r, In (Wake t (fst nl) r) ls) stamped /\
    (forwarded t tr = map snd stamped \/
     (at_pc (task_of t s) = Finished /\
      exists l, map snd stamped = forwarded t tr ++ [l])).

End RelaySpec.

Module Demo.
Import Text Clock Capture.

Definition no_faults : io_op -> bool := fun _ => false.

Definition new_year : datetime :=
  {| year := 2024; month := 1; day := 1;
     hour := 0; minute := 0; second := 0; microsecond := 0 |}.

Definition hello : bytes := blit "hello" ++ [x0a].
Definition ping : bytes := blit "ping" ++ [x0a].

(** A session: the relays start, the child prints a line, the parent
    sends one, the child exits with code 3, [start] returns, and the
    relays are run once more with their cancellation pending. *)
Definition demo_schedule : list label :=
  [ Wake OUT new_year (Value []);
    Wake IN new_year (Value []);
    Wake ERR new_year (Value []);
    Wake OUT new_year (Value hello);
    Wake IN new_year (Value ping);
    Wake IN new_year (Value []);
    ChildExits 3;
    SupervisorResumes;
    Wake IN new_year (Value ping);
    Wake OUT new_year (Value hello);
    Wake ERR new_year (Value []) ].

Definition demo_trace : list event :=
  [ ReadLine OUT hello;
    LogWrite OUT (blit "[2024-01-01 00:00:00.000] OUT: hello" ++ [x0a]);
    LogFlush OUT; DestWrite OUT hello; DestFlush OUT;
    ReadLine IN ping;
    LogWrite IN (blit "[2024-01-01 00:00:00.000] IN: ping" ++ [x0a]);
    LogFlush IN; DestWrite IN ping; DestFlush IN;
    TaskCancel IN; TaskCancel OUT; TaskCancel ERR; LogClose;
    ChildStdinClose ].

Definition finished : task := {| at_pc := Finished; must_cancel := false |}.

Definition demo_session : session :=
  {| env := {| log_file := ClosedFile; stdin_closing := true;
               faulty := no_faults; trace := demo_trace |};
     stdin_task := finished; stdout_task := finished; stderr_task := finished;
     returncode := Some 3%Z; supervisor := Returned 3 |}.

Definition blank_line : bytes := [x20; x09; x0d; x0a].

End Demo.

Module FormatterSpec.
Import Text Clock Capture Regex PyFloat Json Formatter.

(** [r] matches [a] at the start of any text, in that one way. *)
Definition exact (r : re) (a : str) : Prop :=
  forall rest, matches r (a ++ rest) = [(a, rest)].

(** [r] matches at the start of a text in at most one way, and what it
    matches does not depend on what follows. *)
Definition stable (r : re) : Prop :=
  forall s, matches r s = [] \/ exists a rest, s = a ++ rest /\ exact r a.

(** A run of [n] decimal digits. *)
Definition digit_run (n : nat) (ds : str) : Prop :=
  List.length ds = n /\ Forall (fun c => isdecimal c = true) ds.

(** The layout [DDDD-DD-DD DD:DD:DD.DDD] of a transcript timestamp. *)
Definition shaped_timestamp (ts : str) : Prop :=
  exists y mo dd h mi s ms,
    ts = y ++ lit "-" ++ mo ++ lit "-" ++ dd ++ lit " " ++ h ++ lit ":" ++
         mi ++ lit ":" ++ s ++ lit "." ++ ms /\
    digit_run 4 y /\ digit_run 2 mo /\ digit_run 2 dd /\ digit_run 2 h /\
    digit_run 2 mi /\ digit_run 2 s /\ digit_run 3 ms.

(** A line of the transcript: [[timestamp] TAG: content] and a newline. *)
Definition transcript_line (t : tag) (ts content : str) : str :=
  lit "[" ++ ts ++ lit "] " ++ tag_name t ++ lit ": " ++ content ++ [NL].

(** The part of a transcript line that [group(1)] of the pattern takes. *)
Definition line_prefix (t : tag) (ts : str) : str :=
  lit "[" ++ ts ++ lit "] " ++ tag_name t ++ lit ": ".

Definition not_newline (c : N) : bool := negb (c =? 10).

(** A character that is not a control character. *)
Definition visible (c : N) : bool := 32 <=? c.

Definition no_cr (c : N) : bool := negb (c =? 13).

(** The value of a list of digits, most significant first. *)
Definition value_of (ds : list N) : N := fold_left (fun acc d => acc * 10 + d) ds 0.

(** Text of one line: no newline and no carriage return in it. *)
Definition line_body (s : str) : Prop :=
  Forall (fun c => not_newline c = true /\ no_cr c = true) s.

(** A line with its newline. *)
Definition complete_line (l : str) : Prop :=
  exists body, line_body body /\ l = body ++ [NL].






(** Induction on a JSON value, with the property for the items of an
    array and the values of an object. *)
Section JsonInduction.
Variable P : json -> Prop.
Hypothesis Hnull : P JNull.
Hypothesis Hbool : forall b, P (JBool b).
Hypothesis Hint : forall z, P (JInt z).
Hypothesis Hfloat : forall x, P (JFloat x).
Hypothesis Hstr : forall s, P (JStr s).
Hypothesis Harr : forall items, Forall P items -> P (JArr items).
Hypothesis Hobj : forall members, Forall (fun kv => P (snd kv)) members -> P (JObj members).

Fixpoint json_induction (v : json) : P v :=
  match v with
  | JNull => Hnull
  | JBool b => Hbool b
  | JInt z => Hint z
  | JFloat x => Hfloat x
  | JStr s => Hstr s
  | JArr items =>
      Harr ((fix all (l : list json) : Forall P l :=
               match l with
               | [] => Forall_nil P
               | x :: l' => Forall_cons x (json_induction x) (all l')
               end) items)
  | JObj members =>
      Hobj ((fix all (l : list (str * json)) : Forall (fun kv => P (snd kv)) l :=
               match l with
               | [] => Forall_nil _
               | kv :: l' =>
                   @Forall_cons _ (fun kv => P (snd kv)) kv l'
                                (json_induction (snd kv)) (all l')
               end) members)
  end.
End JsonInduction.

End FormatterSpec.

Module Scenario.
Import Text Capture Json Formatter FormatterSpec.

Definition quote : N := 34.

Definition scenario_ts : str := lit "2024-01-01 00:00:00.000".

(** The content [{"a":1}], with [quote] for the quotation marks. *)
Definition scenario_content : str :=
  lit "{" ++ [quote] ++ lit "a" ++ [quote] ++ lit ":1}".

Definition scenario_value : json := JObj [(lit "a", JInt 1)].

Definition scenario_line : str :=
  lit "[2024-01-01 00:00:00.000] OUT: " ++ scenario_content.

(** The record with two-space indentation and nothing more. *)
Definition plain_rendering : str :=
  lit "[2024-01-01 00:00:00.000] OUT: {" ++ [NL] ++
  lit "  " ++ [quote] ++ lit "a" ++ [quote] ++ lit ": 1" ++ [NL] ++
  lit "}".

(** The record with the lines after the first indented by two more
    spaces, and its newline. *)
Definition indented_rendering : str :=
  lit "[2024-01-01 00:00:00.000] OUT: {" ++ [NL] ++
  lit "    " ++ [quote] ++ lit "a" ++ [quote] ++ lit ": 1" ++ [NL] ++
  lit "  }" ++ [NL].

Definition err_line : str :=
  lit "[2024-01-01 00:00:00.000] ERR: " ++ scenario_content ++ [NL].


End Scenario.

(** ** Vocabulary for JSON values *)

Module JsonSpec.
Import Text PyFloat Json Formatter FormatterSpec.

(** No [float] anywhere in the value. *)
Fixpoint float_free (v : json) : bool :=
  match v with
  | JFloat _ => false
  | JArr items => forallb float_free items
  | JObj members => forallb (fun kv => float_free (snd kv)) members
  | _ => true
  end.

(** [k in d]. *)
Definition has_key {V : Type} (k : str) (d : list (str * V)) : bool :=
  existsb (fun kv => str_eqb k (fst kv)) d.

(** No key occurs twice. *)
Fixpoint unique_keys {V : Type} (d : list (str * V)) : bool :=
  match d with
  | [] => true
  | kv :: d' => negb (has_key (fst kv) d') && unique_keys d'
  end.

(** A value as a Python [dict] can hold it: in every object, at every
    depth, each key once. *)
Fixpoint well_keyed (v : json) : bool :=
  match v with
  | JArr items => forallb well_keyed items
  | JObj members =>
      unique_keys members && forallb (fun kv => well_keyed (snd kv)) members
  | _ => true
  end.

(** The recursion budget that scanning the text of [v] takes: one for the
    value, and one more for each element of an array or member of an
    object. *)
Fixpoint cost (v : json) : nat :=
  match v with
  | JArr items => S (list_sum (map (fun x => S (cost x)) items))
  | JObj members => S (list_sum (map (fun kv => S (cost (snd kv))) members))
  | _ => 1
  end.

(** What follows a value in the text [json.dumps] writes: nothing, a
    comma, or a newline. *)
Definition ends_value (rest : str) : Prop :=
  rest = [] \/ exists c r, rest = c :: r /\ (c = 44 \/ c = 10).

(** A character that a printed value can start with. *)
Definition opens_value (c : N) : Prop :=
  is_whitespace c = false /\ c <> 93 /\ c <> 125 /\ c <> 44 /\ c < 128.

(** The text printed for [v] at any nesting level, followed by what can
    follow a value, is scanned as [v], within the budget [cost v]. *)
Definition reads_back (v : json) : Prop :=
  forall level fuel rest,
    (cost v <= fuel)%nat -> ends_value rest ->
    scan_once fuel (dumps_at level v ++ rest) = Scanned v rest.

(** The text printed for the member [kv] of an object at nesting level
    [level]. *)
Definition member_text (level : nat) (kv : str * json) : str :=
  encode_basestring (fst kv) ++ lit ": " ++ dumps_at level (snd kv).

End JsonSpec.

(** ** The language of a pattern *)

Module RegexSpec.
Import Text Regex.

(** The texts a pattern stands for. *)
Inductive denotes : re -> str -> Prop :=
| D_lit s : denotes (Lit s) s
| D_digit c : isdecimal c = true -> denotes Digit [c]
| D_dot c : c <> 10 -> denotes Dot [c]
| D_seq r1 r2 a b : denotes r1 a -> denotes r2 b -> denotes (Seq r1 r2) (a ++ b)
| D_alt_l r1 r2 a : denotes r1 a -> denotes (Alt r1 r2) a
| D_alt_r r1 r2 a : denotes r2 a -> denotes (Alt r1 r2) a
| D_rep_O r : denotes (Rep 0 r) []
| D_rep_S n r a b :
    denotes r a -> denotes (Rep n r) b -> denotes (Rep (S n) r) (a ++ b)
| D_plus_one r a : denotes r a -> denotes (Plus r) a
| D_plus_more r a b :
    denotes r a -> denotes (Plus r) b -> denotes (Plus r) (a ++ b).

End RegexSpec.

(** ** More about the relays *)

Module RelayMore.
Import Text Clock Capture.

(** What holds of the stdin relay from the moment it has begun its loop:
    it is never again as it was before its first run, and once it is
    finished the child's stdin is closing. *)
Definition stdin_inv (s : session) : Prop :=
  at_pc (stdin_task s) <> Unstarted /\
  (at_pc (stdin_task s) = Finished -> stdin_closing (env s) = true).

(** Every line written to a destination was read by the same relay just
    before, and its record written to the log and flushed in between. *)
Definition logged_first (tr : list event) : Prop :=
  forall pre post t line,
    tr = pre ++ DestWrite t line :: post ->
    exists pre' entry now,
      pre = pre' ++ [ReadLine t line; LogWrite t entry; LogFlush t] /\
      log_entry t now line = Decoded entry.

(** The records written to the log, by whichever relay, in the order of
    the writes. *)
Definition written (tr : list event) : list bytes :=
  flat_map (fun e => match e with LogWrite _ entry => [entry] | _ => [] end) tr.

(** The bytes of the log file: the file is opened empty and every write
    appends. *)
Definition transcript (tr : list event) : bytes := List.concat (written tr).

(** The text of a record of the transcript, for some relay, time and
    line. *)
Definition is_record_text (x : str) : Prop :=
  exists t now line text,
    utf8_decode Replace line = Decoded text /\
    x = record_text t (timestamp now) (rstrip text).

End RelayMore.

(** ** The names of the log files *)

Module Naming.
Import Text Clock.

(** [datetime.datetime.now().strftime("%Y%m%d-%H%M%S")], the value of
    [self.timestamp] set by [__init__]. *)
Definition strftime_compact (d : datetime) : str :=
  strftime_Y (year d) ++ digits 2 (month d) ++ digits 2 (day d) ++ lit "-" ++
  digits 2 (hour d) ++ digits 2 (minute d) ++ digits 2 (second d).

(** The file name in [self.log_path]:
    [f"mcp-capture-{self.timestamp}.log"]. *)
Definition log_name (d : datetime) : str :=
  lit "mcp-capture-" ++ strftime_compact d ++ lit ".log".

(** The file name in [self.script_log_path]:
    [f"command-capture-{self.timestamp}.log"]. *)
Definition script_log_name (d : datetime) : str :=
  lit "command-capture-" ++ strftime_compact d ++ lit ".log".

(** Two clock readings within the same second. *)
Definition same_second (a b : datetime) : Prop :=
  year a = year b /\ month a = month b /\ day a = day b /\
  hour a = hour b /\ minute a = minute b /\ second a = second b.

(** [a < b] for two [str]: by code points, a proper prefix first. *)
Fixpoint str_lt (a b : list N) : bool :=
  match a, b with
  | _, [] => false
  | [], _ :: _ => true
  | x :: a', y :: b' => (x <? y) || ((x =? y) && str_lt a' b')
  end.

(** The fields of a clock reading that the transcript timestamp shows,
    the most significant first. *)
Definition shown_fields (d : datetime) : list N :=
  [year d; month d; day d; hour d; minute d; second d; microsecond d / 1000].

End Naming.

(** ** Where the formatter writes *)

Module OutputPath.
Import Text.

(** [name.rfind('.')]. *)
Fixpoint rfind_dot (name : str) : option nat :=
  match name with
  | [] => None
  | c :: r =>
      match rfind_dot r with
      | Some i => Some (S i)
      | None => if c =? 46 then Some O else None
      end
  end.

(** [PurePath.suffix], from the final component [name] of the path: from
    the last dot on, unless that dot is the first or the last character. *)
Definition suffix (name : str) : str :=
  match rfind_dot name with
  | Some i =>
      if (0 <? i)%nat && (i <? List.length name - 1)%nat then skipn i name else []
  | None => []
  end.

(** [PurePath.stem]: the final component without its suffix. *)
Definition stem (name : str) : str :=
  match rfind_dot name with
  | Some i =>
      if (0 <? i)%nat && (i <? List.length name - 1)%nat then firstn i name else name
  | None => name
  end.

(** Where the output goes: printed, written to the path given with [-o],
    or written beside the input under another name. *)
Inductive target :=
| Console
| Given (path : str)
| Sibling (name : str).

(** The [__main__] block from [output_path = args.output] on, with the
    test [if output_file:] of [format_json_logs]: [output] is
    [args.output] and [name] the final component of the input path. *)
Definition output_target (output : option str) (name : str) : target :=
  match output with
  | Some (c :: path) => Given (c :: path)
  | _ =>
      match suffix name with
      | [] => Console
      | _ :: _ => Sibling (stem name ++ lit "_formatted" ++ suffix name)
      end
  end.

End OutputPath.

(** ** Sample inputs *)

Module Samples.
Import Text Clock Capture Json Formatter FormatterSpec Scenario Demo.

(** [{"id": 7, "params": ["a\nb", null, {}], "ok": true}]. *)
Definition sample_value : json :=
  JObj [(lit "id", JInt 7);
        (lit "params", JArr [JStr (lit "a" ++ [10] ++ lit "b"); JNull; JObj []]);
        (lit "ok", JBool true)].

(** An object that gives the key [a] twice, with the values 1 and 2. *)
Definition duplicate_keys : str :=
  lit "{" ++ [quote] ++ lit "a" ++ [quote] ++ lit ":1," ++
  [quote] ++ lit "a" ++ [quote] ++ lit ":2}".

(** The bytes of the scenario's content and a line feed, as the child
    would print them. *)
Definition json_line : bytes := map byte_of scenario_content ++ [x0a].

(** The text [caf\u00e9] followed by a space and a line feed. *)
Definition cafe : str := lit "caf" ++ [233; 32; 10].

Definition cafe_line : bytes :=
  blit "caf" ++ [xc3; xa9; x20; x0a].

Definition plain_log : str :=
  lit "child started" ++ [CR; NL] ++ lit "ready" ++ [NL].

Definition log_write_fails (op : io_op) : bool :=
  match op with OpLogWrite => true | _ => false end.

Definition stdout_write_fails (op : io_op) : bool :=
  match op with OpDestWrite OUT => true | _ => false end.

Definition log_flush_fails (op : io_op) : bool :=
  match op with OpLogFlush => true | _ => false end.

(** The stdout relay starts and the child prints a line. *)
Definition lost_line_schedule : list label :=
  [ Wake OUT new_year (Value []); Wake OUT new_year (Value hello) ].

(** The session after [lost_line_schedule] when the log cannot be
    written: the line was read and went nowhere. *)
Definition lost_line_session : session :=
  {| env := {| log_file := OpenFile; stdin_closing := false;
               faulty := log_write_fails;
               trace := [ReadLine OUT hello; LoggerError OUT "OSError"] |};
     stdin_task := {| at_pc := Unstarted; must_cancel := false |};
     stdout_task := finished;
     stderr_task := {| at_pc := Unstarted; must_cancel := false |};
     returncode := None; supervisor := AwaitingExit |}.

(** The child prints a line and exits with code 0, and [start] goes on. *)
Definition failed_close_schedule : list label :=
  [ Wake OUT new_year (Value []); Wake OUT new_year (Value hello);
    ChildExits 0; SupervisorResumes ].

(** The session after [failed_close_schedule] when the log cannot be
    flushed: the record stays in the buffer, the close raises, and
    [start] does not return. *)
Definition failed_close_session : session :=
  {| env := {| log_file := ClosedFile; stdin_closing := false;
               faulty := log_flush_fails;
               trace := [ReadLine OUT hello;
                         LogWrite OUT (blit "[2024-01-01 00:00:00.000] OUT: hello" ++ [x0a]);
                         LoggerError OUT "OSError";
                         TaskCancel IN; TaskCancel ERR; LogClose] |};
     stdin_task := {| at_pc := Unstarted; must_cancel := true |};
     stdout_task := finished;
     stderr_task := {| at_pc := Unstarted; must_cancel := true |};
     returncode := Some 0%Z; supervisor := Failed |}.

(** The parent's stdin is empty: the stdin relay starts and reads the
    end of the stream. *)
Definition empty_stdin_schedule : list label :=
  [ Wake IN new_year (Value []); Wake IN new_year (Value []) ].

Definition open_world (faults : io_op -> bool) : world :=
  {| log_file := OpenFile; stdin_closing := false; faulty := faults; trace := [] |}.

Definition reading : task := {| at_pc := AtReadline; must_cancel := false |}.

(** The same second as [new_year], half a second later. *)
Definition new_year_later : datetime :=
  {| year := 2024; month := 1; day := 1;
     hour := 0; minute := 0; second := 0; microsecond := 500000 |}.

(** The second after [new_year]. *)
Definition next_second : datetime :=
  {| year := 2024; month := 1; day := 1;
     hour := 0; minute := 0; second := 1; microsecond := 0 |}.

End Samples.

Module TextFacts.
Import Text.

(** Turn boolean comparisons on [N] into propositions [lia] can use. *)
Ltac n_props :=
  repeat match goal with
  | H : (_ && _) = true |- _ => apply andb_true_iff in H; destruct H
  | H : (_ && _) = false |- _ => apply andb_false_iff in H; destruct H
  | H : (_ || _) = true |- _ => apply orb_true_iff in H; destruct H
  | H : (_ || _) = false |- _ => apply orb_false_iff in H; destruct H
  | H : negb _ = true |- _ => apply negb_true_iff in H
  | H : negb _ = false |- _ => apply negb_false_iff in H
  | H : (_ <=? _) = true |- _ => apply N.leb_le in H
  | H : (_ <=? _) = false |- _ => apply N.leb_gt in H
  | H : (_ <? _) = true |- _ => apply N.ltb_lt in H
  | H : (_ <? _) = false |- _ => apply N.ltb_ge in H
  | H : (_ =? _) = true |- _ => apply N.eqb_eq in H
  | H : (_ =? _) = false |- _ => apply N.eqb_neq in H
  | H : context [if ?b then _ else _] |- _ => destruct b eqn:?
  end.

(** [lia] with the equations of division and remainder. *)
Ltac div_lia := zify; Z.to_euclidean_division_equations; lia.

Ltac n_goal :=
  repeat match goal with
  | |- (_ && _) = true => apply andb_true_iff; split
  | |- negb _ = true => apply negb_true_iff
  | |- (_ && _) = false => apply andb_false_iff
  | |- (_ <=? _) = true => apply N.leb_le
  | |- (_ <=? _) = false => apply N.leb_gt
  | |- (_ <? _) = true => apply N.ltb_lt
  | |- (_ <? _) = false => apply N.ltb_ge
  | |- (_ =? _) = true => apply N.eqb_eq
  | |- (_ =? _) = false => apply N.eqb_neq
  end.

Lemma is_scalar_spec c :
  is_scalar c = true <-> c <= 0x10FFFF /\ (c < 0xD800 \/ 0xDFFF < c).
Proof.
  unfold is_scalar, is_surrogate. split.
  - intros H. n_props; lia.
  - intros [H1 H2]. n_goal; [lia|].
    destruct H2; [left|right]; n_goal; lia.
Qed.

Lemma scalar_encodes c :
  is_scalar c = true -> exists b, utf8_encode_char c = Some b.
Proof.
  intros H. apply is_scalar_spec in H. destruct H as [H1 H2].
  unfold utf8_encode_char.
  destruct (c <? 0x80); [eauto|].
  destruct (c <? 0x800) eqn:E; [eauto|].
  assert (is_surrogate c = false) as ->.
  { unfold is_surrogate. destruct H2; apply andb_false_iff; [left|right]; n_goal; lia. }
  destruct (c <? 0x10000); [eauto|].
  assert ((c <=? 0x10FFFF) = true) as -> by (n_goal; lia). eauto.
Qed.

Lemma utf8_encode_scalars s :
  Forall (fun c => is_scalar c = true) s -> exists b, utf8_encode s = Decoded b.
Proof.
  induction 1 as [|c s Hc _ IH]; simpl; [eauto|].
  destruct (scalar_encodes _ Hc) as [b ->]. destruct IH as [bs ->]. eauto.
Qed.

Lemma utf8_encode_app s t b c :
  utf8_encode s = Decoded b -> utf8_encode t = Decoded c ->
  utf8_encode (s ++ t) = Decoded (b ++ c).
Proof.
  revert b. induction s as [|x s IH]; simpl; intros b Hs Ht.
  - inversion Hs. exact Ht.
  - destruct (utf8_encode_char x) as [bx|]; [|discriminate].
    destruct (utf8_encode s) as [bs|]; [|discriminate].
    inversion Hs. rewrite (IH bs eq_refl Ht). now rewrite app_assoc.
Qed.

Ltac close IH' :=
  cbv beta iota zeta in *;
  lazymatch goal with
  | |- context [utf8_decode Replace ?t] =>
      let s := fresh "s" in let E := fresh "E" in let F := fresh "F" in
      destruct (IH' t) as (s & E & F); [simpl; lia|];
      rewrite E; cbn [emit on_error];
      eexists; split; [reflexivity|];
      constructor; [|exact F]
  | |- _ =>
      cbn [on_error]; eexists; split; [reflexivity|]; constructor; [|constructor]
  end;
  apply is_scalar_spec;
  unfold REPLACEMENT, cp2, cp3, cp4, second_ok3, second_ok4, is_continuation in *;
  repeat match goal with
         | c : byte |- _ => pose proof (Byte.to_N_bounded c); generalize dependent (Byte.to_N c); clear c; intros
         end;
  n_props; lia.

(** Every branch of the decoder, in ['replace'] mode, yields text made of
    Unicode scalar values. *)
Lemma utf8_decode_replace_scalar bs :
  exists s, utf8_decode Replace bs = Decoded s /\
            Forall (fun c => is_scalar c = true) s.
Proof.
  remember (List.length bs) as n eqn:Hn.
  revert bs Hn. induction n as [n IH] using lt_wf_ind. intros bs Hn.
  assert (IH' : forall t, (List.length t < List.length bs)%nat ->
            exists s, utf8_decode Replace t = Decoded s /\
                      Forall (fun c => is_scalar c = true) s).
  { intros t Ht. apply (IH (List.length t)); [lia | reflexivity]. }
  clear IH Hn.
  destruct bs as [|c1 r1]; [simpl; eauto|].
  simpl utf8_decode. cbv zeta.
  destruct (Byte.to_N c1 <? 0x80) eqn:E1; [close IH'|].
  destruct (Byte.to_N c1 <? 0xC2) eqn:E2; [close IH'|].
  destruct (Byte.to_N c1 <? 0xE0) eqn:E3.
  { destruct r1 as [|c2 r2]; [close IH'|]. cbv beta iota zeta.
    destruct (is_continuation (Byte.to_N c2)) eqn:E4; close IH'. }
  destruct (Byte.to_N c1 <? 0xF0) eqn:E4.
  { destruct r1 as [|c2 r2]; [close IH'|]. cbv beta iota zeta.
    destruct (second_ok3 (Byte.to_N c1) (Byte.to_N c2)) eqn:E5; [|close IH'].
    destruct r2 as [|c3 r3]; [close IH'|]. cbv beta iota zeta.
    destruct (is_continuation (Byte.to_N c3)) eqn:E6; close IH'. }
  destruct (Byte.to_N c1 <? 0xF5) eqn:E5; [|close IH'].
  destruct r1 as [|c2 r2]; [close IH'|]. cbv beta iota zeta.
  destruct (second_ok4 (Byte.to_N c1) (Byte.to_N c2)) eqn:E6; [|close IH'].
  destruct r2 as [|c3 r3]; [close IH'|]. cbv beta iota zeta.
  destruct (is_continuation (Byte.to_N c3)) eqn:E7; [|close IH'].
  destruct r3 as [|c4 r4]; [close IH'|]. cbv beta iota zeta.
  destruct (is_continuation (Byte.to_N c4)) eqn:E8; close IH'.
Qed.


Lemma lit_ascii s : Forall (fun c => c < 256) (lit s).
Proof.
  induction s as [|a s IH]; simpl; constructor; [apply N_ascii_bounded | exact IH].
Qed.

Lemma small_is_scalar c : c < 0xD800 -> is_scalar c = true.
Proof. intros H. apply is_scalar_spec. lia. Qed.

Lemma lit_scalar s : Forall (fun c => is_scalar c = true) (lit s).
Proof.
  eapply Forall_impl; [|apply lit_ascii].
  intros c Hc. apply small_is_scalar. simpl in Hc. lia.
Qed.

(** [rstrip] splits a string into what it keeps and a run of whitespace. *)
Lemma rstrip_split s :
  exists ws, s = rstrip s ++ ws /\ Forall (fun c => isspace c = true) ws.
Proof.
  induction s as [|c s (ws & Hs & Hws)]; simpl.
  - exists []. split; [reflexivity | constructor].
  - destruct (rstrip s) as [|x t] eqn:E.
    + destruct (isspace c) eqn:Ec.
      * exists (c :: s). split; [reflexivity|].
        constructor; [exact Ec|]. simpl in Hs. now rewrite Hs.
      * exists ws. split; [simpl; now rewrite Hs at 1 | exact Hws].
    + exists ws. split; [|exact Hws]. simpl. now rewrite Hs at 1.
Qed.

(** What [rstrip] keeps does not end in whitespace. *)
Lemma rstrip_last s c : last (rstrip s) c = c \/ isspace (last (rstrip s) c) = false.
Proof.
  induction s as [|x s IH]; simpl; [now left|].
  destruct (rstrip s) as [|y t] eqn:E.
  - destruct (isspace x) eqn:Ex; simpl; [now left | now right].
  - change (last (x :: y :: t) c) with (last (y :: t) c). exact IH.
Qed.

Lemma rstrip_nonempty_last s :
  rstrip s <> [] -> isspace (last (rstrip s) 0) = false.
Proof.
  induction s as [|x s IH]; simpl; [congruence|].
  destruct (rstrip s) as [|y t] eqn:E.
  - destruct (isspace x) eqn:Ex; simpl; congruence.
  - intros _. change (last (x :: y :: t) 0) with (last (y :: t) 0).
    apply IH. congruence.
Qed.

Lemma rstrip_all_space s :
  Forall (fun c => isspace c = true) s -> rstrip s = [].
Proof.
  induction 1 as [|c s Hc _ IH]; simpl; [reflexivity|].
  now rewrite IH, Hc.
Qed.

Lemma rstrip_Forall (P : N -> Prop) s : Forall P s -> Forall P (rstrip s).
Proof.
  induction 1 as [|c s Hc Hs IH]; simpl; [constructor|].
  destruct (rstrip s) as [|y t].
  - destruct (isspace c); constructor; [exact Hc | constructor].
  - constructor; assumption.
Qed.

(** [rstrip] is the longest such split: appending whitespace changes nothing. *)
Lemma rstrip_app_space s ws :
  Forall (fun c => isspace c = true) ws -> rstrip (s ++ ws) = rstrip s.
Proof.
  intros H. induction s as [|c s IH]; simpl.
  - now apply rstrip_all_space.
  - now rewrite IH.
Qed.

End TextFacts.

Module ClockFacts.
Import Text Clock ClockSpec TextFacts.

Lemma digit_is_digit n : is_ascii_digit (digit n) = true.
Proof.
  unfold is_ascii_digit, digit.
  n_goal; div_lia.
Qed.

Lemma digits_length w n : List.length (digits w n) = w.
Proof.
  revert n. induction w as [|w IH]; intros n; simpl; [reflexivity|].
  rewrite length_app, IH. simpl. lia.
Qed.

Lemma digits_are_digits w n : Forall (fun c => is_ascii_digit c = true) (digits w n).
Proof.
  revert n. induction w as [|w IH]; intros n; simpl; [constructor|].
  apply Forall_app. split; [apply IH|].
  constructor; [apply digit_is_digit | constructor].
Qed.

(** A list of exactly [n] elements, opened up. *)
Lemma digits_S w n : digits (S w) n = digits w (n / 10) ++ [digit n].
Proof. reflexivity. Qed.


Lemma drop_last_app (s t : str) : drop_last (List.length t) (s ++ t) = s.
Proof.
  unfold drop_last. rewrite length_app.
  replace (List.length s + List.length t - List.length t)%nat
    with (List.length s + 0)%nat by lia.
  rewrite firstn_app_2. simpl. apply app_nil_r.
Qed.

Lemma digits_6_split n : digits 6 n = digits 3 (n / 1000) ++ digits 3 n.
Proof.
  cbn [digits app].
  assert (E : n / 10 / 10 / 10 = n / 1000).
  { rewrite !N.Div0.div_div. reflexivity. }
  rewrite !E. reflexivity.
Qed.

Lemma timestamp_iso_millis now :
  1000 <= year now -> timestamp now = iso_millis now.
Proof.
  intros Hy. unfold timestamp, strftime, strftime_Y, iso_millis.
  assert ((year now <? 10) = false) as -> by (n_goal; lia).
  assert ((year now <? 100) = false) as -> by (n_goal; lia).
  assert ((year now <? 1000) = false) as -> by (n_goal; lia).
  rewrite digits_6_split.
  set (us := digits 3 (microsecond now)).
  replace 3%nat with (List.length us) at 1 by apply digits_length.
  repeat rewrite app_assoc. rewrite drop_last_app. reflexivity.
Qed.

Lemma Forall_firstn' (A : Type) (P : A -> Prop) n (l : list A) :
  Forall P l -> Forall P (firstn n l).
Proof.
  intros H. rewrite <- (firstn_skipn n l) in H.
  apply Forall_app in H. tauto.
Qed.

Lemma timestamp_chars now : Forall (fun c => c < 256) (timestamp now).
Proof.
  assert (D : forall w n, Forall (fun c => c < 256) (digits w n)).
  { intros w n. eapply Forall_impl; [|apply digits_are_digits].
    intros c Hc. unfold is_ascii_digit in Hc. n_props. lia. }
  unfold timestamp, drop_last. apply Forall_firstn'.
  unfold strftime, strftime_Y.
  rewrite !Forall_app.
  repeat split; try apply lit_ascii; try apply D.
  destruct (year now <? 10); [apply D|].
  destruct (year now <? 100); [apply D|].
  destruct (year now <? 1000); apply D.
Qed.

End ClockFacts.

Module CaptureFacts.
Import Text Clock Capture CaptureSpec TextFacts ClockFacts.

Lemma record_text_scalar t now text :
  Forall (fun c => is_scalar c = true) text ->
  Forall (fun c => is_scalar c = true) (record_text t (timestamp now) (rstrip text)).
Proof.
  intros H. unfold record_text. rewrite !Forall_app.
  repeat split; try apply lit_scalar.
  - eapply Forall_impl; [|apply timestamp_chars].
    intros c Hc. apply small_is_scalar. simpl in Hc. lia.
  - destruct t; apply lit_scalar.
  - now apply rstrip_Forall.
  - constructor; [reflexivity | constructor].
Qed.

(** The [log_entry] expression always has a value. *)
Lemma log_entry_total t now line :
  exists text entry,
    utf8_decode Replace line = Decoded text /\
    utf8_encode (record_text t (timestamp now) (rstrip text)) = Decoded entry /\
    log_entry t now line = Decoded entry.
Proof.
  destruct (utf8_decode_replace_scalar line) as (text & E & F).
  destruct (utf8_encode_scalars (record_text_scalar t now F)) as (entry & E').
  exists text, entry. unfold log_entry. now rewrite E.
Qed.

Lemma world_eta w :
  w = {| log_file := log_file w; stdin_closing := stdin_closing w;
         faulty := faulty w; trace := trace w |}.
Proof. now destruct w. Qed.

Lemma after_block_intro w w' es :
  trace w' = trace w ++ es ->
  log_file w' = log_file w ->
  faulty w' = faulty w ->
  stdin_closing w' =
    (stdin_closing w ||
     existsb (fun e => match e with ChildStdinClose => true | _ => false end) es) ->
  w' = after_block w es.
Proof.
  destruct w'. unfold after_block. cbn. intros -> -> -> ->. reflexivity.
Qed.

Ltac unfold_relay :=
  unfold wake, handler, handle_stdin, handle_stdout, handle_stderr,
    handle_output, close_stdin_if_open, try_except, iteration,
    build_log_entry, log_write, log_flush, on_log_file, dest_write,
    dest_flush, check_fault, logger_error, emit_event, stdin_is_closing,
    stdin_close, await, bind, ret, raise, record_event.

Ltac pick_block t sc now line entry :=
  first
    [ apply Blk_first | apply Blk_never_run | apply Blk_drained | apply Blk_idle
    | apply Blk_eof
    | apply Blk_cancelled; tauto
    | apply Blk_raised; tauto
    | apply (@Blk_line t sc now line entry); [congruence | assumption]
    | apply (@Blk_fault t sc now line entry 1%nat); [congruence | assumption | lia]
    | apply (@Blk_fault t sc now line entry 2%nat); [congruence | assumption | lia]
    | apply (@Blk_fault t sc now line entry 3%nat); [congruence | assumption | lia]
    | apply (@Blk_fault t sc now line entry 4%nat); [congruence | assumption | lia] ].

(** One run of a relay by the event loop adds one block to the trace and
    nothing else changes, but the child's stdin when the relay closes it. *)
Lemma wake_block t k now r w :
  at_pc k <> Finished ->
  exists p' es,
    wake t k now r w = (Ok {| at_pc := p'; must_cancel := false |}, after_block w es) /\
    block t (stdin_closing w) now (at_pc k) es p'.
Proof.
  intros Hk. destruct k as [p c]. cbn [at_pc must_cancel] in *.
  destruct w as [lf sc fl tr].
  unfold wake. cbn [at_pc must_cancel].
  set (r' := if c then Thrown CancelledError else r). clearbody r'. clear r c.
  assert (G : forall res w',
             handler t p now r' {| log_file := lf; stdin_closing := sc; faulty := fl; trace := tr |} = (res, w') ->
             exists p' es, res = Ok p' /\ w' = after_block {| log_file := lf; stdin_closing := sc; faulty := fl; trace := tr |} es /\
                           block t sc now p es p').
  2:{ destruct (G _ _ (surjective_pairing _)) as (p' & es & E1 & E2 & B).
      exists p', es. unfold bind, ret.
      destruct (handler t p now r' _) as [res w']. cbn [fst snd] in E1, E2.
      subst res w'. split; [reflexivity | exact B]. }
  intros res w'.
  destruct r' as [line|e];
    [destruct line as [|b line];
     [|destruct (log_entry_total t now (b :: line)) as (text & entry & _ & _ & E)]
    | destruct e as [|what] ];
  destruct p; try congruence;
  destruct t, sc; unfold_relay; cbn [log_file stdin_closing faulty trace];
  try rewrite E;
  try (destruct lf; cbn [log_file stdin_closing faulty trace]);
  repeat match goal with
         | |- context [if fl ?op then _ else _] =>
             destruct (fl op) eqn:?; cbn [log_file stdin_closing faulty trace]
         end;
  intros W; inversion W; subst res w'; clear W;
  repeat rewrite <- app_assoc; cbn [app];
  eexists; eexists; (split; [reflexivity|]);
  (split; [apply after_block_intro; cbn [log_file stdin_closing faulty trace];
            [first [reflexivity | symmetry; apply app_nil_r] | reflexivity | reflexivity
            | cbn; rewrite ?orb_false_r, ?orb_true_r; reflexivity] |]);
  try (pick_block IN true now (b :: line) entry);
  try (pick_block IN false now (b :: line) entry);
  try (pick_block OUT true now (b :: line) entry);
  try (pick_block OUT false now (b :: line) entry);
  try (pick_block ERR true now (b :: line) entry);
  try (pick_block ERR false now (b :: line) entry).
  all: first [ pick_block IN true now (@nil byte) (@nil byte)
             | pick_block IN false now (@nil byte) (@nil byte)
             | pick_block OUT true now (@nil byte) (@nil byte)
             | pick_block OUT false now (@nil byte) (@nil byte)
             | pick_block ERR true now (@nil byte) (@nil byte)
             | pick_block ERR false now (@nil byte) (@nil byte) ].
Qed.


(** A relay whose cancellation was requested stops at its [await] without
    touching the log or its destination; the stdin relay closes the
    child's stdin on its way out. *)
Lemma wake_cancelled t k now r w :
  must_cancel k = true -> at_pc k <> Finished ->
  t = IN \/ at_pc k <> AtDrain ->
  wake t k now r w =
    (Ok {| at_pc := Finished; must_cancel := false |},
     after_block w (match at_pc k with
                    | Unstarted => []
                    | _ => closing_events t (stdin_closing w)
                    end)).
Proof.
  destruct k as [p c]. cbn [at_pc must_cancel]. intros -> Hp Ht.
  destruct w as [lf sc fl tr]. unfold wake. cbn [at_pc must_cancel].
  destruct p; try congruence;
    destruct t, sc; try (destruct Ht; congruence);
    unfold_relay; cbn [log_file stdin_closing faulty trace];
    unfold after_block; cbn; rewrite ?app_nil_r, ?orb_false_r; reflexivity.
Qed.

(** *** Runs *)

Lemma run_app ls1 ls2 s :
  run (ls1 ++ ls2) s =
  match run ls1 s with
  | Some s' => run ls2 s'
  | None => None
  end.
Proof.
  revert s. induction ls1 as [|l ls1 IH]; intros s; simpl; [reflexivity|].
  destruct (step l s); [apply IH | reflexivity].
Qed.

Lemma run_snoc ls l s s' :
  run (ls ++ [l]) s = Some s' ->
  exists s1, run ls s = Some s1 /\ step l s1 = Some s'.
Proof.
  rewrite run_app. destruct (run ls s) as [s1|]; [|discriminate].
  simpl. destruct (step l s1) as [s2|] eqn:E; [|discriminate].
  intros [= <-]. eauto.
Qed.

(** Induction over the sessions a schedule reaches. *)
Lemma run_invariant (P : list label -> session -> Prop) s0 :
  P [] s0 ->
  (forall ls l s s', run ls s0 = Some s -> P ls s -> step l s = Some s' ->
                     P (ls ++ [l]) s') ->
  forall ls s, run ls s0 = Some s -> P ls s.
Proof.
  intros H0 Hstep ls. induction ls as [|l ls IH] using rev_ind; intros s Hr.
  - inversion Hr. subst. exact H0.
  - destruct (run_snoc _ _ _ Hr) as (s1 & Hr1 & Hs).
    eapply Hstep; eauto.
Qed.

Lemma task_cancel_effect t k w :
  exists k' es,
    task_cancel t k w = (Ok k', {| log_file := log_file w; stdin_closing := stdin_closing w;
                                     faulty := faulty w; trace := trace w ++ es |}) /\
    Forall (fun e => exists t, e = TaskCancel t) es /\
    at_pc k' = at_pc k /\ (at_pc k' = Finished \/ must_cancel k' = true).
Proof.
  destruct k as [p c], w as [lf sc fl tr]. unfold task_cancel. cbn [at_pc].
  destruct p; unfold bind, emit_event, ret, record_event; cbn;
    try (eexists; exists [TaskCancel t]; repeat split;
         [repeat constructor; eauto | now right]).
  eexists; exists []. rewrite app_nil_r. repeat split; [constructor | now left].
Qed.

Lemma cancelled_effect k :
  at_pc (cancelled k) = at_pc k /\
  (at_pc (cancelled k) = Finished \/ must_cancel (cancelled k) = true).
Proof.
  destruct k as [p c]. unfold cancelled. cbn [at_pc].
  destruct p; cbn; auto.
Qed.

Lemma step_has_effect l s s' : step l s = Some s' -> step_effect s l s'.
Proof.
  destruct l as [t now r | code | | f |]; simpl.
  - destruct (at_pc (task_of t s)) eqn:Ep; try discriminate.
    all: assert (Hp : at_pc (task_of t s) <> Finished) by congruence.
    all: destruct (@wake_block t (task_of t s) now r (env s) Hp) as (p' & es & E & B).
    all: rewrite E; intros [= <-]; apply Eff_wake; try assumption.
    all: intros Hc Ht; rewrite (@wake_cancelled t _ now r (env s) Hc Hp Ht) in E.
    all: assert (E1 : p' = Finished) by
           (apply (f_equal fst) in E; cbn [fst] in E; now injection E).
    all: assert (E3 := f_equal (fun x => trace (snd x)) E).
    all: cbn [after_block trace snd] in E3; apply app_inv_head in E3; subst es p'.
    all: split; [reflexivity|].
    all: rewrite Ep; unfold closing_events; destruct t; try destruct (stdin_closing (env s)); auto.
  - destruct (returncode s) eqn:E; [discriminate|]. intros [= <-]. now apply Eff_exit.
  - intros [= <-]. apply Eff_env; auto.
  - intros [= <-]. apply Eff_env; eauto.
  - destruct (supervisor s) eqn:Es; try discriminate.
    destruct (returncode s) as [code|] eqn:Er; [|discriminate].
    unfold start_end, bind.
    destruct (task_cancel_effect IN (stdin_task s) (env s)) as (k1 & es1 & E1 & F1 & P1).
    rewrite E1.
    match type of E1 with _ = (_, ?w1) =>
      destruct (task_cancel_effect OUT (stdout_task s) w1) as (k2 & es2 & E2 & F2 & P2) end.
    rewrite E2.
    match type of E2 with _ = (_, ?w2) =>
      destruct (task_cancel_effect ERR (stderr_task s) w2) as (k3 & es3 & E3 & F3 & P3) end.
    rewrite E3. clear E1 E2 E3.
    unfold close_log_file, ret. cbn [log_file stdin_closing faulty trace].
    pose proof (@Eff_return s code (es1 ++ es2 ++ es3) k1 k2 k3 (Returned code)
                  Es Er (or_introl eq_refl)) as R.
    pose proof (@Eff_return s code (es1 ++ es2 ++ es3)
                  (cancelled (stdin_task s)) (cancelled (stdout_task s))
                  (cancelled (stderr_task s)) Failed
                  Es Er (or_intror eq_refl)) as R'.
    destruct (log_file (env s)) eqn:El;
      [ | match goal with |- context [close_raises ?w] =>
            destruct (close_raises w) end | ];
      intros [= <-];
      repeat rewrite <- app_assoc in *; rewrite ?app_nil_r in R.
    2: { apply R'; [rewrite !Forall_app; auto|].
         intros t k k' [H|[H|H]]; injection H as -> -> ->; apply cancelled_effect. }
    all: apply R; [rewrite !Forall_app; auto|].
    all: intros t k k' [H|[H|H]]; injection H as -> -> ->; assumption.
Qed.

End CaptureFacts.

Module SupervisorFacts.
Import Text Clock Capture CaptureSpec RelaySpec TextFacts ClockFacts CaptureFacts.

Lemma task_of_set_task t t' k s :
  task_of t' (set_task t k s) = if tag_eqb t t' then k else task_of t' s.
Proof. destruct t, t'; reflexivity. Qed.

Lemma task_of_set_env t w s : task_of t (set_env w s) = task_of t s.
Proof. destruct t; reflexivity. Qed.

Lemma env_set_task t k s : env (set_task t k s) = env s.
Proof. destruct t; reflexivity. Qed.

Lemma supervisor_set_task t k s : supervisor (set_task t k s) = supervisor s.
Proof. destruct t; reflexivity. Qed.

Lemma returncode_set_task t k s : returncode (set_task t k s) = returncode s.
Proof. destruct t; reflexivity. Qed.

Lemma tag_eqb_eq a b : tag_eqb a b = true <-> a = b.
Proof. destruct a, b; simpl; split; congruence. Qed.

Lemma tag_eqb_refl a : tag_eqb a a = true.
Proof. now destruct a. Qed.

Lemma In_firstn' (A : Type) (x : A) n l : In x (firstn n l) -> In x l.
Proof.
  intros H. rewrite <- (firstn_skipn n l). apply in_or_app. now left.
Qed.

Lemma block_events t wc now p es p' e :
  block t wc now p es p' -> In e es ->
  (exists line, e = ReadLine t line) \/ (exists entry, e = LogWrite t entry) \/
  e = LogFlush t \/ (exists line, e = DestWrite t line) \/ e = DestFlush t \/
  (exists what, e = LoggerError t what) \/ (e = ChildStdinClose /\ t = IN /\ wc = false).
Proof.
  assert (C : In e (closing_events t wc) -> e = ChildStdinClose /\ t = IN /\ wc = false).
  { unfold closing_events. destruct t, wc; simpl; intuition. }
  assert (I : forall line entry, In e (iteration_events t line entry) ->
              (exists line, e = ReadLine t line) \/ (exists entry, e = LogWrite t entry) \/
              e = LogFlush t \/ (exists line, e = DestWrite t line) \/ e = DestFlush t).
  { intros line entry. simpl. intuition eauto 10. }
  intros B He. inversion B; subst; try contradiction.
  - apply I in He. intuition.
  - apply in_app_or in He. destruct He as [He|[He|He]].
    + apply In_firstn', I in He. intuition.
    + eauto 10.
    + auto 10.
  - destruct He as [He|He]; [eauto 10 | auto 10].
  - auto 10.
  - destruct He as [He|He]; [eauto 10 | auto 10].
Qed.

Lemma block_pc t wc now p es p' :
  block t wc now p es p' -> t = IN \/ p <> AtDrain -> t = IN \/ p' <> AtDrain.
Proof.
  intros B H. inversion B; subst; try (right; congruence); try assumption.
  destruct t; [now left | right; discriminate | right; discriminate].
Qed.

Lemma sink_inv_start faults : sink_inv (start_begin faults).
Proof.
  split; [intros t; right; destruct t; discriminate|].
  simpl. split; [reflexivity | tauto].
Qed.

Lemma sink_inv_closed s :
  sink_inv s -> supervisor s <> AwaitingExit ->
  log_file (env s) = ClosedFile /\
  (forall t, at_pc (task_of t s) = Finished \/ must_cancel (task_of t s) = true) /\
  exists pre post,
    trace (env s) = pre ++ LogClose :: post /\ ~ In LogClose pre /\
    Forall (fun e => e = ChildStdinClose) post.
Proof.
  intros [_ H] Hs. destruct (supervisor s); [congruence | exact H | exact H].
Qed.

Lemma sink_inv_intro_closed s :
  (forall t, t = IN \/ at_pc (task_of t s) <> AtDrain) ->
  supervisor s <> AwaitingExit ->
  log_file (env s) = ClosedFile ->
  (forall t, at_pc (task_of t s) = Finished \/ must_cancel (task_of t s) = true) ->
  (exists pre post,
     trace (env s) = pre ++ LogClose :: post /\ ~ In LogClose pre /\
     Forall (fun e => e = ChildStdinClose) post) ->
  sink_inv s.
Proof.
  intros Hpc Hs Hf Hall Htr. split; [exact Hpc|].
  destruct (supervisor s); [congruence | auto | auto].
Qed.

Lemma sink_inv_step l s s' : sink_inv s -> step l s = Some s' -> sink_inv s'.
Proof.
  intros I St. pose proof I as [Hpc Hs]. apply step_has_effect in St.
  destruct St as [t now r p' es Hp B Hc | code Hr | l w Hl Hlf Htr
                 | code cancels k1 k2 k3 sup Es Er Hsup Fc Hk].
  - assert (Hpc' : forall t', t' = IN \/
              at_pc (task_of t' (set_task t {| at_pc := p'; must_cancel := false |}
                                   (set_env (after_block (env s) es) s))) <> AtDrain).
    { intros t'. rewrite task_of_set_task. destruct (tag_eqb t t') eqn:E.
      * apply tag_eqb_eq in E. subst t'. cbn [at_pc].
        eapply block_pc; eauto.
      * rewrite task_of_set_env. apply Hpc. }
    destruct (supervisor s) eqn:Es.
    + split; [exact Hpc'|].
      rewrite supervisor_set_task, env_set_task. cbn [supervisor env set_env].
      rewrite Es. destruct Hs as [Hf Hn]. cbn [after_block log_file trace].
      split; [exact Hf|].
      intros Hin. apply in_app_or in Hin. destruct Hin as [Hin|Hin]; [tauto|].
      destruct (@block_events t _ now _ es p' LogClose B Hin) as [[? H]|[[? H]|[H|[[? H]|[H|[[? H]|[H _]]]]]]];
        discriminate.
    + assert (Hne : supervisor s <> AwaitingExit) by congruence.
      destruct (sink_inv_closed I Hne) as (Hf & Hall & pre & post & Htr & Hpre & Hpost).
      apply sink_inv_intro_closed; [exact Hpc' | | | |];
        rewrite ?supervisor_set_task, ?env_set_task; cbn [supervisor env set_env];
        cbn [after_block log_file trace]; [exact Hne | exact Hf | |].
      * intros t'. rewrite task_of_set_task. destruct (tag_eqb t t') eqn:E.
        -- apply tag_eqb_eq in E. subst t'.
           destruct (Hall t) as [H|H]; [congruence|].
           destruct (Hc H (Hpc t)) as [-> _]. now left.
        -- rewrite task_of_set_env. apply Hall.
      * destruct (Hall t) as [H|H]; [congruence|].
        destruct (Hc H (Hpc t)) as [_ Hes].
        exists pre, (post ++ es). rewrite Htr, <- app_assoc. split; [reflexivity|].
        split; [exact Hpre|]. apply Forall_app. split; [exact Hpost|].
        destruct Hes as [-> | ->]; repeat constructor.
    + assert (Hne : supervisor s <> AwaitingExit) by congruence.
      destruct (sink_inv_closed I Hne) as (Hf & Hall & pre & post & Htr & Hpre & Hpost).
      apply sink_inv_intro_closed; [exact Hpc' | | | |];
        rewrite ?supervisor_set_task, ?env_set_task; cbn [supervisor env set_env];
        cbn [after_block log_file trace]; [exact Hne | exact Hf | |].
      * intros t'. rewrite task_of_set_task. destruct (tag_eqb t t') eqn:E.
        -- apply tag_eqb_eq in E. subst t'.
           destruct (Hall t) as [H|H]; [congruence|].
           destruct (Hc H (Hpc t)) as [-> _]. now left.
        -- rewrite task_of_set_env. apply Hall.
      * destruct (Hall t) as [H|H]; [congruence|].
        destruct (Hc H (Hpc t)) as [_ Hes].
        exists pre, (post ++ es). rewrite Htr, <- app_assoc. split; [reflexivity|].
        split; [exact Hpre|]. apply Forall_app. split; [exact Hpost|].
        destruct Hes as [-> | ->]; repeat constructor.
  - split; [exact Hpc | exact Hs].
  - split; [exact Hpc|]. cbn [supervisor env set_env].
    rewrite Hlf, Htr. exact Hs.
  - cbn [supervisor] in *. rewrite Es in Hs. destruct Hs as [Hf Hn].
    apply sink_inv_intro_closed; cbn [env log_file trace supervisor].
    + intros t. destruct t; cbn [task_of stdin_task stdout_task stderr_task].
      * now left.
      * destruct (Hk OUT (stdout_task s) k2) as [E _]; [auto|]. rewrite E. apply (Hpc OUT).
      * destruct (Hk ERR (stderr_task s) k3) as [E _]; [auto|]. rewrite E. apply (Hpc ERR).
    + destruct Hsup as [-> | ->]; discriminate.
    + now rewrite Hf.
    + intros t. destruct t; cbn [task_of stdin_task stdout_task stderr_task].
      * apply (Hk IN (stdin_task s) k1); auto.
      * apply (Hk OUT (stdout_task s) k2); auto.
      * apply (Hk ERR (stderr_task s) k3); auto.
    + rewrite Hf. exists (trace (env s) ++ cancels), []. rewrite <- app_assoc.
      split; [reflexivity|]. split; [|constructor].
      intros Hin. apply in_app_or in Hin. destruct Hin as [Hin|Hin]; [tauto|].
      rewrite Forall_forall in Fc. destruct (Fc _ Hin) as [t Ht]. discriminate.
Qed.

Lemma sink_inv_run faults ls s :
  run ls (start_begin faults) = Some s -> sink_inv s.
Proof.
  apply (@run_invariant (fun _ s => sink_inv s)).
  - apply sink_inv_start.
  - intros ? l s1 s2 _ H St. eapply sink_inv_step; eauto.
Qed.

Lemma cut_at_close (pre post pre' post' : list event) :
  pre ++ LogClose :: post = pre' ++ LogClose :: post' ->
  ~ In LogClose pre -> Forall (fun e => e = ChildStdinClose) post ->
  pre' = pre /\ post' = post.
Proof.
  revert pre'. induction pre as [|a pre IH]; intros pre' E Hn Hp.
  - destruct pre' as [|b pre'].
    + now injection E as <-.
    + simpl in E. injection E as Eb E. subst b. exfalso.
      assert (In LogClose post) as Hin by (rewrite E; apply in_elt).
      rewrite Forall_forall in Hp. specialize (Hp _ Hin). discriminate.
  - destruct pre' as [|b pre'].
    + simpl in E. injection E as Ea _. subst a. exfalso. apply Hn. now left.
    + simpl in E. injection E as Eb E. subst b.
      destruct (IH pre' E) as [-> ->]; [|assumption|auto].
      intros H. apply Hn. now right.
Qed.

Lemma count_close_cut (pre post : list event) :
  ~ In LogClose pre -> Forall (fun e => e = ChildStdinClose) post ->
  List.length (filter is_log_close (pre ++ LogClose :: post)) = 1%nat.
Proof.
  intros Hn Hp. rewrite filter_app. simpl.
  assert (filter is_log_close pre = []) as ->.
  { induction pre as [|a pre IH]; [reflexivity|]. simpl.
    destruct a; simpl; try (apply IH; intros H; apply Hn; now right).
    exfalso. apply Hn. now left. }
  assert (filter is_log_close post = []) as ->.
  { induction Hp as [|a post -> _ IH]; [reflexivity | exact IH]. }
  reflexivity.
Qed.

Lemma unflushed_app tr es :
  Forall (fun e => match e with LogWrite _ _ | LogFlush _ => False | _ => True end) es ->
  unflushed (tr ++ es) = unflushed tr.
Proof.
  unfold unflushed. rewrite fold_left_app.
  generalize (fold_left (fun pending e => match e with
                                         | LogWrite _ _ => true
                                         | LogFlush _ => false
                                         | _ => pending
                                         end) tr false) as b.
  induction es as [|e es IH]; intros b F; [reflexivity|].
  inversion F as [|? ? He F']. subst. cbn [fold_left].
  destruct e; try contradiction; now apply IH.
Qed.

Lemma unflushed_cancels tr es :
  Forall (fun e => exists t, e = TaskCancel t) es ->
  unflushed (tr ++ es) = unflushed tr.
Proof.
  intros F. apply unflushed_app. eapply Forall_impl; [|exact F].
  intros e [t ->]. exact I.
Qed.

(** What [start] does when the event loop resumes it after the child's
    exit: it returns the child's return code, unless the close of the log
    file raises. *)
Lemma supervisor_resumes s code :
  supervisor s = AwaitingExit -> returncode s = Some code ->
  log_file (env s) = OpenFile ->
  exists s', step SupervisorResumes s = Some s' /\
             supervisor s' =
               if close_raises (env s) then Failed else Returned code.
Proof.
  intros Es Er Hf. simpl. rewrite Es, Er.
  unfold start_end, bind.
  destruct (task_cancel_effect IN (stdin_task s) (env s)) as (k1 & es1 & E1 & F1 & _).
  rewrite E1.
  match type of E1 with _ = (_, ?w1) =>
    destruct (task_cancel_effect OUT (stdout_task s) w1) as (k2 & es2 & E2 & F2 & _) end.
  rewrite E2.
  match type of E2 with _ = (_, ?w2) =>
    destruct (task_cancel_effect ERR (stderr_task s) w2) as (k3 & es3 & E3 & F3 & _) end.
  rewrite E3. unfold close_log_file, ret. cbn [log_file stdin_closing faulty trace].
  rewrite Hf.
  assert (C : forall tr', tr' = ((trace (env s) ++ es1) ++ es2) ++ es3 ->
              close_raises {| log_file := OpenFile; stdin_closing := stdin_closing (env s);
                              faulty := faulty (env s); trace := tr' |} =
              close_raises (env s)).
  { intros tr' ->. unfold close_raises. cbn [trace faulty].
    now rewrite !unflushed_cancels. }
  rewrite (C _ eq_refl).
  destruct (close_raises (env s)); eexists; split; reflexivity.
Qed.

Lemma exit_inv_run faults ls s :
  run ls (start_begin faults) = Some s -> exit_inv ls s.
Proof.
  apply run_invariant.
  - split; [|discriminate]. intros n. simpl. split; [tauto | discriminate].
  - intros ls0 l s1 s2 _ [H1 H2] St. apply step_has_effect in St.
    destruct St as [t now r p' es Hp B Hc | code Hr | l w Hl Hlf Htr
                   | code cancels k1 k2 k3 sup Es Er Hsup Fc Hk].
    + unfold exit_inv. rewrite returncode_set_task, supervisor_set_task.
      cbn [returncode supervisor set_env].
      split; [|exact H2]. intros n. rewrite in_app_iff. simpl.
      rewrite H1. intuition discriminate.
    + cbn [returncode supervisor]. split.
      * intros n. rewrite in_app_iff. simpl. rewrite H1, Hr.
        intuition congruence.
      * intros v Hv. apply H2 in Hv. congruence.
    + cbn [returncode supervisor set_env]. split; [|exact H2].
      intros n. rewrite in_app_iff, H1. simpl.
      destruct Hl as [-> | [f ->]]; intuition discriminate.
    + cbn [returncode supervisor]. split.
      * intros n. rewrite in_app_iff, H1, Er. simpl. intuition discriminate.
      * intros v Hv. destruct Hsup as [-> | ->]; [|discriminate].
        now injection Hv as <-.
Qed.

End SupervisorFacts.

Module RelayFacts.
Import Text Clock Capture ClockSpec CaptureSpec RelaySpec TextFacts ClockFacts CaptureFacts SupervisorFacts.

Lemma reads_app t a b : reads t (a ++ b) = reads t a ++ reads t b.
Proof. apply flat_map_app. Qed.
Lemma forwarded_app t a b : forwarded t (a ++ b) = forwarded t a ++ forwarded t b.
Proof. apply flat_map_app. Qed.
Lemma records_app t a b : records t (a ++ b) = records t a ++ records t b.
Proof. apply flat_map_app. Qed.

Lemma flat_map_nil (A B : Type) (f : A -> list B) l :
  (forall x, In x l -> f x = []) -> flat_map f l = [].
Proof.
  induction l as [|a l IH]; intros H; simpl; [reflexivity|].
  rewrite (H a), IH; [reflexivity | | now left].
  intros x Hx. apply H. now right.
Qed.

(** A relay's block says nothing about the other relays. *)
Lemma block_other t t' wc now p es p' :
  block t wc now p es p' -> t' <> t ->
  reads t' es = [] /\ forwarded t' es = [] /\ records t' es = [] /\
  forall what, ~ In (LoggerError t' what) es.
Proof.
  intros B Ht.
  assert (N : tag_eqb t' t = false).
  { destruct (tag_eqb t' t) eqn:E; [|reflexivity]. apply tag_eqb_eq in E. contradiction. }
  assert (Q : forall e, In e es ->
            match e with
            | ReadLine a _ | LogWrite a _ | LogFlush a | DestWrite a _
            | DestFlush a | LoggerError a _ => a = t
            | ChildStdinClose => True
            | _ => False
            end).
  { intros e He.
    destruct (@block_events t wc now p es p' e B He)
      as [[? ->]|[[? ->]|[->|[[? ->]|[->|[[? ->]|[-> _]]]]]]]; auto. }
  repeat split.
  - apply flat_map_nil. intros e He. specialize (Q e He).
    destruct e; try reflexivity. subst t0. destruct line; [reflexivity|]. now rewrite N.
  - apply flat_map_nil. intros e He. specialize (Q e He).
    destruct e; try reflexivity. subst t0. now rewrite N.
  - apply flat_map_nil. intros e He. specialize (Q e He).
    destruct e; try reflexivity. subst t0. now rewrite N.
  - intros what He. specialize (Q _ He). cbn in Q. contradiction.
Qed.

Lemma closing_quiet t t' wc :
  reads t' (closing_events t wc) = [] /\ forwarded t' (closing_events t wc) = [] /\
  records t' (closing_events t wc) = [] /\ writes_flushed (closing_events t wc) = true /\
  logs_flushed (closing_events t wc) = true.
Proof. destruct t, wc; repeat split. Qed.

(** What a block of relay [t] reads, logs and forwards. *)
Lemma block_own t wc now p es p' :
  block t wc now p es p' ->
  (reads t es = [] /\ records t es = [] /\ forwarded t es = []) \/
  (exists line entry,
     log_entry t now line = Decoded entry /\ reads t es = [line] /\
     ((records t es = [entry] /\ forwarded t es = [line]) \/
      (p' = Finished /\ forwarded t es = [] /\
       (records t es = [] \/ records t es = [entry]) /\
       exists what, In (LoggerError t what) es))).
Proof.
  intros B. inversion B; subst; try (left; repeat split; reflexivity).
  - right. exists line, entry. split; [assumption|].
    destruct line as [|b line]; [congruence|].
    cbn. rewrite tag_eqb_refl. cbn. auto.
  - right. exists line, entry. split; [assumption|].
    destruct line as [|b line]; [congruence|].
    destruct k as [|[|[|[|[|k]]]]]; try lia;
      destruct t, wc; cbn.
    all: split; [reflexivity|].
    all: first [ left; split; reflexivity
               | right; split; [reflexivity|]; split; [reflexivity|];
                 split; [first [left; reflexivity | right; reflexivity]|];
                 exists what; simpl; tauto ].
  - left. destruct t, wc; repeat split.
  - left. destruct t, wc; repeat split.
  - left. destruct t, wc; repeat split.
Qed.


Lemma writes_flushed_app a b :
  writes_flushed a = true -> writes_flushed b = true ->
  writes_flushed (a ++ b) = true.
Proof.
  intros Ha Hb. induction a as [|e a IH]; [exact Hb|].
  destruct e; cbn [writes_flushed app] in *; auto.
  destruct a as [|e2 a]; [discriminate|].
  destruct e2; try discriminate; cbn [app];
    apply andb_true_iff in Ha; destruct Ha as [H1 H2];
    apply andb_true_iff; split; auto.
Qed.

Lemma logs_flushed_app a b :
  logs_flushed a = true -> logs_flushed b = true ->
  logs_flushed (a ++ b) = true.
Proof.
  intros Ha Hb. induction a as [|e a IH]; [exact Hb|].
  destruct e; cbn [logs_flushed app] in *; auto.
  destruct a as [|e2 a]; [discriminate|].
  destruct e2; try discriminate; cbn [app];
    apply andb_true_iff in Ha; destruct Ha as [H1 H2];
    apply andb_true_iff; split; auto.
Qed.

Lemma block_flushed t wc now p es p' :
  block t wc now p es p' -> writes_flushed es = true /\ logs_flushed es = true.
Proof.
  intros B. inversion B; subst; try (destruct t, wc; split; reflexivity).
  destruct k as [|[|[|[|[|k]]]]]; try lia; destruct t, wc; split; reflexivity.
Qed.

Lemma cancels_quiet cancels tail t :
  Forall (fun e => exists t, e = TaskCancel t) cancels ->
  tail_ok tail ->
  reads t (cancels ++ tail) = [] /\ forwarded t (cancels ++ tail) = [] /\
  records t (cancels ++ tail) = [] /\
  writes_flushed (cancels ++ tail) = true /\ logs_flushed (cancels ++ tail) = true /\
  forall t' what, ~ In (LoggerError t' what) (cancels ++ tail).
Proof.
  intros F Ht. induction F as [|e l [t0 ->] _ IH].
  - destruct Ht as [-> | ->]; cbn; intuition discriminate.
  - destruct IH as (I1 & I2 & I3 & I4 & I5 & I6). cbn [app].
    repeat split; try assumption.
    intros t' what [H|H]; [discriminate | eapply I6; eauto].
Qed.

Lemma stamped_more t (ls : list label) l stamped :
  Forall (fun nl : datetime * bytes => exists r, In (Wake t (fst nl) r) ls) stamped ->
  Forall (fun nl : datetime * bytes => exists r, In (Wake t (fst nl) r) (ls ++ [l])) stamped.
Proof.
  apply Forall_impl. intros nl [r H]. exists r. apply in_or_app. now left.
Qed.

Lemma relay_inv_run faults t ls s :
  run ls (start_begin faults) = Some s -> relay_inv t ls s.
Proof.
  apply run_invariant.
  - unfold relay_inv. cbn. repeat split; auto.
    exists []. repeat split; auto.
  - intros ls0 l s1 s2 _ (W & L & R & stamped & F2 & Fc & Hf) St.
    apply step_has_effect in St.
    destruct St as [t0 now r p' es Hp B Hc | code Hr | l w Hl Hlf Htr
                   | code cancels k1 k2 k3 sup Es Er Hsup Fc' Hk].
    + destruct (block_flushed B) as [Bw Bl].
      unfold relay_inv. rewrite env_set_task, task_of_set_task, task_of_set_env.
      cbn [env set_env after_block trace].
      rewrite reads_app, forwarded_app, records_app.
      split; [now apply writes_flushed_app|]. split; [now apply logs_flushed_app|].
      destruct (tag_eqb t0 t) eqn:E.
      * apply tag_eqb_eq in E. subst t0. cbn [at_pc].
        destruct R as [R | [R _]]; [|contradiction].
        destruct Hf as [Hf | [Hf _]]; [|contradiction].
        destruct (block_own B) as [(B1 & B2 & B3) | (line & entry & Le & B1 & Bc)].
        -- rewrite B1, B2, B3, !app_nil_r. split; [now left|].
           exists stamped. split; [exact F2|]. split; [now apply stamped_more | now left].
        -- rewrite B1. destruct Bc as [[B2 B3] | (-> & B3 & B2 & what & Hw)].
           ++ rewrite B2, B3. split; [left; now rewrite R|].
              exists (stamped ++ [(now, line)]). split; [|split].
              ** apply Forall2_app; [exact F2 | repeat constructor; exact Le].
              ** apply Forall_app. split; [now apply stamped_more|].
                 repeat constructor. exists r. apply in_or_app. right. now left.
              ** left. rewrite map_app, Hf. reflexivity.
           ++ rewrite B3, app_nil_r. split.
              ** right. split; [reflexivity|]. exists line, what.
                 split; [now rewrite R | apply in_or_app; now right].
              ** destruct B2 as [B2|B2]; rewrite B2.
                 --- exists stamped. rewrite app_nil_r.
                     split; [exact F2|]. split; [now apply stamped_more | now left].
                 --- exists (stamped ++ [(now, line)]). split; [|split].
                     +++ apply Forall2_app; [exact F2 | repeat constructor; exact Le].
                     +++ apply Forall_app. split; [now apply stamped_more|].
                         repeat constructor. exists r. apply in_or_app. right. now left.
                     +++ right. split; [reflexivity|]. exists line.
                         rewrite map_app, Hf. reflexivity.
      * assert (Ht : t <> t0).
        { intros ->. now rewrite tag_eqb_refl in E. }
        destruct (block_other B Ht) as (B1 & B2 & B3 & B4).
        rewrite B1, B2, B3, !app_nil_r. split.
        -- destruct R as [R | (R1 & l' & what & R2 & R3)]; [now left|].
           right. split; [exact R1|]. exists l', what. split; [exact R2|].
           apply in_or_app. now left.
        -- exists stamped. split; [exact F2|]. split; [now apply stamped_more | exact Hf].
    + unfold relay_inv. cbn [env trace].
      match goal with |- context [task_of t ?x] =>
        replace (task_of t x) with (task_of t s1) by (destruct t; reflexivity) end.
      repeat split; auto. exists stamped. split; [exact F2|].
      split; [now apply stamped_more | exact Hf].
    + unfold relay_inv. cbn [env set_env]. rewrite task_of_set_env, Htr.
      repeat split; auto. exists stamped. split; [exact F2|].
      split; [now apply stamped_more | exact Hf].
    + unfold relay_inv. cbn [env trace].
      assert (Ht : tail_ok (match log_file (env s1) with NoFile => [] | _ => [LogClose] end)).
      { destruct (log_file (env s1)); [left | right | right]; reflexivity. }
      destruct (cancels_quiet t Fc' Ht) as (Q1 & Q2 & Q3 & Q4 & Q5 & Q6).
      rewrite reads_app, forwarded_app, records_app, Q1, Q2, Q3, !app_nil_r.
      match goal with |- context [task_of t ?x] =>
        assert (Hpc : at_pc (task_of t x) = at_pc (task_of t s1)) end.
      { destruct t; cbn [task_of stdin_task stdout_task stderr_task].
        - destruct (Hk IN (stdin_task s1) k1) as [E _]; auto.
        - destruct (Hk OUT (stdout_task s1) k2) as [E _]; auto.
        - destruct (Hk ERR (stderr_task s1) k3) as [E _]; auto. }
      rewrite Hpc.
      split; [now apply writes_flushed_app|]. split; [now apply logs_flushed_app|].
      split.
      * destruct R as [R | (R1 & l' & what & R2 & R3)]; [now left|].
        right. split; [exact R1|]. exists l', what. split; [exact R2|].
        apply in_or_app. now left.
      * exists stamped. split; [exact F2|]. split; [now apply stamped_more|].
        exact Hf.
Qed.

(** *** The lines read are the lines delivered *)

Lemma delivered_snoc t ls l s0 s :
  run ls s0 = Some s ->
  delivered t (ls ++ [l]) s0 =
    delivered t ls s0 ++
    match step l s with Some _ => handed_line t l s | None => [] end.
Proof.
  revert s0. induction ls as [|l0 ls IH]; intros s0 Hr.
  - injection Hr as Hr. subst s0. cbn [app delivered].
    destruct (step l s); [|reflexivity]. now rewrite app_nil_r.
  - cbn [run] in Hr. cbn [app delivered].
    destruct (step l0 s0) as [s1|]; [|discriminate].
    rewrite (IH s1 Hr). now rewrite app_assoc.
Qed.

(** A relay records the read of exactly the line it is handed. *)
Lemma wake_reads t t' k now r w :
  at_pc k <> Finished ->
  reads t (trace (snd (wake t' k now r w))) =
    reads t (trace w) ++
    match r with
    | Value (b :: line) =>
        if tag_eqb t t' then
          match at_pc k, must_cancel k with
          | AtReadline, false => [b :: line]
          | _, _ => []
          end
        else []
    | _ => []
    end.
Proof.
  intros Hk. destruct k as [p c]. cbn [at_pc must_cancel] in *.
  destruct w as [lf sc fl tr]. unfold wake. cbn [at_pc must_cancel].
  destruct c;
    (destruct r as [[|b line]|[|what]];
     [ | destruct (log_entry_total t' now (b :: line)) as (text & entry & _ & _ & E) | | ]);
    destruct p; try congruence;
    destruct t', sc; unfold_relay; cbn [log_file stdin_closing faulty trace];
    try rewrite E;
    try (destruct lf; cbn [log_file stdin_closing faulty trace]);
    repeat match goal with
           | |- context [if fl ?op then _ else _] =>
               destruct (fl op) eqn:?; cbn [log_file stdin_closing faulty trace]
           end;
    cbn [snd trace]; rewrite ?reads_app; cbn [reads flat_map app];
    destruct t; cbn [tag_eqb app]; rewrite ?app_nil_r; reflexivity.
Qed.

Lemma step_reads t l s s' :
  step l s = Some s' ->
  reads t (trace (env s')) = reads t (trace (env s)) ++ handed_line t l s.
Proof.
  destruct l as [t' now r | code | | f |]; intros St.
  - cbn [step] in St.
    assert (Hp : at_pc (task_of t' s) <> Finished).
    { intros H. rewrite H in St. discriminate. }
    assert (Ee : env s' = snd (wake t' (task_of t' s) now r (env s))).
    { destruct (at_pc (task_of t' s)); try congruence;
        destruct (wake t' (task_of t' s) now r (env s)) as [[k|e] w];
        injection St as <-; now rewrite env_set_task. }
    rewrite Ee, (wake_reads t t' _ now r (env s) Hp).
    f_equal. unfold handed_line. destruct r as [[|b line]|e]; try reflexivity.
    destruct (tag_eqb t t') eqn:E; [|reflexivity].
    apply tag_eqb_eq in E. now subst t'.
  - cbn [step] in St. destruct (returncode s); [discriminate|].
    injection St as <-. cbn. now rewrite app_nil_r.
  - cbn [step] in St. injection St as <-. cbn. now rewrite app_nil_r.
  - cbn [step] in St. injection St as <-. cbn. now rewrite app_nil_r.
  - apply step_has_effect in St.
    inversion St as [ | | ? w [E | [f E]] | code cancels k1 k2 k3 sup Es Er Hsup Fc Hk];
      subst; try discriminate.
    cbn [env trace handed_line]. rewrite app_nil_r, reads_app.
    assert (T : tail_ok (match log_file (env s) with NoFile => [] | _ => [LogClose] end))
      by (destruct (log_file (env s)); [left | right | right]; reflexivity).
    destruct (cancels_quiet t Fc T) as (-> & _). apply app_nil_r.
Qed.

(** In every session a relay has read the lines its source delivered to
    it, and no other. *)
Lemma reads_delivered t ls s0 s :
  trace (env s0) = [] ->
  run ls s0 = Some s -> reads t (trace (env s)) = delivered t ls s0.
Proof.
  intros H0. revert s.
  apply (@run_invariant (fun ls s => reads t (trace (env s)) = delivered t ls s0)).
  - now rewrite H0.
  - intros ls0 l s1 s2 Hr IH St.
    rewrite (@delivered_snoc t ls0 l s0 s1 Hr), St, (@step_reads t l s1 s2 St), IH. reflexivity.
Qed.

End RelayFacts.

Module Claims.
Import Text Clock Capture ClockSpec CaptureSpec RelaySpec Demo Samples.
Import TextFacts ClockFacts CaptureFacts SupervisorFacts RelayFacts.

Lemma demo_runs : run demo_schedule (start_begin no_faults) = Some demo_session.
Proof. vm_compute. reflexivity. Qed.


Lemma clocks_ok_in ls t now r :
  clocks_ok ls = true -> In (Wake t now r) ls -> 1000 <= year now.
Proof.
  unfold clocks_ok. rewrite forallb_forall. intros H Hin.
  specialize (H _ Hin). cbn in H. now apply N.leb_le.
Qed.

Lemma log_entry_format t now line entry :
  1000 <= year now -> log_entry t now line = Decoded entry ->
  transcript_record t now line entry.
Proof.
  intros Hy E. unfold log_entry in E.
  destruct (utf8_decode Replace line) as [text|] eqn:D; [|discriminate].
  exists text. split; [exact D|].
  rewrite <- (timestamp_iso_millis now Hy). exact E.
Qed.

(** C1. In every session, [start] closes the transcript log file once it
    returns and never twice, and after the close no relay appends a record
    or even tries to: all that can follow the close in the trace is the
    stdin relay closing the child's stdin. *)
Theorem C1_log_closed_once_after_relays faults ls s :
  run ls (start_begin faults) = Some s ->
  (forall pre post,
     trace (env s) = pre ++ LogClose :: post ->
     ~ In LogClose pre /\ Forall (fun e => e = ChildStdinClose) post) /\
  (forall code,
     supervisor s = Returned code ->
     log_file (env s) = ClosedFile /\
     List.length (filter is_log_close (trace (env s))) = 1%nat) /\
  (supervisor s = AwaitingExit ->
   log_file (env s) = OpenFile /\ filter is_log_close (trace (env s)) = []).
Proof.
  intros Hr. destruct (@sink_inv_run faults ls s Hr) as [_ H].
  destruct (supervisor s) eqn:Es.
  - destruct H as [Hf Hn]. split; [|split].
    + intros pre post E. exfalso. apply Hn. rewrite E. apply in_elt.
    + discriminate.
    + intros _. split; [exact Hf|].
      induction (trace (env s)) as [|a tr IH]; [reflexivity|]. simpl.
      destruct a; simpl; try (apply IH; intros Hin; apply Hn; now right).
      exfalso. apply Hn. now left.
  - destruct H as (Hf & _ & pre & post & E & Hn & Hp). split; [|split].
    + intros pre' post' E'. rewrite E in E'.
      destruct (@cut_at_close pre post pre' post' E' Hn Hp) as [-> ->]. now split.
    + intros c _. split; [exact Hf|]. rewrite E. now apply count_close_cut.
    + discriminate.
  - destruct H as (Hf & _ & pre & post & E & Hn & Hp). split; [|split].
    + intros pre' post' E'. rewrite E in E'.
      destruct (@cut_at_close pre post pre' post' E' Hn Hp) as [-> ->]. now split.
    + discriminate.
    + discriminate.
Qed.


Lemma failed_close_runs :
  run failed_close_schedule (start_begin log_flush_fails) = Some failed_close_session.
Proof. vm_compute. reflexivity. Qed.

Lemma lost_line_runs :
  run lost_line_schedule (start_begin log_write_fails) = Some lost_line_session.
Proof. vm_compute. reflexivity. Qed.

(** C2, as stated, fails: the child prints a line and exits with code 0
    while the log cannot be flushed; the record stays in the buffer, the
    close of the log file raises, [start] returns nothing and the capture
    process ends with the exit code 1. *)
Lemma C2_counterexample :
  run failed_close_schedule (start_begin log_flush_fails) = Some failed_close_session /\
  In (ChildExits 0) failed_close_schedule /\
  returncode failed_close_session = Some 0%Z /\
  supervisor failed_close_session = Failed /\
  exit_code failed_close_session = Some 1%Z.
Proof.
  split; [exact failed_close_runs|]. split; [cbn; tauto|]. repeat split.
Qed.

(** C2. When the child has ended with the return code [n]: if [start]
    has returned, it returned [n], and the exit code of the capture
    process is [n mod 256], which is [n] for an exit code from 0 to 255;
    and when [start] is resumed it returns [n], unless the close of the
    log file raises: then [start] returns nothing and the exit code of
    the capture process is 1. *)
Theorem C2_exit_code_is_childs faults ls s n :
  run ls (start_begin faults) = Some s ->
  In (ChildExits n) ls ->
  (forall code,
     supervisor s = Returned code ->
     code = n /\ exit_code s = Some (n mod 256)%Z /\
     ((0 <= n <= 255)%Z -> exit_code s = Some n)) /\
  (supervisor s = AwaitingExit ->
   exists s',
     run (ls ++ [SupervisorResumes]) (start_begin faults) = Some s' /\
     if close_raises (env s)
     then supervisor s' = Failed /\ exit_code s' = Some 1%Z
     else supervisor s' = Returned n /\ exit_code s' = Some (n mod 256)%Z /\
          ((0 <= n <= 255)%Z -> exit_code s' = Some n)).
Proof.
  intros Hr Hin. destruct (@exit_inv_run faults ls s Hr) as [H1 H2].
  apply H1 in Hin.
  assert (X : forall s1, supervisor s1 = Returned n ->
              exit_code s1 = Some (n mod 256)%Z /\
              ((0 <= n <= 255)%Z -> exit_code s1 = Some n)).
  { intros s1 E. unfold exit_code, exit_status. rewrite E. split; [reflexivity|].
    intros Hn. now rewrite Z.mod_small by lia. }
  split.
  - intros code Es. specialize (H2 _ Es).
    assert (code = n) as -> by congruence. split; [reflexivity | now apply X].
  - intros Es. destruct (@sink_inv_run faults ls s Hr) as [_ Hs].
    rewrite Es in Hs. destruct Hs as [Hf _].
    destruct (supervisor_resumes s Es Hin Hf) as (s' & St & Ex).
    exists s'. split; [rewrite run_app, Hr; cbn [run]; now rewrite St|].
    destruct (close_raises (env s)).
    + split; [exact Ex|]. unfold exit_code. now rewrite Ex.
    + split; [exact Ex | now apply X].
Qed.

Lemma C1_witness :
  run demo_schedule (start_begin no_faults) = Some demo_session /\
  List.length (filter is_log_close (trace (env demo_session))) = 1%nat.
Proof.
  split; [exact demo_runs|].
  exact (proj2 (proj1 (proj2 (@C1_log_closed_once_after_relays no_faults demo_schedule
                                 demo_session demo_runs)) 3%Z eq_refl)).
Defined.

Lemma C2_witness :
  run demo_schedule (start_begin no_faults) = Some demo_session /\
  In (ChildExits 3) demo_schedule /\
  supervisor demo_session = Returned 3 /\
  exit_code demo_session = Some 3%Z.
Proof.
  split; [exact demo_runs|]. split; [cbn; tauto|]. split; [reflexivity|].
  refine (proj2 (proj2 (proj1 (@C2_exit_code_is_childs no_faults demo_schedule
                                 demo_session 3%Z demo_runs _) 3%Z eq_refl)) _).
  - cbn. tauto.
  - lia.
Defined.

(** C3, as stated, fails: the stdout relay is handed the line [hello]
    while the log cannot be written; the relay has read the line, reports
    the error and stops, and nothing is written to the parent's stdout. *)
Lemma C3_counterexample :
  run lost_line_schedule (start_begin log_write_fails) = Some lost_line_session /\
  delivered OUT lost_line_schedule (start_begin log_write_fails) = [hello] /\
  reads OUT (trace (env lost_line_session)) = [hello] /\
  forwarded OUT (trace (env lost_line_session)) = [] /\
  at_pc (stdout_task lost_line_session) = Finished.
Proof.
  split; [exact lost_line_runs|]. repeat split; vm_compute; reflexivity.
Qed.

(** C3. In every session and for each relay, the lines the relay has
    read are the lines its source delivered to it, and the lines written
    to its destination are these lines, the very bytes and in the same
    order, each write directly followed by the flush of the destination
    (the call of [drain] for the child's stdin).  The one exception is
    the last line delivered to a relay that an error stopped while it
    handled that line, the error being reported: that line is missing
    from the destination, or is written there and followed by the report
    of the error in place of the flush. *)
Theorem C3_relay_forwards_raw_lines faults ls s t :
  run ls (start_begin faults) = Some s ->
  reads t (trace (env s)) = delivered t ls (start_begin faults) /\
  (forwarded t (trace (env s)) = delivered t ls (start_begin faults) \/
   (at_pc (task_of t s) = Finished /\
    exists l what,
      delivered t ls (start_begin faults) = forwarded t (trace (env s)) ++ [l] /\
      In (LoggerError t what) (trace (env s)))) /\
  writes_flushed (trace (env s)) = true.
Proof.
  intros Hr. destruct (@relay_inv_run faults t ls s Hr) as (W & _ & R & _).
  assert (D : reads t (trace (env s)) = delivered t ls (start_begin faults))
    by (apply reads_delivered; [reflexivity | exact Hr]).
  rewrite <- D. split; [reflexivity|]. split; [exact R | exact W].
Qed.

Lemma C3_witness :
  run demo_schedule (start_begin no_faults) = Some demo_session /\
  delivered OUT demo_schedule (start_begin no_faults) = [hello] /\
  forwarded OUT demo_trace = [hello] /\ reads OUT demo_trace = [hello] /\
  writes_flushed (trace (env demo_session)) = true.
Proof.
  split; [exact demo_runs|].
  split; [vm_compute; reflexivity|].
  split; [reflexivity|]. split; [reflexivity|].
  exact (proj2 (proj2 (@C3_relay_forwards_raw_lines no_faults demo_schedule demo_session OUT demo_runs))).
Defined.

(** C4. In every session whose clock shows four-digit years, the records
    relay [t] wrote to the log are, one for one and in order, the
    transcript records of the lines it forwarded, in the format
    [[YYYY-MM-DD HH:MM:SS.mmm] TAG: content] with a newline, [TAG] being
    [IN] for the stdin relay, [OUT] for stdout and [ERR] for stderr; only
    the last record may be of a line that an I/O error kept from being
    forwarded. Each record written is directly followed by the flush of
    the log file. *)
Theorem C4_one_record_per_forwarded_line faults ls s t :
  clocks_ok ls = true ->
  run ls (start_begin faults) = Some s ->
  (exists stamped,
     Forall2 (fun nl e => transcript_record t (fst nl) (snd nl) e)
             stamped (records t (trace (env s))) /\
     (forwarded t (trace (env s)) = map snd stamped \/
      exists l, map snd stamped = forwarded t (trace (env s)) ++ [l])) /\
  logs_flushed (trace (env s)) = true /\
  tag_name IN = lit "IN" /\ tag_name OUT = lit "OUT" /\ tag_name ERR = lit "ERR".
Proof.
  intros Hc Hr.
  destruct (@relay_inv_run faults t ls s Hr) as (_ & L & _ & stamped & F2 & Fc & Hf).
  split; [|repeat split; exact L].
  exists stamped. split.
  - clear Hf. revert F2 Fc. generalize (records t (trace (env s))) as rs.
    induction stamped as [|nl stamped IH]; intros rs F2 Fc.
    + inversion F2. constructor.
    + inversion F2 as [|? e ? rs' He F2']. subst.
      inversion Fc as [|? ? [r Hin] Fc']. subst.
      constructor; [|now apply IH].
      apply log_entry_format; [|exact He].
      eapply clocks_ok_in; eauto.
  - destruct Hf as [Hf | (_ & l & Hf)]; [now left | right; eauto].
Qed.

Lemma C4_witness :
  clocks_ok demo_schedule = true /\
  run demo_schedule (start_begin no_faults) = Some demo_session /\
  records OUT demo_trace = [blit "[2024-01-01 00:00:00.000] OUT: hello" ++ [x0a]] /\
  logs_flushed (trace (env demo_session)) = true.
Proof.
  split; [reflexivity|]. split; [exact demo_runs|]. split; [reflexivity|].
  exact (proj1 (proj2 (@C4_one_record_per_forwarded_line no_faults demo_schedule
                         demo_session OUT eq_refl demo_runs))).
Defined.

(** C8. Building a transcript record never fails, whatever bytes were
    read: decoding with [errors='replace'] always yields text, made of
    Unicode scalar values, so encoding the record succeeds too and the
    [log_entry] expression raises nothing; strict decoding, by contrast,
    does raise on bytes that are not UTF-8. *)
Theorem C8_record_construction_never_fails t now line w :
  (exists text,
     utf8_decode Replace line = Decoded text /\
     Forall (fun c => is_scalar c = true) text) /\
  (exists entry,
     log_entry t now line = Decoded entry /\
     build_log_entry t now line w = (Ok entry, w)) /\
  utf8_decode Strict [xff] = UnicodeError.
Proof.
  split; [apply utf8_decode_replace_scalar|]. split; [|reflexivity].
  destruct (log_entry_total t now line) as (text & entry & _ & _ & E).
  exists entry. split; [exact E|]. unfold build_log_entry. now rewrite E.
Qed.

(** C9. When the stdin relay reads end-of-stream, its loop stops, nothing
    is logged or forwarded, and the child's stdin is closed: by the relay,
    unless it was closing already. *)
Theorem C9_stdin_eof_closes_child_stdin now w :
  exists w',
    handle_stdin AtReadline now (Value []) w = (Ok Finished, w') /\
    stdin_closing w' = true /\
    trace w' = trace w ++ ReadLine IN [] ::
                 (if stdin_closing w then [] else [ChildStdinClose]) /\
    log_file w' = log_file w.
Proof.
  destruct w as [lf sc fl tr]. destruct sc; eexists; (split; [reflexivity|]);
    cbn; rewrite <- ?app_assoc; auto.
Qed.

(** C10. The content of the record logged for a line is the line decoded
    with replacement and stripped of all its trailing whitespace (newline,
    carriage return, space and tab among it), so that it is empty for a
    line of whitespace only, while the bytes forwarded to the destination
    are the line as it was read. *)
Theorem C10_record_content_is_rstripped t now line w :
  line <> [] -> log_file w = OpenFile -> (forall op, faulty w op = false) ->
  exists text entry ws,
    utf8_decode Replace line = Decoded text /\
    text = rstrip text ++ ws /\ Forall (fun c => isspace c = true) ws /\
    (rstrip text = [] \/ isspace (last (rstrip text) 0) = false) /\
    (Forall (fun c => isspace c = true) text -> rstrip text = []) /\
    (isspace 10 = true /\ isspace 13 = true /\ isspace 32 = true /\ isspace 9 = true) /\
    utf8_encode (record_text t (timestamp now) (rstrip text)) = Decoded entry /\
    try_except t (iteration t now (Value line)) w =
      (Ok (Some (next_pc t)),
       after_block w [ReadLine t line; LogWrite t entry; LogFlush t;
                      DestWrite t line; DestFlush t]).
Proof.
  intros Hl Hf Hq.
  destruct (log_entry_total t now line) as (text & entry & D & E & L).
  destruct (rstrip_split text) as (ws & Hs & Hws).
  exists text, entry, ws. split; [exact D|]. split; [exact Hs|]. split; [exact Hws|].
  split.
  { destruct (rstrip text) eqn:R; [now left | right].
    rewrite <- R. apply rstrip_nonempty_last. congruence. }
  split; [apply rstrip_all_space|]. split; [repeat split|]. split; [exact E|].
  destruct w as [lf sc fl tr]. cbn [log_file faulty] in *. subst lf.
  destruct line as [|b line]; [congruence|].
  unfold_relay. rewrite L. cbn [log_file stdin_closing faulty trace].
  destruct t; rewrite ?Hq; cbn [log_file stdin_closing faulty trace];
    rewrite ?Hq; cbn [log_file stdin_closing faulty trace];
    unfold after_block; cbn; rewrite <- ?app_assoc, ?orb_false_r; reflexivity.
Qed.

Lemma C10_witness :
  blank_line <> [] /\
  log_entry OUT new_year blank_line =
    Decoded (blit "[2024-01-01 00:00:00.000] OUT: " ++ [x0a]) /\
  exists text entry,
    utf8_decode Replace blank_line = Decoded text /\
    utf8_encode (record_text OUT (timestamp new_year) (rstrip text)) = Decoded entry.
Proof.
  split; [discriminate|]. split; [reflexivity|].
  destruct (@C10_record_content_is_rstripped OUT new_year blank_line
              (env (start_begin no_faults))
              ltac:(discriminate) eq_refl (fun _ => eq_refl))
    as (text & entry & ws & D & _ & _ & _ & _ & _ & E & _).
  exists text, entry. split; [exact D | exact E].
Defined.

End Claims.

Module RegexFacts.
Import Text Clock Capture Regex Formatter ClockSpec FormatterSpec TextFacts ClockFacts.

Lemma strip_prefix_app p rest : strip_prefix p (p ++ rest) = Some rest.
Proof.
  induction p as [|a p IH]; simpl; [reflexivity|]. now rewrite N.eqb_refl.
Qed.

Lemma strip_prefix_some p s rest : strip_prefix p s = Some rest -> s = p ++ rest.
Proof.
  revert s. induction p as [|a p IH]; intros s; simpl.
  - now intros [= ->].
  - destruct s as [|b s]; [discriminate|].
    destruct (a =? b) eqn:E; [|discriminate].
    apply N.eqb_eq in E. subst b. intros H. now rewrite (IH _ H).
Qed.

Lemma exact_lit p : exact (Lit p) p.
Proof. intros rest. simpl. now rewrite strip_prefix_app. Qed.

Lemma stable_lit p : stable (Lit p).
Proof.
  intros s. simpl. destruct (strip_prefix p s) as [rest|] eqn:E; [right | now left].
  exists p, rest. split; [now apply strip_prefix_some | apply exact_lit].
Qed.

Lemma exact_seq r1 r2 a b : exact r1 a -> exact r2 b -> exact (Seq r1 r2) (a ++ b).
Proof.
  intros H1 H2 rest. simpl. rewrite <- app_assoc, H1. unfold then_. simpl.
  rewrite H2. reflexivity.
Qed.

Lemma stable_seq r1 r2 : stable r1 -> stable r2 -> stable (Seq r1 r2).
Proof.
  intros H1 H2 s. simpl.
  destruct (H1 s) as [E | (a & rest & -> & Ha)].
  - left. now rewrite E.
  - rewrite Ha. unfold then_. simpl. rewrite app_nil_r.
    destruct (H2 rest) as [E | (b & rest2 & -> & Hb)].
    + left. now rewrite E.
    + right. exists (a ++ b), rest2. split; [now rewrite app_assoc|].
      now apply exact_seq.
Qed.

Lemma matches_rep_S n r s :
  matches (Rep (S n) r) s = then_ (matches r s) (matches (Rep n r)).
Proof. reflexivity. Qed.

Lemma matches_digit_cons c s :
  matches Digit (c :: s) = if isdecimal c then [([c], s)] else [].
Proof. reflexivity. Qed.

Lemma then_one a rest next :
  then_ [(a, rest)] next = map (fun br => (a ++ fst br, snd br)) (next rest).
Proof. unfold then_. simpl. apply app_nil_r. Qed.

Lemma exact_rep_digit ds : Forall (fun c => isdecimal c = true) ds ->
  exact (Rep (List.length ds) Digit) ds.
Proof.
  induction 1 as [|c ds Hc _ IH]; intros rest.
  - reflexivity.
  - cbn [List.length app]. rewrite matches_rep_S, matches_digit_cons, Hc, then_one, IH.
    reflexivity.
Qed.

Lemma stable_rep_digit n : stable (Rep n Digit).
Proof.
  induction n as [|n IH]; intros s.
  - right. exists [], s. split; [reflexivity|]. intros rest. reflexivity.
  - rewrite matches_rep_S.
    destruct s as [|c s]; [now left|].
    rewrite matches_digit_cons.
    destruct (isdecimal c) eqn:Ec; [|now left].
    rewrite then_one.
    destruct (IH s) as [E | (a & rest & -> & Ha)].
    + left. now rewrite E.
    + right. exists (c :: a), rest. split; [reflexivity|].
      intros rest'. cbn [app].
      rewrite matches_rep_S, matches_digit_cons, Ec, then_one, Ha. reflexivity.
Qed.

Lemma exact_digit_run n ds : digit_run n ds -> exact (Rep n Digit) ds.
Proof. intros [<- H]. now apply exact_rep_digit. Qed.

Lemma exact_tag t : t <> ERR -> exact (Alt (Lit (lit "IN")) (Lit (lit "OUT"))) (tag_name t).
Proof. intros Ht rest. destruct t; [reflexivity | reflexivity | congruence]. Qed.

Lemma stable_tag : stable (Alt (Lit (lit "IN")) (Lit (lit "OUT"))).
Proof.
  intros s. cbn [matches].
  destruct (strip_prefix (lit "IN") s) as [rest|] eqn:E1.
  - right. apply strip_prefix_some in E1. subst s.
    exists (lit "IN"), rest. split; [reflexivity|]. apply (@exact_tag IN). discriminate.
  - destruct (strip_prefix (lit "OUT") s) as [rest|] eqn:E2; [right | now left].
    apply strip_prefix_some in E2. subst s.
    exists (lit "OUT"), rest. split; [reflexivity|]. apply (@exact_tag OUT). discriminate.
Qed.

Lemma stable_pattern_prefix : stable pattern_prefix.
Proof.
  unfold pattern_prefix, d.
  repeat first [ apply stable_seq | apply stable_lit | apply stable_rep_digit
               | apply stable_tag ].
Qed.

(** The pattern's first group takes the bracketed timestamp and the tag
    of an [IN] or [OUT] line, exactly. *)
Lemma exact_pattern_prefix t ts :
  t <> ERR -> shaped_timestamp ts -> exact pattern_prefix (line_prefix t ts).
Proof.
  intros Ht (y & mo & dd & h & mi & s & ms & -> & Hy & Hmo & Hd & Hh & Hmi & Hs & Hms).
  unfold pattern_prefix, line_prefix, d.
  repeat rewrite <- app_assoc.
  repeat (apply exact_seq;
          [first [apply exact_lit | now apply exact_digit_run | now apply exact_tag]|]).
  apply exact_lit.
Qed.

Lemma seq_exact_then r1 r2 a s :
  exact r1 a ->
  matches (Seq r1 r2) (a ++ s) = map (fun br => (a ++ fst br, snd br)) (matches r2 s).
Proof. intros H. cbn [matches]. now rewrite H, then_one. Qed.

Lemma seq_exact_nil r1 r2 a s :
  exact r1 a -> matches r2 s = [] -> matches (Seq r1 r2) (a ++ s) = [].
Proof. intros H E. now rewrite seq_exact_then, E. Qed.

(** An [ERR] line is not matched: the pattern offers [IN] and [OUT] only. *)
Lemma err_line_unmatched ts rest :
  shaped_timestamp ts -> matches pattern_prefix (line_prefix ERR ts ++ rest) = [].
Proof.
  intros (y & mo & dd & h & mi & s & ms & -> & Hy & Hmo & Hd & Hh & Hmi & Hs & Hms).
  unfold pattern_prefix, line_prefix, d, tag_name.
  repeat rewrite <- app_assoc.
  repeat (apply seq_exact_nil;
          [first [apply exact_lit | now apply exact_digit_run]|]).
  reflexivity.
Qed.


(** *** The second group, [.+] *)

Lemma plus_dot_cons fuel c s :
  not_newline c = true ->
  plus_of (matches Dot) (S fuel) (c :: s) =
  map (fun br => (c :: fst br, snd br)) (plus_of (matches Dot) fuel s) ++ [([c], s)].
Proof.
  intros H. cbn [plus_of matches one_char]. fold (not_newline c). rewrite H.
  cbn [flat_map fst snd List.length]. rewrite app_nil_r.
  assert ((List.length s <? S (List.length s))%nat = true) as ->
    by (apply Nat.ltb_lt; lia).
  reflexivity.
Qed.

Lemma plus_dot_stop fuel s :
  match s with [] => True | c :: _ => not_newline c = false end ->
  plus_of (matches Dot) fuel s = [].
Proof.
  destruct fuel; [reflexivity|]. destruct s as [|c s]; [reflexivity|].
  intros H. cbn [plus_of matches one_char]. fold (not_newline c). now rewrite H.
Qed.

Lemma span_nil (p : N -> bool) s rest : Json.span p s = ([], rest) -> rest = s.
Proof.
  destruct s as [|c s]; cbn [Json.span]; [now intros [= <-]|].
  destruct (p c); [|now intros [= <-]].
  destruct (Json.span p s). discriminate.
Qed.

(** The greedy [.+] first takes all there is up to the end of the line. *)
Lemma plus_dot_head s fuel :
  (List.length s < fuel)%nat ->
  hd_error (plus_of (matches Dot) fuel s) =
  match Json.span not_newline s with
  | ([], _) => None
  | (a, rest) => Some (a, rest)
  end.
Proof.
  revert fuel. induction s as [|c s IH]; intros fuel Hf.
  - now rewrite plus_dot_stop.
  - cbn [Json.span]. destruct (not_newline c) eqn:Ec.
    + destruct fuel as [|fuel]; [simpl in Hf; lia|].
      rewrite plus_dot_cons by exact Ec.
      specialize (IH fuel ltac:(simpl in Hf; lia)).
      destruct (Json.span not_newline s) as [a rest] eqn:Es.
      destruct (plus_of (matches Dot) fuel s) as [|[x y] l].
      * destruct a; [|discriminate]. apply span_nil in Es. now subst rest.
      * cbn in IH |- *. destruct a; [discriminate|]. now injection IH as -> ->.
    + now rewrite plus_dot_stop.
Qed.

(** [re.match(pattern, line)]: the first group matches in the one way it
    can, and the second takes the rest of the line. *)
Lemma match_groups_spec s :
  match_groups pattern_prefix pattern_json s =
  match matches pattern_prefix s with
  | (p, rest) :: _ =>
      match Json.span not_newline rest with
      | ([], _) => None
      | (a, _) => Some (p, a)
      end
  | [] => None
  end.
Proof.
  unfold match_groups.
  destruct (stable_pattern_prefix s) as [E | (p & rest & -> & Hp)].
  - now rewrite E.
  - rewrite Hp. cbn [flat_map fst snd]. rewrite app_nil_r.
    unfold pattern_json.
    change (matches (Plus Dot) rest)
      with (plus_of (matches Dot) (S (List.length rest)) rest).
    pose proof (@plus_dot_head rest (S (List.length rest)) ltac:(lia)) as H.
    destruct (plus_of (matches Dot) (S (List.length rest)) rest) as [|[x y] l];
      destruct (Json.span not_newline rest) as [[|a0 a] r]; cbn in H |- *;
      try discriminate; try reflexivity.
    injection H as H1 H2. now rewrite H1.
Qed.

Lemma span_app_stop (p : N -> bool) a c rest :
  Forall (fun x => p x = true) a -> p c = false ->
  Json.span p (a ++ c :: rest) = (a, c :: rest).
Proof.
  intros Ha Hc. induction Ha as [|x a Hx _ IH]; cbn [Json.span app].
  - now rewrite Hc.
  - now rewrite Hx, IH.
Qed.

Lemma span_all (p : N -> bool) a :
  Forall (fun x => p x = true) a -> Json.span p a = (a, []).
Proof.
  induction 1 as [|x a Hx _ IH]; cbn [Json.span]; [reflexivity|].
  now rewrite Hx, IH.
Qed.

(** A line that starts with what the first group matches, goes on with
    [content] and ends there or at a newline. *)
Lemma match_groups_line p content tail :
  exact pattern_prefix p -> content <> [] ->
  Forall (fun c => not_newline c = true) content ->
  tail = [] \/ (exists tail', tail = 10 :: tail') ->
  match_groups pattern_prefix pattern_json (p ++ content ++ tail) = Some (p, content).
Proof.
  intros Hp Hc Hn Ht. rewrite match_groups_spec, Hp.
  assert (E : Json.span not_newline (content ++ tail) = (content, tail)).
  { destruct Ht as [-> | [tail' ->]].
    - rewrite app_nil_r. now apply span_all.
    - now apply span_app_stop. }
  rewrite E. destruct content; [congruence | reflexivity].
Qed.

(** A line that does not start with a bracket is not matched. *)
Lemma unmatched_start c s :
  c <> 91 -> match_groups pattern_prefix pattern_json (c :: s) = None.
Proof.
  intros Hc. rewrite match_groups_spec.
  assert (matches pattern_prefix (c :: s) = []) as ->; [|reflexivity].
  unfold pattern_prefix. cbn [matches lit strip_prefix].
  assert ((N_of_ascii "[" =? c) = false) as ->; [|reflexivity].
  apply N.eqb_neq. cbn. congruence.
Qed.

(** What the pattern matches of a line is a prefix of it that any other
    continuation would be matched with as well. *)
Lemma match_groups_some s p a :
  match_groups pattern_prefix pattern_json s = Some (p, a) ->
  exact pattern_prefix p /\ a <> [] /\ Forall (fun c => not_newline c = true) a /\
  exists tail, s = p ++ a ++ tail /\ (tail = [] \/ exists tail', tail = 10 :: tail').
Proof.
  rewrite match_groups_spec.
  destruct (stable_pattern_prefix s) as [E | (p' & rest & -> & Hp)].
  - rewrite E. discriminate.
  - rewrite Hp.
    assert (S : forall l, exists a tail,
                Json.span not_newline l = (a, tail) /\ l = a ++ tail /\
                Forall (fun c => not_newline c = true) a /\
                (tail = [] \/ exists tail', tail = 10 :: tail')).
    { induction l as [|c l (a' & tail & E1 & E2 & E3 & E4)]; cbn [Json.span].
      - exists [], []. auto.
      - destruct (not_newline c) eqn:Ec.
        + rewrite E1. exists (c :: a'), tail. subst l. auto.
        + exists [], (c :: l). repeat split; auto. right. exists l.
          unfold not_newline in Ec. apply negb_false_iff, N.eqb_eq in Ec. now subst c. }
    destruct (S rest) as (a' & tail & E1 & E2 & E3 & E4). rewrite E1.
    destruct a' as [|x a']; [discriminate|]. intros [= <- <-].
    split; [exact Hp|]. split; [discriminate|]. split; [exact E3|].
    exists tail. now rewrite E2.
Qed.

End RegexFacts.

Module JsonFacts.
Import Text Regex PyFloat Json Formatter FormatterSpec TextFacts ClockFacts RegexFacts.

(** *** Decimal digits *)

Lemma digits_fuel_acc fuel n acc :
  digits_fuel fuel n acc = digits_fuel fuel n [] ++ acc.
Proof.
  revert n acc. induction fuel as [|fuel IH]; intros n acc; cbn [digits_fuel].
  - reflexivity.
  - destruct (n / 10 =? 0); [reflexivity|].
    rewrite (IH (n / 10) (n mod 10 :: acc)), (IH (n / 10) [n mod 10]).
    now rewrite <- app_assoc.
Qed.

Lemma digits_fuel_S fuel n acc :
  digits_fuel (S fuel) n acc =
  if n / 10 =? 0 then n mod 10 :: acc else digits_fuel fuel (n / 10) (n mod 10 :: acc).
Proof. reflexivity. Qed.

Lemma value_of_snoc ds d : value_of (ds ++ [d]) = value_of ds * 10 + d.
Proof. unfold value_of. now rewrite fold_left_app. Qed.

Lemma digits_fuel_spec fuel n :
  n / 10 < 2 ^ N.of_nat fuel ->
  let ds := digits_fuel (S fuel) n [] in
  value_of ds = n /\ Forall (fun d => d < 10) ds /\
  exists d0 ds', ds = d0 :: ds' /\ (d0 = 0 -> n = 0 /\ ds' = []).
Proof.
  revert n. induction fuel as [|fuel IH]; intros n Hn; cbn zeta.
  - assert (n / 10 = 0) as E by (simpl in Hn; div_lia).
    rewrite digits_fuel_S, E. cbn.
    assert (n < 10) by div_lia.
    rewrite N.mod_small by assumption.
    repeat split; [constructor; [assumption | constructor]|].
    exists n, []. split; [reflexivity|]. intros ->; auto.
  - rewrite digits_fuel_S. destruct (n / 10 =? 0) eqn:E.
    + apply N.eqb_eq in E. assert (n < 10) by div_lia.
      rewrite N.mod_small by assumption. cbn.
      repeat split; [constructor; [assumption | constructor]|].
      exists n, []. split; [reflexivity|]. intros ->; auto.
    + apply N.eqb_neq in E. rewrite digits_fuel_acc.
      assert (Hn' : n / 10 / 10 < 2 ^ N.of_nat fuel).
      { rewrite Nnat.Nat2N.inj_succ, N.pow_succ_r' in Hn. div_lia. }
      destruct (IH (n / 10) Hn') as (V & F & d0 & ds' & Eds & Z).
      rewrite value_of_snoc, V. split; [div_lia|]. split.
      * apply Forall_app. split; [exact F|]. constructor; [div_lia | constructor].
      * rewrite Eds. exists d0, (ds' ++ [n mod 10]). split; [reflexivity|].
        intros Hd. destruct (Z Hd) as [Hz _]. contradiction.
Qed.

Lemma decimal_digits_spec n :
  value_of (decimal_digits n) = n /\ Forall (fun d => d < 10) (decimal_digits n) /\
  exists d0 ds', decimal_digits n = d0 :: ds' /\ (d0 = 0 -> n = 0 /\ ds' = []).
Proof.
  apply digits_fuel_spec. rewrite Nnat.N2Nat.id.
  pose proof (N.size_gt n). div_lia.
Qed.


Lemma digits_value_from ds init :
  Forall (fun d => d < 10) ds ->
  fold_left (fun acc c => acc * 10 + (c - 48)) (map digit_char ds) init =
  fold_left (fun acc d => acc * 10 + d) ds init.
Proof.
  intros H. revert init. induction H as [|d ds Hd _ IH]; intros init; cbn [map fold_left].
  - reflexivity.
  - rewrite IH. f_equal. unfold digit_char. lia.
Qed.

Lemma digits_value_chars ds :
  Forall (fun d => d < 10) ds -> digits_value (map digit_char ds) = value_of ds.
Proof. apply digits_value_from. Qed.

Lemma is_digit_char d : d < 10 -> is_digit (digit_char d) = true.
Proof. intros H. unfold is_digit, digit_char. n_goal; lia. Qed.


Lemma small_digit d : d < 10 ->
  d = 0 \/ d = 1 \/ d = 2 \/ d = 3 \/ d = 4 \/ d = 5 \/ d = 6 \/ d = 7 \/ d = 8 \/ d = 9.
Proof. lia. Qed.



Lemma skip_ws_id c s : is_whitespace c = false -> skip_ws (c :: s) = c :: s.
Proof. intros H. cbn [skip_ws]. now rewrite H. Qed.


Lemma decimal_head n : exists c cs, decimal n = c :: cs /\ 48 <= c <= 57.
Proof.
  destruct (decimal_digits_spec n) as (_ & F & d0 & ds & E & _).
  unfold decimal. rewrite E in *. apply Forall_cons_iff in F. destruct F as [Hd _].
  exists (digit_char d0), (map digit_char ds). split; [reflexivity|].
  unfold digit_char. lia.
Qed.



(** *** Strings *)

Lemma control_char_cases c : c < 32 ->
  hex4 48 48 (hex_digit (c / 16)) (hex_digit (c mod 16)) = Some c /\
  is_high_surrogate c = false.
Proof.
  intros H. destruct c as [|p]; [split; reflexivity|].
  do 5 (destruct p as [p|p|]; try (split; reflexivity)); lia.
Qed.

(** After an escape that is no high surrogate the scanner goes on with
    the next character, whatever follows. *)
Lemma scanstring_u a b c d u r :
  hex4 a b c d = Some u -> is_high_surrogate u = false ->
  scanstring (92 :: 117 :: a :: b :: c :: d :: r) = push u (scanstring r).
Proof.
  intros H Hu. cbn [scanstring N.eqb Pos.eqb]. rewrite H, Hu. cbn [andb].
  destruct r as [|x1 [|x2 [|x3 [|x4 [|x5 [|x6 [|x7 r]]]]]]]; reflexivity.
Qed.

Lemma scanstring_escape c tail :
  scanstring (escape_char c ++ tail) = push c (scanstring tail).
Proof.
  unfold escape_char.
  repeat match goal with
         | |- context [if ?b =? ?k then _ else _] =>
             destruct (b =? k) eqn:?;
             [match goal with H : (_ =? _) = true |- _ =>
                apply N.eqb_eq in H; subst; reflexivity end|]
         end.
  destruct (c <? 0x20) eqn:E.
  - apply N.ltb_lt in E. destruct (control_char_cases E) as [H1 H2].
    cbn [app]. now apply scanstring_u.
  - cbn [app scanstring]. rewrite Heqb, Heqb0.
    assert ((c <=? 31) = false) as -> by (n_props; n_goal; lia).
    reflexivity.
Qed.

Lemma scanstring_escaped s tail :
  scanstring (flat_map escape_char s ++ 34 :: tail) = Some (s, tail).
Proof.
  induction s as [|c s IH]; cbn [flat_map app].
  - reflexivity.
  - rewrite <- app_assoc, scanstring_escape, IH. reflexivity.
Qed.



(** *** What [json.dumps] writes *)


Lemma visible_not_newline c : visible c = true -> not_newline c = true.
Proof. unfold visible, not_newline. intros H. n_props. n_goal. lia. Qed.


Lemma lit_visible_check s :
  forallb visible (lit s) = true -> Forall (fun c => visible c = true) (lit s).
Proof. intros H. apply Forall_forall. now apply forallb_forall. Qed.

Lemma hex_digit_visible d : visible (hex_digit d) = true.
Proof. unfold visible, hex_digit. destruct (d <? 10); n_goal; lia. Qed.

Lemma escape_char_visible c : Forall (fun x => visible x = true) (escape_char c).
Proof.
  unfold escape_char.
  repeat match goal with
         | |- context [if ?b =? ?k then _ else _] =>
             destruct (b =? k); [repeat constructor|]
         end.
  destruct (c <? 0x20) eqn:E.
  - repeat constructor; apply hex_digit_visible.
  - repeat constructor. unfold visible. n_props. n_goal. lia.
Qed.

Lemma encode_basestring_visible s :
  Forall (fun x => visible x = true) (encode_basestring s).
Proof.
  unfold encode_basestring. rewrite !Forall_app. repeat split; try (repeat constructor).
  induction s as [|c s IH]; cbn [flat_map]; [constructor|].
  apply Forall_app. split; [apply escape_char_visible | exact IH].
Qed.

Lemma digit_chars_visible ds : Forall (fun x => visible x = true) (map digit_char ds).
Proof.
  induction ds as [|d ds IH]; cbn [map]; constructor; [|exact IH].
  unfold visible, digit_char. n_goal. lia.
Qed.

Lemma decimal_visible n : Forall (fun x => visible x = true) (decimal n).
Proof. apply digit_chars_visible. Qed.

Lemma int_repr_visible z : Forall (fun x => visible x = true) (int_repr z).
Proof.
  destruct z; cbn [int_repr]; try apply decimal_visible.
  constructor; [reflexivity | apply decimal_visible].
Qed.

Lemma Forall_skipn' (A : Type) (P : A -> Prop) n (l : list A) :
  Forall P l -> Forall P (skipn n l).
Proof.
  intros H. rewrite <- (firstn_skipn n l) in H.
  apply Forall_app in H. tauto.
Qed.

Lemma format_short_visible ds decpt :
  Forall (fun x => visible x = true) (format_short ds decpt).
Proof.
  assert (D := digit_chars_visible ds).
  assert (L : forall s, Forall (fun x => visible x = true) (lit s) \/ True) by auto.
  unfold format_short, zeros.
  repeat match goal with
         | |- context [if ?b then _ else _] => destruct b
         | |- context [match ?l with [] => _ | _ :: _ => _ end] => destruct l eqn:?
         | |- Forall _ (_ ++ _) => apply Forall_app; split
         end;
    try (apply Forall_firstn'; exact D);
    try (apply Forall_skipn'; exact D);
    try exact D;
    try apply decimal_visible;
    try (apply Forall_forall; intros x Hx; apply repeat_spec in Hx; now subst x);
    try (apply lit_visible_check; reflexivity).
  all: try (match goal with H : skipn 1 _ = _ |- _ =>
              rewrite <- H; apply Forall_skipn'; exact D end).
  all: try (match goal with H : decimal _ = _ |- _ =>
              rewrite <- H; apply decimal_visible end).
Qed.

Lemma floatstr_visible x : Forall (fun c => visible c = true) (floatstr x).
Proof.
  destruct x as [[|]|[|]| |neg m e]; cbn [floatstr];
    try (apply lit_visible_check; reflexivity).
  unfold repr_finite. destruct (shortest m e) as [c k].
  apply Forall_app. split; [destruct neg; repeat constructor|].
  apply format_short_visible.
Qed.









End JsonFacts.

Module FormatterFacts.
Import Text Clock Capture Regex PyFloat Json Formatter ClockSpec FormatterSpec.
Import TextFacts ClockFacts RegexFacts JsonFacts.

(** *** Lines *)

Lemma not_newline_spec c : not_newline c = true <-> c <> NL.
Proof.
  unfold not_newline, NL. rewrite negb_true_iff, N.eqb_neq. tauto.
Qed.

Lemma no_cr_spec c : no_cr c = true <-> c <> CR.
Proof.
  unfold no_cr, CR. rewrite negb_true_iff, N.eqb_neq. tauto.
Qed.

Lemma not_newline_eqb c : not_newline c = true -> (c =? NL) = false.
Proof. unfold not_newline, NL. now rewrite negb_true_iff. Qed.

Lemma no_cr_eqb c : no_cr c = true -> (c =? CR) = false.
Proof. unfold no_cr, CR. now rewrite negb_true_iff. Qed.

Lemma split_lines_cons c s :
  split_lines (c :: s) =
  if c =? NL then [NL] :: split_lines s
  else match split_lines s with
       | [] => [[c]]
       | l :: ls => (c :: l) :: ls
       end.
Proof. reflexivity. Qed.

Lemma concat_split_lines s : List.concat (split_lines s) = s.
Proof.
  induction s as [|c s IH]; [reflexivity|]. rewrite split_lines_cons.
  destruct (c =? NL) eqn:E.
  - apply N.eqb_eq in E. subst c. cbn [List.concat app]. now rewrite IH.
  - destruct (split_lines s) as [|l ls]; cbn [List.concat app] in *.
    + now rewrite <- IH.
    + now rewrite <- IH.
Qed.

(** A text that starts with a line ending in a newline splits there. *)
Lemma split_lines_first body rest :
  Forall (fun c => not_newline c = true) body ->
  split_lines (body ++ NL :: rest) = (body ++ [NL]) :: split_lines rest.
Proof.
  induction 1 as [|c body Hc _ IH]; cbn [app].
  - rewrite split_lines_cons. now rewrite N.eqb_refl.
  - rewrite split_lines_cons.
    rewrite (not_newline_eqb _ Hc), IH. reflexivity.
Qed.


Lemma line_body_not_newline s : line_body s -> Forall (fun c => not_newline c = true) s.
Proof. apply Forall_impl. tauto. Qed.

Lemma line_body_no_cr s : line_body s -> Forall (fun c => no_cr c = true) s.
Proof. apply Forall_impl. tauto. Qed.

Lemma line_body_app a b : line_body (a ++ b) <-> line_body a /\ line_body b.
Proof. apply Forall_app. Qed.






(** *** Reading a file as text *)


Lemma universal_newlines_id s :
  Forall (fun c => no_cr c = true) s -> universal_newlines s = s.
Proof.
  induction 1 as [|c s Hc _ IH]; [reflexivity|]. cbn [universal_newlines].
  rewrite (no_cr_eqb _ Hc). now rewrite IH.
Qed.



(** *** Indentation of the continuation lines *)

Lemma indent_continuation_app a b :
  indent_continuation (a ++ b) = indent_continuation a ++ indent_continuation b.
Proof. apply flat_map_app. Qed.

Lemma indent_continuation_cons c s :
  indent_continuation (c :: s) =
  (if c =? NL then [NL; 32; 32] else [c]) ++ indent_continuation s.
Proof. reflexivity. Qed.

Lemma indent_continuation_id s :
  Forall (fun c => not_newline c = true) s -> indent_continuation s = s.
Proof.
  induction 1 as [|c s Hc _ IH]; [reflexivity|].
  rewrite indent_continuation_cons, (not_newline_eqb _ Hc), IH. reflexivity.
Qed.



(** The lines of an indented block are those of the block, each after
    the first behind two spaces. *)
Lemma split_lines_nonempty w : split_lines (w ++ [NL]) <> [].
Proof.
  intros E. apply (f_equal (@List.concat N)) in E.
  rewrite concat_split_lines in E. destruct w; discriminate.
Qed.

Lemma split_lines_indented w : forall pre,
  Forall (fun c => not_newline c = true) pre ->
  exists l0 ls,
    split_lines (w ++ [NL]) = l0 :: ls /\
    split_lines (pre ++ indent_continuation w ++ [NL]) =
      (pre ++ l0) :: map (fun l => 32 :: 32 :: l) ls.
Proof.
  induction w as [|c w IH]; intros pre Hpre.
  - exists [NL], []. split; [reflexivity|].
    cbn [indent_continuation flat_map app].
    change [NL] with (NL :: []). now rewrite split_lines_first.
  - rewrite indent_continuation_cons. cbn [app]. rewrite split_lines_cons.
    destruct (c =? NL) eqn:E.
    + destruct (IH [32; 32]) as (l0 & ls & E1 & E2); [repeat constructor|].
      exists [NL], (l0 :: ls). split; [now rewrite E1|].
      change (pre ++ ([NL; 32; 32] ++ indent_continuation w) ++ [NL])
        with (pre ++ NL :: ([32; 32] ++ indent_continuation w ++ [NL])).
      rewrite split_lines_first by exact Hpre. rewrite E2. reflexivity.
    + destruct (IH (pre ++ [c])) as (l0 & ls & E1 & E2).
      { apply Forall_app. split; [exact Hpre|].
        repeat constructor. apply not_newline_spec. now apply N.eqb_neq. }
      exists (c :: l0), ls. rewrite E1. split; [reflexivity|].
      replace (pre ++ ([c] ++ indent_continuation w) ++ [NL])
        with ((pre ++ [c]) ++ indent_continuation w ++ [NL])
        by (cbn [app]; now rewrite <- !app_assoc).
      rewrite E2. now rewrite <- app_assoc.
Qed.

(** *** One line *)

Lemma str_eqb_eq a : forall b, str_eqb a b = true -> a = b.
Proof.
  induction a as [|x a IH]; intros [|y b] H; try discriminate; [reflexivity|].
  cbn in H. apply andb_true_iff in H. destruct H as [H1 H2].
  apply N.eqb_eq in H1. subst y. f_equal. now apply IH.
Qed.

Lemma format_line_json p a tail v :
  exact pattern_prefix p -> a <> [] ->
  Forall (fun c => not_newline c = true) a ->
  tail = [] \/ (exists tail', tail = 10 :: tail') ->
  json_loads a = Some v ->
  format_line (p ++ a ++ tail) = p ++ indent_continuation (json_dumps v) ++ [NL].
Proof.
  intros Hp Ha Hn Ht Hv. unfold format_line.
  rewrite (match_groups_line Hp Ha Hn Ht), Hv. reflexivity.
Qed.


Lemma format_line_unmatched l :
  match_groups pattern_prefix pattern_json l = None -> format_line l = l.
Proof. intros H. unfold format_line. now rewrite H. Qed.







(** *** The file *)


Lemma map_fixed (A : Type) (f : A -> A) (l : list A) :
  Forall (fun x => f x = x) l -> map f l = l.
Proof. induction 1 as [|x l Hx _ IH]; cbn; congruence. Qed.




End FormatterFacts.

Module FormatterClaims.
Import Text Clock Capture Regex PyFloat Json Formatter ClockSpec FormatterSpec.
Import Scenario TextFacts ClockFacts RegexFacts JsonFacts FormatterFacts.

Lemma scenario_ts_shaped : shaped_timestamp scenario_ts.
Proof.
  exists (lit "2024"), (lit "01"), (lit "01"), (lit "00"), (lit "00"),
         (lit "00"), (lit "000").
  split; [reflexivity|].
  repeat split; repeat constructor.
Qed.

Lemma decimal_not_newline c : isdecimal c = true -> not_newline c = true.
Proof.
  intros H. apply not_newline_spec. intros ->. vm_compute in H. discriminate.
Qed.

Lemma digit_run_not_newline n ds :
  digit_run n ds -> Forall (fun c => not_newline c = true) ds.
Proof. intros [_ H]. revert H. apply Forall_impl, decimal_not_newline. Qed.

Lemma line_prefix_not_newline t ts :
  shaped_timestamp ts -> Forall (fun c => not_newline c = true) (line_prefix t ts).
Proof.
  intros (y & mo & dd & h & mi & s & ms & -> & Hy & Hmo & Hd & Hh & Hmi & Hs & Hms).
  unfold line_prefix. rewrite !Forall_app.
  repeat split; eauto using digit_run_not_newline; try (repeat constructor).
  destruct t; repeat constructor.
Qed.

(** C5, as stated, fails: a record tagged ERR whose content is JSON is
    left as it is, not pretty-printed. *)
Lemma C5_counterexample :
  shaped_timestamp scenario_ts /\
  err_line = line_prefix ERR scenario_ts ++ scenario_content ++ [NL] /\
  json_loads scenario_content = Some scenario_value /\
  format_line err_line = err_line /\
  format_json_logs err_line = err_line /\
  err_line <>
    line_prefix ERR scenario_ts ++
    indent_continuation (json_dumps scenario_value) ++ [NL].
Proof.
  split; [exact scenario_ts_shaped|].
  repeat split; try (vm_compute; reflexivity).
  vm_compute. discriminate.
Qed.

(** C5. A record tagged IN or OUT whose content parses as JSON is replaced
    by its prefix followed by the value printed with two-space indentation,
    each line after the first behind two more spaces, and a newline; a
    record tagged ERR is left as it is. *)
Theorem C5_in_out_records_pretty_printed t ts content tail v :
  shaped_timestamp ts -> content <> [] ->
  Forall (fun c => not_newline c = true) content ->
  tail = [] \/ tail = [NL] ->
  json_loads content = Some v ->
  (t <> ERR ->
   format_line (line_prefix t ts ++ content ++ tail) =
     line_prefix t ts ++ indent_continuation (json_dumps v) ++ [NL] /\
   exists l0 ls,
     split_lines (json_dumps v ++ [NL]) = l0 :: ls /\
     split_lines (format_line (line_prefix t ts ++ content ++ tail)) =
       (line_prefix t ts ++ l0) :: map (fun l => 32 :: 32 :: l) ls) /\
  (t = ERR ->
   format_line (line_prefix t ts ++ content ++ tail) =
     line_prefix t ts ++ content ++ tail).
Proof.
  intros Hts Hc Hn Ht Hv. split.
  - intros Htag.
    assert (Hp : exact pattern_prefix (line_prefix t ts))
      by now apply exact_pattern_prefix.
    assert (E : format_line (line_prefix t ts ++ content ++ tail) =
                line_prefix t ts ++ indent_continuation (json_dumps v) ++ [NL]).
    { apply format_line_json; auto.
      destruct Ht as [-> | ->]; [now left | right; now exists []]. }
    split; [exact E|]. rewrite E.
    apply split_lines_indented.
    now apply line_prefix_not_newline.
  - intros ->. apply format_line_unmatched.
    rewrite match_groups_spec, err_line_unmatched by exact Hts. reflexivity.
Qed.

Lemma C5_witness :
  shaped_timestamp scenario_ts /\
  json_loads scenario_content = Some scenario_value /\
  format_line (scenario_line ++ [NL]) = indented_rendering /\
  split_lines (format_line (scenario_line ++ [NL])) =
    [ lit "[2024-01-01 00:00:00.000] OUT: {" ++ [NL];
      lit "    " ++ [quote] ++ lit "a" ++ [quote] ++ lit ": 1" ++ [NL];
      lit "  }" ++ [NL] ].
Proof.
  split; [exact scenario_ts_shaped|]. split; [reflexivity|].
  destruct (@C5_in_out_records_pretty_printed OUT scenario_ts scenario_content
              [NL] scenario_value scenario_ts_shaped
              ltac:(discriminate) ltac:(repeat constructor)
              (or_intror eq_refl) eq_refl) as [H _].
  destruct (H ltac:(discriminate)) as [E (l0 & ls & E1 & E2)].
  split; [exact E|].
  transitivity ((line_prefix OUT scenario_ts ++ l0)
                :: map (fun l => 32 :: 32 :: l) ls); [exact E2|].
  vm_compute in E1. injection E1 as <- <-. reflexivity.
Defined.

(** C6, as stated, fails: the lines after the first are indented by two
    more spaces than in the rendering the claim gives, and a newline
    ends the record. *)
Lemma C6_counterexample :
  format_json_logs scenario_line <> plain_rendering /\
  format_json_logs scenario_line <> plain_rendering ++ [NL] /\
  format_json_logs (scenario_line ++ [NL]) <> plain_rendering /\
  format_json_logs (scenario_line ++ [NL]) <> plain_rendering ++ [NL].
Proof. repeat split; vm_compute; discriminate. Qed.

(** C6. Fed the scenario's record, with or without its newline, the
    formatter writes the prefix and the opening brace, the member behind
    four spaces, the closing brace behind two, and a newline. *)
Theorem C6_scenario_rendering :
  format_json_logs scenario_line = indented_rendering /\
  format_json_logs (scenario_line ++ [NL]) = indented_rendering.
Proof. split; vm_compute; reflexivity. Qed.



End FormatterClaims.

Module RoundTripFacts.
Import Text Clock Capture Regex PyFloat Json Formatter ClockSpec FormatterSpec JsonSpec.
Import TextFacts ClockFacts RegexFacts JsonFacts FormatterFacts.

(** *** Printing one level deeper *)

Lemma indent_continuation_visible s :
  Forall (fun c => visible c = true) s -> indent_continuation s = s.
Proof.
  intros H. apply indent_continuation_id. revert H.
  apply Forall_impl, visible_not_newline.
Qed.

Lemma repeat_visible n : Forall (fun c => visible c = true) (repeat 32 n).
Proof. induction n; cbn; constructor; auto. Qed.

Lemma indent_newline_indent level :
  indent_continuation (newline_indent level) = newline_indent (S level).
Proof.
  unfold newline_indent. rewrite indent_continuation_cons.
  change (10 =? Formatter.NL) with true. cbv iota.
  rewrite indent_continuation_visible by apply repeat_visible.
  replace (2 * S level)%nat with (S (S (2 * level))) by lia. reflexivity.
Qed.

Lemma indent_join sep parts :
  indent_continuation (join sep parts) =
  join (indent_continuation sep) (map indent_continuation parts).
Proof.
  induction parts as [|p ps IH]; [reflexivity|].
  destruct ps as [|p2 ps]; [reflexivity|].
  change (join sep (p :: p2 :: ps)) with (p ++ sep ++ join sep (p2 :: ps)).
  rewrite !indent_continuation_app, IH. reflexivity.
Qed.

Lemma map_ext_Forall (A B : Type) (f g : A -> B) (l : list A) :
  Forall (fun x => f x = g x) l -> map f l = map g l.
Proof. induction 1; cbn; congruence. Qed.

(** Indenting the continuation lines of a printed value by two spaces
    gives the value as it is printed one level deeper. *)
Lemma indent_dumps v : forall level,
  indent_continuation (dumps_at level v) = dumps_at (S level) v.
Proof.
  induction v as [ | b | z | x | s | items IH | members IH ] using json_induction;
    intros level; cbn [dumps_at].
  - reflexivity.
  - destruct b; reflexivity.
  - apply indent_continuation_visible, int_repr_visible.
  - apply indent_continuation_visible, floatstr_visible.
  - apply indent_continuation_visible, encode_basestring_visible.
  - destruct items as [|i items]; [reflexivity|].
    rewrite !indent_continuation_app, indent_join, !indent_continuation_app,
      !indent_newline_indent, map_map.
    do 3 f_equal. f_equal.
    apply map_ext_Forall. revert IH. apply Forall_impl. intros a H. apply H.
  - destruct members as [|m members]; [reflexivity|].
    rewrite !indent_continuation_app, indent_join, !indent_continuation_app,
      !indent_newline_indent, map_map.
    do 3 f_equal. f_equal.
    apply map_ext_Forall. revert IH. apply Forall_impl. intros [k a] H.
    cbn [snd] in H. rewrite !indent_continuation_app, H.
    rewrite (indent_continuation_visible (encode_basestring_visible k)).
    reflexivity.
Qed.

(** *** Reading printed values *)

Lemma ends_value_head rest :
  ends_value rest ->
  match rest with
  | [] => True
  | c :: _ => is_digit c = false /\ c <> 46 /\ c <> 101 /\ c <> 69
  end.
Proof.
  intros [-> | (c & r & -> & [-> | ->])]; [exact I | |]; repeat split; discriminate.
Qed.

Lemma span_digits_rest ds rest :
  Forall (fun d => d < 10) ds -> ends_value rest ->
  span is_digit (map digit_char ds ++ rest) = (map digit_char ds, rest).
Proof.
  intros Hd Hr. induction Hd as [|d ds Hd _ IH]; cbn [map span app].
  - apply ends_value_head in Hr. destruct rest as [|c r]; [reflexivity|].
    cbn [span]. destruct Hr as [-> _]. reflexivity.
  - now rewrite is_digit_char, IH.
Qed.

Lemma match_frac_rest rest : ends_value rest -> match_frac rest = (None, rest).
Proof.
  intros Hr. apply ends_value_head in Hr. destruct rest as [|c [|d r]]; try reflexivity.
  cbn [match_frac]. destruct Hr as (_ & Hc & _).
  apply N.eqb_neq in Hc. now rewrite Hc.
Qed.

Lemma match_exp_rest rest : ends_value rest -> match_exp rest = (None, rest).
Proof.
  intros Hr. apply ends_value_head in Hr. destruct rest as [|c r]; [reflexivity|].
  cbn [match_exp]. destruct Hr as (_ & _ & H1 & H2).
  apply N.eqb_neq in H1, H2. now rewrite H1, H2.
Qed.

Lemma match_int_decimal n rest :
  ends_value rest ->
  match_int (decimal n ++ rest) = Some (decimal n, rest) /\
  digits_value (decimal n) = n.
Proof.
  intros Hr. destruct (decimal_digits_spec n) as (V & F & d0 & ds & E & Z).
  unfold decimal. rewrite E in *. apply Forall_cons_iff in F. destruct F as [Hd Fd].
  rewrite digits_value_chars by (constructor; assumption). split; [|exact V].
  cbn [map app match_int].
  destruct (small_digit Hd) as [->|[->|[->|[->|[->|[->|[->|[->|[->| ->]]]]]]]]].
  1: { destruct (Z eq_refl) as [_ ->]. reflexivity. }
  all: cbn -[span]; now rewrite span_digits_rest.
Qed.

Lemma match_number_decimal n rest :
  ends_value rest ->
  match_number (decimal n ++ rest) =
    Some ({| negative := false; int_digits := decimal n;
             frac_digits := None; exponent := None |}, rest).
Proof.
  intros Hr. unfold match_number.
  destruct (decimal_head n) as (c & cs & E & Hc).
  assert (Hs : match_sign (decimal n ++ rest) = (false, decimal n ++ rest)).
  { rewrite E. cbn. assert ((c =? 45) = false) as -> by (n_goal; lia). reflexivity. }
  rewrite Hs. destruct (match_int_decimal n Hr) as [-> _].
  now rewrite (match_frac_rest Hr), (match_exp_rest Hr).
Qed.

Lemma strip_prefix_decimal (w : string) n rest :
  match lit w with c :: _ => (c <? 48) || (57 <? c) | [] => false end = true ->
  strip_prefix (lit w) (decimal n ++ rest) = None.
Proof.
  destruct (decimal_head n) as (c & cs & E & Hc). rewrite E.
  destruct (lit w) as [|x xs]; [discriminate|]. intros H. cbn.
  assert ((x =? c) = false) as ->; [|reflexivity].
  n_props; n_goal; lia.
Qed.

Lemma scan_literal_decimal n rest :
  ends_value rest ->
  scan_literal (decimal n ++ rest) = Some (JInt (Z.of_N n), rest).
Proof.
  intros Hr. unfold scan_literal.
  rewrite !strip_prefix_decimal by reflexivity.
  rewrite (match_number_decimal n Hr). unfold number_value, token_is_float.
  cbn [frac_digits exponent negative int_digits].
  now rewrite (proj2 (match_int_decimal n Hr)).
Qed.

Lemma strip_prefix_mismatch (w : string) c s :
  match lit w with x :: _ => negb (x =? c) | [] => false end = true ->
  strip_prefix (lit w) (c :: s) = None.
Proof.
  destruct (lit w) as [|x xs]; [discriminate|]. intros H.
  apply negb_true_iff in H. cbn [strip_prefix]. now rewrite H.
Qed.

Lemma scan_literal_negative p rest :
  ends_value rest ->
  scan_literal (45 :: decimal (Npos p) ++ rest) = Some (JInt (Zneg p), rest).
Proof.
  intros Hr. unfold scan_literal.
  destruct (decimal_head (Npos p)) as (c & cs & E & Hc).
  rewrite !strip_prefix_mismatch by reflexivity.
  assert (strip_prefix (lit "-Infinity") (45 :: decimal (Npos p) ++ rest) = None) as ->.
  { rewrite E. change (lit "-Infinity") with (45 :: 73 :: lit "nfinity").
    cbn [strip_prefix app]. rewrite N.eqb_refl.
    assert ((73 =? c) = false) as -> by (n_goal; lia). reflexivity. }
  unfold match_number. cbn [match_sign]. rewrite N.eqb_refl.
  destruct (match_int_decimal (Npos p) Hr) as [-> V].
  rewrite (match_frac_rest Hr), (match_exp_rest Hr).
  unfold number_value, token_is_float.
  cbn [frac_digits exponent negative int_digits].
  rewrite V. reflexivity.
Qed.

Lemma scan_int fuel z rest :
  ends_value rest ->
  scan_once (S fuel) (int_repr z ++ rest) = Scanned (JInt z) rest.
Proof.
  intros Hr.
  assert (K : forall n, scan_once (S fuel) (decimal n ++ rest) =
                        Scanned (JInt (Z.of_N n)) rest).
  { intros n. pose proof (scan_literal_decimal n Hr) as L.
    destruct (decimal_head n) as (c & cs & E & Hc). rewrite E in *.
    cbn [scan_once app].
    assert ((c =? 34) = false) as -> by (n_goal; lia).
    assert ((c =? 123) = false) as -> by (n_goal; lia).
    assert ((c =? 91) = false) as -> by (n_goal; lia).
    cbn [app] in L. now rewrite L. }
  destruct z as [|q|q]; cbn [int_repr Z.to_N].
  - apply (K 0).
  - apply (K (Npos q)).
  - cbn [scan_once app]. change (45 =? 34) with false. change (45 =? 123) with false.
    change (45 =? 91) with false. cbv iota.
    now rewrite (scan_literal_negative q Hr).
Qed.

Lemma scan_str fuel s rest :
  scan_once (S fuel) (encode_basestring s ++ rest) = Scanned (JStr s) rest.
Proof.
  unfold encode_basestring. rewrite <- !app_assoc. cbn [scan_once app].
  change (34 =? 34) with true. cbv iota.
  now rewrite scanstring_escaped.
Qed.

Lemma skip_ws_spaces n s : skip_ws (repeat 32 n ++ s) = skip_ws s.
Proof. induction n; [reflexivity|]. cbn [repeat app skip_ws]. exact IHn. Qed.

Lemma skip_ws_indent level c s :
  is_whitespace c = false -> skip_ws (newline_indent level ++ c :: s) = c :: s.
Proof.
  intros H. unfold newline_indent. cbn [app skip_ws].
  change (is_whitespace 10) with true. cbv iota.
  rewrite skip_ws_spaces. now apply skip_ws_id.
Qed.

Lemma join_head sep p ps : exists tail, join sep (p :: ps) = p ++ tail.
Proof.
  destruct ps as [|p2 ps]; [exists []; cbn; now rewrite app_nil_r|].
  now exists (sep ++ join sep (p2 :: ps)).
Qed.

Lemma dumps_head v level :
  float_free v = true ->
  exists c cs, dumps_at level v = c :: cs /\ opens_value c.
Proof.
  unfold opens_value.
  destruct v as [ | [|] | z | x | s | [|i items] | [|m members] ];
    cbn [dumps_at float_free]; intros Hf; try discriminate;
    try (eexists _, _; split; [reflexivity|];
         repeat split; (discriminate || reflexivity)).
  destruct z as [|q|q]; cbn [int_repr Z.to_N].
  3: { eexists _, _; split; [reflexivity|];
       repeat split; (discriminate || reflexivity). }
  all: match goal with |- context [decimal ?n] =>
         destruct (decimal_head n) as (c & cs & E & Hc) end;
    exists c, cs; split; [exact E|];
    unfold is_whitespace; repeat split; try lia;
    repeat (apply orb_false_iff; split); n_goal; lia.
Qed.

Lemma scan_once_array fuel r c2 r2 :
  skip_ws r = c2 :: r2 -> c2 <> 93 ->
  scan_once (S fuel) (91 :: r) = parse_items fuel (c2 :: r2) [].
Proof.
  intros E H. cbn [scan_once]. change (91 =? 34) with false.
  change (91 =? 123) with false. change (91 =? 91) with true. cbv iota.
  rewrite E. apply N.eqb_neq in H. now rewrite H.
Qed.

Lemma scan_once_object fuel r c2 r2 :
  skip_ws r = c2 :: r2 -> c2 <> 125 ->
  scan_once (S fuel) (123 :: r) = parse_members fuel (c2 :: r2) [].
Proof.
  intros E H. cbn [scan_once]. change (123 =? 34) with false.
  change (123 =? 123) with true. cbv iota.
  rewrite E. apply N.eqb_neq in H. now rewrite H.
Qed.

Lemma parse_items_S fuel s acc :
  parse_items (S fuel) s acc =
  match scan_once fuel s with
  | Scanned v rest =>
      match skip_ws rest with
      | c :: r =>
          if c =? 93 then Scanned (JArr (rev (v :: acc))) r
          else if c =? 44 then parse_items fuel (skip_ws r) (v :: acc)
          else Malformed
      | [] => Malformed
      end
  | Malformed => Malformed
  | Exhausted => Exhausted
  end.
Proof. reflexivity. Qed.

Lemma parse_members_key fuel k tail acc :
  parse_members (S fuel) (encode_basestring k ++ 58 :: 32 :: tail) acc =
  match scan_once fuel (skip_ws tail) with
  | Scanned v rest2 =>
      match skip_ws rest2 with
      | c :: r3 =>
          if c =? 125 then Scanned (JObj (dict_set acc k v)) r3
          else if c =? 44 then parse_members fuel (skip_ws r3) (dict_set acc k v)
          else Malformed
      | [] => Malformed
      end
  | Malformed => Malformed
  | Exhausted => Exhausted
  end.
Proof.
  unfold encode_basestring. rewrite <- !app_assoc. cbn [app parse_members].
  change (34 =? 34) with true. cbv iota.
  rewrite scanstring_escaped. cbn [skip_ws].
  change (is_whitespace 58) with false. cbv iota.
  change (58 =? 58) with true. cbv iota.
  change (is_whitespace 32) with true. cbv iota. reflexivity.
Qed.

Lemma str_eqb_refl a : str_eqb a a = true.
Proof. induction a as [|x a IH]; [reflexivity|]. cbn. now rewrite N.eqb_refl. Qed.

Lemma dict_set_fresh (V : Type) (d : list (str * V)) k v :
  has_key k d = false -> dict_set d k v = d ++ [(k, v)].
Proof.
  induction d as [|[k' v'] d IH]; [reflexivity|]. unfold has_key in *.
  cbn [existsb fst dict_set app]. intros H. apply orb_false_iff in H.
  destruct H as [H1 H2]. rewrite H1. now rewrite IH.
Qed.

Lemma has_key_app (V : Type) (a b : list (str * V)) k :
  has_key k (a ++ b) = has_key k a || has_key k b.
Proof. unfold has_key. apply existsb_app. Qed.

Lemma str_eqb_sym a : forall b, str_eqb a b = str_eqb b a.
Proof.
  induction a as [|x a IH]; intros [|y b]; try reflexivity.
  cbn. now rewrite N.eqb_sym, IH.
Qed.

(** In a list of members with unique keys, the key of a member is not
    among those before it. *)
Lemma unique_keys_app (V : Type) (a : list (str * V)) k v b :
  unique_keys (a ++ (k, v) :: b) = true ->
  has_key k a = false /\ unique_keys ((a ++ [(k, v)]) ++ b) = true.
Proof.
  intros H. split; [|now rewrite <- app_assoc].
  induction a as [|[k' v'] a IH]; [reflexivity|].
  cbn [app unique_keys fst] in H. apply andb_true_iff in H. destruct H as [H1 H2].
  apply negb_true_iff in H1. rewrite has_key_app in H1.
  apply orb_false_iff in H1. destruct H1 as [_ H1].
  unfold has_key in H1 |- *. cbn [existsb fst] in H1 |- *.
  apply orb_false_iff in H1. destruct H1 as [H1 _].
  rewrite str_eqb_sym, H1. cbn [orb]. now apply IH.
Qed.

Lemma join_dumps_head sep level i items :
  float_free i = true ->
  exists c cs, join sep (map (dumps_at level) (i :: items)) = c :: cs /\
               opens_value c.
Proof.
  intros Hf. destruct (dumps_head i level Hf) as (c & cs & E & Hc).
  cbn [map]. destruct (join_head sep (dumps_at level i) (map (dumps_at level) items))
    as [tail ->].
  rewrite E. now exists c, (cs ++ tail).
Qed.

Lemma ends_value_comma r : ends_value (44 :: r).
Proof. right. exists 44, r. auto. Qed.

Lemma ends_value_newline level r : ends_value (newline_indent level ++ r).
Proof. right. unfold newline_indent. cbn [app]. eexists _, _. eauto. Qed.

Lemma parse_items_ok level rest items :
  Forall (fun v => float_free v = true /\ reads_back v) items -> items <> [] ->
  forall acc fuel,
    (list_sum (map (fun x => S (cost x)) items) <= fuel)%nat ->
    parse_items fuel
      (join (44 :: newline_indent (S level)) (map (dumps_at (S level)) items) ++
       newline_indent level ++ 93 :: rest) acc =
    Scanned (JArr (rev acc ++ items)) rest.
Proof.
  induction 1 as [|i items [Hf Hi] Hitems IH]; [congruence|]. intros _ acc fuel Hfuel.
  cbn [map] in Hfuel.
  change (list_sum (?a :: ?l)) with (a + list_sum l)%nat in Hfuel.
  destruct fuel as [|f]; [lia|].
  rewrite parse_items_S. destruct items as [|i2 items].
  - cbn [map join].
    rewrite (Hi (S level) f) by (try apply ends_value_newline; cbn in Hfuel; lia).
    rewrite skip_ws_indent by reflexivity.
    change (93 =? 93) with true. cbv iota. reflexivity.
  - change (map (dumps_at (S level)) (i :: i2 :: items))
      with (dumps_at (S level) i :: map (dumps_at (S level)) (i2 :: items)).
    change (join ?sep (?p :: map ?f (i2 :: items)))
      with (p ++ sep ++ join sep (map f (i2 :: items))).
    rewrite <- !app_assoc. cbn [app].
    rewrite (Hi (S level) f) by (try apply ends_value_comma; lia).
    cbn [skip_ws]. change (is_whitespace 44) with false. cbv iota.
    change (44 =? 93) with false. change (44 =? 44) with true. cbv iota.
    inversion Hitems as [|? ? [Hf2 _] _]; subst.
    destruct (join_dumps_head (44 :: newline_indent (S level)) (S level) i2 items Hf2)
      as (c & cs & E & Hc & _).
    rewrite E. cbn [app]. rewrite skip_ws_indent by exact Hc.
    change (c :: cs ++ newline_indent level ++ 93 :: rest)
      with ((c :: cs) ++ newline_indent level ++ 93 :: rest).
    rewrite <- E, IH by (discriminate || lia).
    cbn [rev]. now rewrite <- app_assoc.
Qed.

Lemma join_members_head sep level m members :
  exists cs, join sep (map (member_text level) (m :: members)) = 34 :: cs.
Proof.
  cbn [map]. destruct (join_head sep (member_text level m)
                         (map (member_text level) members)) as [tail ->].
  unfold member_text, encode_basestring. cbn [app]. eexists. reflexivity.
Qed.

Lemma parse_members_ok level rest members :
  Forall (fun kv => float_free (snd kv) = true /\ reads_back (snd kv)) members ->
  members <> [] ->
  forall acc fuel,
    unique_keys (acc ++ members) = true ->
    (list_sum (map (fun kv => S (cost (snd kv))) members) <= fuel)%nat ->
    parse_members fuel
      (join (44 :: newline_indent (S level)) (map (member_text (S level)) members) ++
       newline_indent level ++ 125 :: rest) acc =
    Scanned (JObj (acc ++ members)) rest.
Proof.
  induction 1 as [|[k x] members [Hf Hi] Hmembers IH]; [congruence|].
  intros _ acc fuel Hu Hfuel. cbn [snd] in Hf, Hi.
  cbn [map snd] in Hfuel.
  change (list_sum (?a :: ?l)) with (a + list_sum l)%nat in Hfuel.
  destruct fuel as [|f]; [lia|].
  destruct (unique_keys_app _ _ _ _ Hu) as [Hfresh Hu'].
  destruct (dumps_head x (S level) Hf) as (c & cs & E & Hc & _).
  destruct members as [|m2 members].
  - cbn [map join]. unfold member_text at 1. cbn [fst snd].
    rewrite <- !app_assoc. cbn [lit N_of_ascii app].
    rewrite parse_members_key.
    rewrite E. cbn [app]. rewrite skip_ws_id by exact Hc.
    change (c :: cs ++ ?t) with ((c :: cs) ++ t). rewrite <- E.
    rewrite (Hi (S level) f) by (try apply ends_value_newline; cbn in Hfuel; lia).
    rewrite skip_ws_indent by reflexivity.
    change (125 =? 125) with true. cbv iota.
    now rewrite dict_set_fresh.
  - change (map (member_text (S level)) ((k, x) :: m2 :: members))
      with (member_text (S level) (k, x) :: map (member_text (S level)) (m2 :: members)).
    change (join ?sep (?p :: map ?f (m2 :: members)))
      with (p ++ sep ++ join sep (map f (m2 :: members))).
    unfold member_text at 1. cbn [fst snd].
    rewrite <- !app_assoc. cbn [lit N_of_ascii app].
    rewrite parse_members_key.
    rewrite E. cbn [app]. rewrite skip_ws_id by exact Hc.
    change (c :: cs ++ ?t) with ((c :: cs) ++ t). rewrite <- E.
    rewrite (Hi (S level) f) by (try apply ends_value_comma; lia).
    cbn [skip_ws]. change (is_whitespace 44) with false. cbv iota.
    change (44 =? 125) with false. change (44 =? 44) with true. cbv iota.
    destruct (join_members_head (44 :: newline_indent (S level)) (S level) m2 members)
      as [cs2 E2].
    rewrite E2. cbn [app]. rewrite skip_ws_indent by reflexivity.
    change (34 :: cs2 ++ ?t) with ((34 :: cs2) ++ t). rewrite <- E2.
    rewrite dict_set_fresh by exact Hfresh.
    rewrite IH by (discriminate || assumption || lia).
    now rewrite <- app_assoc.
Qed.

Lemma member_text_map level members :
  map (fun kv : str * json => let '(k, x) := kv in
         encode_basestring k ++ lit ": " ++ dumps_at level x) members =
  map (member_text level) members.
Proof. apply map_ext. now intros [k x]. Qed.

(** Every value without floats whose objects have unique keys reads back
    from its printed text. *)
Lemma value_reads_back v :
  well_keyed v = true -> float_free v = true -> reads_back v.
Proof.
  induction v as [ | b | z | x | s | items IH | members IH ] using json_induction;
    intros Hw Hf level fuel rest Hfuel Hr; cbn [cost] in Hfuel;
    (destruct fuel as [|f]; [lia|]); cbn [dumps_at].
  - reflexivity.
  - destruct b; reflexivity.
  - now apply scan_int.
  - discriminate.
  - apply scan_str.
  - destruct items as [|i items]; [reflexivity|].
    cbn [well_keyed float_free] in Hw, Hf.
    rewrite forallb_forall in Hw, Hf. rewrite Forall_forall in IH.
    assert (Hall : Forall (fun v => float_free v = true /\ reads_back v) (i :: items)).
    { apply Forall_forall. intros a Ha. split; [now apply Hf|]. apply IH; auto. }
    inversion Hall as [|? ? [Hfi _] _]; subst.
    destruct (join_dumps_head (44 :: newline_indent (S level)) (S level) i items Hfi)
      as (c & cs & E & Hc & Hc93 & _).
    change (lit "[") with [91]. change (lit ",") with [44]. change (lit "]") with [93].
    rewrite <- !app_assoc. cbn [app].
    rewrite (@scan_once_array f _ c
               (cs ++ newline_indent level ++ 93 :: rest)).
    + change (c :: cs ++ ?t) with ((c :: cs) ++ t). rewrite <- E.
      rewrite parse_items_ok by (assumption || discriminate || lia). reflexivity.
    + rewrite E. cbn [app]. now apply skip_ws_indent.
    + exact Hc93.
  - destruct members as [|m members]; [reflexivity|].
    cbn [well_keyed float_free] in Hw, Hf.
    apply andb_true_iff in Hw. destruct Hw as [Hu Hw].
    rewrite forallb_forall in Hw, Hf. rewrite Forall_forall in IH.
    assert (Hall : Forall (fun kv => float_free (snd kv) = true /\ reads_back (snd kv))
                          (m :: members)).
    { apply Forall_forall. intros a Ha. split; [now apply Hf|]. apply IH; auto. }
    destruct (join_members_head (44 :: newline_indent (S level)) (S level) m members)
      as [cs E].
    rewrite member_text_map.
    change (lit "{") with [123]. change (lit ",") with [44]. change (lit "}") with [125].
    rewrite <- !app_assoc. cbn [app].
    rewrite (@scan_once_object f _ 34
               (cs ++ newline_indent level ++ 125 :: rest)).
    + change (34 :: cs ++ ?t) with ((34 :: cs) ++ t). rewrite <- E.
      rewrite parse_members_ok by (assumption || discriminate || lia). reflexivity.
    + rewrite E. cbn [app]. now apply skip_ws_indent.
    + discriminate.
Qed.

Lemma join_length_bound (A : Type) (c : A -> nat) (f : A -> str) sep items :
  sep <> [] -> Forall (fun x => (c x <= List.length (f x))%nat) items ->
  (list_sum (map (fun x => S (c x)) items) <=
   List.length (join sep (map f items)) + 1)%nat.
Proof.
  intros Hsep. induction 1 as [|x items Hx Hitems IH]; [cbn; lia|].
  cbn [map]. change (list_sum (?a :: ?l)) with (a + list_sum l)%nat.
  destruct items as [|x2 items].
  - cbn. rewrite Nat.add_0_r. lia.
  - change (join sep (f x :: map f (x2 :: items)))
      with (f x ++ sep ++ join sep (map f (x2 :: items))).
    rewrite !length_app.
    assert (List.length sep <> 0%nat) by (destruct sep; [congruence | discriminate]).
    lia.
Qed.

Lemma cost_le_length v :
  float_free v = true -> forall level, (cost v <= List.length (dumps_at level v))%nat.
Proof.
  induction v as [ | b | z | x | s | items IH | members IH ] using json_induction;
    intros Hf level;
    try (destruct (dumps_head _ level Hf) as (c & cs & -> & _); cbn; lia).
  - destruct items as [|i items]; [cbn; lia|].
    cbn [float_free] in Hf. rewrite forallb_forall in Hf.
    cbn [cost dumps_at]. rewrite !length_app.
    pose proof (@join_length_bound json cost (dumps_at (S level))
                  (lit "," ++ newline_indent (S level)) (i :: items)
                  ltac:(discriminate)) as B.
    assert (Forall (fun x => (cost x <= List.length (dumps_at (S level) x))%nat)
                   (i :: items)) as F.
    { rewrite Forall_forall in IH |- *. intros a Ha. apply IH; auto. }
    specialize (B F). cbn [lit List.length newline_indent] in *. lia.
  - destruct members as [|m members]; [cbn; lia|].
    cbn [float_free] in Hf. rewrite forallb_forall in Hf.
    cbn [cost dumps_at]. rewrite member_text_map, !length_app.
    pose proof (@join_length_bound (str * json) (fun kv => cost (snd kv))
                  (member_text (S level))
                  (lit "," ++ newline_indent (S level)) (m :: members)
                  ltac:(discriminate)) as B.
    assert (Forall (fun kv => (cost (snd kv) <=
                               List.length (member_text (S level) kv))%nat)
                   (m :: members)) as F.
    { rewrite Forall_forall in IH |- *. intros a Ha.
      unfold member_text. rewrite !length_app.
      specialize (IH a Ha (Hf a Ha) (S level)). lia. }
    specialize (B F). cbn [lit List.length newline_indent] in *. lia.
Qed.

(** [json.loads(json.dumps(v, indent=2))] is [v], at any nesting level of
    the printer, for a value without floats whose objects have unique
    keys. *)
Lemma json_loads_dumps v level :
  well_keyed v = true -> float_free v = true ->
  json_loads (dumps_at level v) = Some v.
Proof.
  intros Hw Hf. unfold json_loads.
  destruct (dumps_head v level Hf) as (c & cs & E & Hc & _ & _ & _ & Hc128).
  pose proof (cost_le_length v Hf level) as Hcost.
  pose proof (@value_reads_back v Hw Hf level
                (S (2 * List.length (dumps_at level v))) []) as R.
  rewrite app_nil_r in R. rewrite E in *.
  cbn [starts_with_bom]. assert ((c =? 65279) = false) as -> by (n_goal; lia).
  rewrite skip_ws_id by exact Hc.
  rewrite R by (try (now left); lia). reflexivity.
Qed.

(** *** What [json.loads] yields *)

Lemma has_key_dict_set (V : Type) (d : list (str * V)) k v x :
  has_key x (dict_set d k v) = has_key x d || str_eqb x k.
Proof.
  induction d as [|[k' v'] d IH]; unfold has_key in *.
  - cbn. now rewrite orb_false_r.
  - cbn [dict_set]. destruct (str_eqb k k') eqn:E.
    + apply str_eqb_eq in E. subst k'. cbn [existsb fst].
      destruct (str_eqb x k); cbn; [reflexivity | now rewrite orb_false_r].
    + cbn [existsb fst]. rewrite IH. now rewrite orb_assoc.
Qed.

Lemma dict_set_unique (V : Type) (d : list (str * V)) k v :
  unique_keys d = true -> unique_keys (dict_set d k v) = true.
Proof.
  induction d as [|[k' v'] d IH]; [reflexivity|].
  cbn [unique_keys dict_set fst]. intros H. apply andb_true_iff in H.
  destruct H as [H1 H2]. destruct (str_eqb k k') eqn:E.
  - apply str_eqb_eq in E. subst k'. cbn [unique_keys fst]. now rewrite H1, H2.
  - cbn [unique_keys fst]. rewrite has_key_dict_set, IH by exact H2.
    apply negb_true_iff in H1. rewrite H1, str_eqb_sym, E. reflexivity.
Qed.

Lemma dict_set_forallb (V : Type) (ok : V -> bool) (d : list (str * V)) k v :
  forallb (fun kv => ok (snd kv)) d = true -> ok v = true ->
  forallb (fun kv => ok (snd kv)) (dict_set d k v) = true.
Proof.
  intros Hd Hv. induction d as [|[k' v'] d IH]; cbn [dict_set forallb snd] in *.
  - now rewrite Hv.
  - apply andb_true_iff in Hd. destruct Hd as [H1 H2].
    destruct (str_eqb k k'); cbn [forallb snd].
    + now rewrite Hv, H2.
    + now rewrite H1, IH.
Qed.

Lemma forallb_rev (A : Type) (ok : A -> bool) (l : list A) :
  forallb ok (rev l) = forallb ok l.
Proof.
  induction l as [|a l IH]; [reflexivity|]. cbn [rev forallb].
  rewrite forallb_app, IH. cbn. rewrite andb_true_r. apply andb_comm.
Qed.

Lemma scan_literal_leaf (ok : json -> bool) s v r :
  ok JNull = true -> (forall b, ok (JBool b) = true) ->
  (forall z, ok (JInt z) = true) -> (forall x, ok (JFloat x) = true) ->
  scan_literal s = Some (v, r) -> ok v = true.
Proof.
  intros H0 H1 H2 H3. unfold scan_literal.
  repeat match goal with
         | |- context [strip_prefix ?a ?b] => destruct (strip_prefix a b)
         end; try (intros [= <- <-]; auto).
  destruct (match_number s) as [[t r']|]; [|discriminate].
  intros [= <- <-]. unfold number_value. destruct (token_is_float t); auto.
Qed.

Lemma scan_well_keyed fuel :
  (forall s v r, scan_once fuel s = Scanned v r -> well_keyed v = true) /\
  (forall s acc v r, parse_items fuel s acc = Scanned v r ->
                     forallb well_keyed acc = true -> well_keyed v = true) /\
  (forall s acc v r, parse_members fuel s acc = Scanned v r ->
                     unique_keys acc = true ->
                     forallb (fun kv => well_keyed (snd kv)) acc = true ->
                     well_keyed v = true).
Proof.
  induction fuel as [|f (IH1 & IH2 & IH3)]; [repeat split; discriminate|].
  split; [|split].
  - intros [|c s] v r; [discriminate|]. cbn [scan_once].
    destruct (c =? 34).
    { destruct (scanstring s) as [[a b]|]; [|discriminate]. now intros [= <- <-]. }
    destruct (c =? 123).
    { destruct (skip_ws s) as [|c2 r2]; [discriminate|].
      destruct (c2 =? 125); [now intros [= <- <-]|].
      intros H. now apply (IH3 _ _ _ _ H). }
    destruct (c =? 91).
    { destruct (skip_ws s) as [|c2 r2]; [discriminate|].
      destruct (c2 =? 93); [now intros [= <- <-]|].
      intros H. now apply (IH2 _ _ _ _ H). }
    destruct (scan_literal (c :: s)) as [[a b]|] eqn:L; [|discriminate].
    intros [= <- <-]. now apply (@scan_literal_leaf well_keyed _ _ _ eq_refl
                                   (fun _ => eq_refl) (fun _ => eq_refl)
                                   (fun _ => eq_refl) L).
  - intros s acc v r. rewrite parse_items_S.
    destruct (scan_once f s) as [v1 rest| |] eqn:S1; try discriminate.
    destruct (skip_ws rest) as [|c r1]; [discriminate|].
    destruct (c =? 93).
    { intros [= <- <-] Hacc.
      change (well_keyed (JArr ?l)) with (forallb well_keyed l).
      rewrite forallb_app, forallb_rev.
      cbn [forallb]. now rewrite (IH1 _ _ _ S1), Hacc. }
    destruct (c =? 44); [|discriminate].
    intros H Hacc. apply (IH2 _ _ _ _ H). cbn [forallb].
    now rewrite (IH1 _ _ _ S1), Hacc.
  - intros [|q s] acc v r; [discriminate|]. cbn [parse_members].
    destruct (q =? 34); [|discriminate].
    destruct (scanstring s) as [[key rest]|]; [|discriminate].
    destruct (skip_ws rest) as [|colon r2]; [discriminate|].
    destruct (colon =? 58); [|discriminate].
    destruct (scan_once f (skip_ws r2)) as [v1 rest2| |] eqn:S1; try discriminate.
    destruct (skip_ws rest2) as [|c r3]; [discriminate|].
    destruct (c =? 125).
    { intros [= <- <-] Hu Hacc.
      change (well_keyed (JObj ?l))
        with (unique_keys l && forallb (fun kv => well_keyed (snd kv)) l).
      rewrite dict_set_unique by exact Hu.
      rewrite (@dict_set_forallb json well_keyed) by (eauto using IH1). reflexivity. }
    destruct (c =? 44); [|discriminate].
    intros H Hu Hacc. apply (IH3 _ _ _ _ H).
    + now apply dict_set_unique.
    + apply (@dict_set_forallb json well_keyed); eauto.
Qed.

(** A parsed value has each key once in every object. *)
Lemma json_loads_well_keyed s v : json_loads s = Some v -> well_keyed v = true.
Proof.
  unfold json_loads. destruct (starts_with_bom s); [discriminate|].
  destruct (scan_once _ _) as [v' rest| |] eqn:E; try discriminate.
  destruct (skip_ws rest); [|discriminate]. intros [= <-].
  now apply (proj1 (scan_well_keyed _) _ _ _ E).
Qed.

End RoundTripFacts.

Module PatternFacts.
Import Text Clock Capture Regex PyFloat Json Formatter ClockSpec FormatterSpec.
Import JsonSpec RegexSpec.
Import TextFacts ClockFacts RegexFacts JsonFacts FormatterFacts.

Lemma then_sound (first : list (str * str)) (next : str -> list (str * str)) a rest :
  In (a, rest) (then_ first next) ->
  exists a1 r1 b, In (a1, r1) first /\ In (b, rest) (next r1) /\ a = a1 ++ b.
Proof.
  unfold then_. rewrite in_flat_map. intros ([a1 r1] & H1 & H2).
  apply in_map_iff in H2. destruct H2 as ([b r2] & E & H2). cbn [fst snd] in E.
  injection E as <- <-. now exists a1, r1, b.
Qed.

Lemma rep_of_sound r (m : str -> list (str * str)) :
  (forall s a rest, In (a, rest) (m s) -> s = a ++ rest /\ denotes r a) ->
  forall n s a rest,
    In (a, rest) (rep_of m n s) -> s = a ++ rest /\ denotes (Rep n r) a.
Proof.
  intros Hm. induction n as [|n IH]; intros s a rest; cbn [rep_of].
  - intros [[= <- <-] | []]. split; [reflexivity | constructor].
  - intros H. apply then_sound in H. destruct H as (a1 & r1 & b & H1 & H2 & ->).
    destruct (Hm _ _ _ H1) as [-> D1]. destruct (IH _ _ _ H2) as [-> D2].
    split; [now rewrite app_assoc | now constructor].
Qed.

Lemma plus_of_sound r (m : str -> list (str * str)) :
  (forall s a rest, In (a, rest) (m s) -> s = a ++ rest /\ denotes r a) ->
  forall fuel s a rest,
    In (a, rest) (plus_of m fuel s) -> s = a ++ rest /\ denotes (Plus r) a.
Proof.
  intros Hm. induction fuel as [|fuel IH]; intros s a rest; cbn [plus_of]; [intros []|].
  rewrite in_flat_map. intros ([a1 r1] & H1 & H2). cbn [fst snd] in H2.
  destruct (Hm _ _ _ H1) as [-> D1].
  apply in_app_or in H2. destruct H2 as [H2 | [[= <- <-] | []]].
  - destruct (_ <? _)%nat; [|destruct H2].
    apply in_map_iff in H2. destruct H2 as ([b r2] & E & H2). cbn [fst snd] in E.
    injection E as <- <-. destruct (IH _ _ _ H2) as [-> D2].
    split; [now rewrite app_assoc | now apply D_plus_more].
  - split; [reflexivity | now apply D_plus_one].
Qed.

(** Whatever the matcher finds at the start of a text is a text of the
    pattern, and what is left follows it. *)
Lemma matches_sound r : forall s a rest,
  In (a, rest) (matches r s) -> s = a ++ rest /\ denotes r a.
Proof.
  induction r as [p | | | r1 IH1 r2 IH2 | r1 IH1 r2 IH2 | n r IH | r IH];
    intros s a rest; cbn [matches].
  - destruct (strip_prefix p s) as [rest'|] eqn:E; [|intros []].
    intros [[= <- <-] | []]. split; [now apply strip_prefix_some | constructor].
  - destruct s as [|c s]; cbn [one_char]; [intros []|].
    destruct (isdecimal c) eqn:E; [|intros []].
    intros [[= <- <-] | []]. split; [reflexivity | now constructor].
  - destruct s as [|c s]; cbn [one_char]; [intros []|].
    destruct (negb (c =? 10)) eqn:E; [|intros []].
    intros [[= <- <-] | []]. split; [reflexivity|]. constructor.
    apply negb_true_iff in E. now apply N.eqb_neq.
  - intros H. apply then_sound in H. destruct H as (a1 & r & b & H1 & H2 & ->).
    destruct (IH1 _ _ _ H1) as [-> D1]. destruct (IH2 _ _ _ H2) as [-> D2].
    split; [now rewrite app_assoc | now constructor].
  - intros H. apply in_app_or in H. destruct H as [H | H].
    + destruct (IH1 _ _ _ H). split; [assumption | now apply D_alt_l].
    + destruct (IH2 _ _ _ H). split; [assumption | now apply D_alt_r].
  - now apply rep_of_sound.
  - now apply plus_of_sound.
Qed.

Lemma denotes_digits n : forall a, denotes (Rep n Digit) a -> digit_run n a.
Proof.
  induction n as [|n IH]; intros a H; inversion H; subst.
  - split; [reflexivity | constructor].
  - match goal with H1 : denotes Digit _ |- _ => inversion H1; subst end.
    match goal with H2 : denotes (Rep n Digit) _ |- _ =>
      destruct (IH _ H2) as [L F] end.
    split; [cbn; now rewrite L | cbn [app]; now constructor].
Qed.

Ltac invert_pattern :=
  repeat match goal with
         | H : denotes (Seq _ _) _ |- _ => inversion H; subst; clear H
         | H : denotes (Lit _) _ |- _ => inversion H; subst; clear H
         | H : denotes (Alt _ _) _ |- _ => inversion H; subst; clear H
         | H : denotes (Rep _ Digit) _ |- _ => apply denotes_digits in H
         end.

(** The texts of the prefix pattern are the prefixes of records tagged IN
    or OUT. *)
Lemma denotes_pattern_prefix p :
  denotes pattern_prefix p ->
  exists t ts, (t = IN \/ t = OUT) /\ shaped_timestamp ts /\ p = line_prefix t ts.
Proof.
  unfold pattern_prefix, d. intros H. invert_pattern.
  all: match goal with
       | |- exists t ts, _ /\ _ /\
              _ ++ ?y ++ _ ++ ?mo ++ _ ++ ?dd ++ _ ++ ?h ++ _ ++ ?mi ++ _ ++ ?s ++
              _ ++ ?ms ++ _ ++ ?tg ++ _ = _ =>
           exists (if Nat.eqb (List.length tg) 2 then IN else OUT),
                  (y ++ lit "-" ++ mo ++ lit "-" ++ dd ++ lit " " ++ h ++ lit ":" ++
                   mi ++ lit ":" ++ s ++ lit "." ++ ms)
       end; cbn [List.length lit Nat.eqb];
    (split; [auto|]); (split;
      [eexists _, _, _, _, _, _, _; split; [reflexivity|]; auto 10
      |unfold line_prefix; cbn [tag_name]; now rewrite <- !app_assoc]).
Qed.

Lemma exact_denotes r a : exact r a -> denotes r a.
Proof.
  intros H. specialize (H []).
  assert (In (a, []) (matches r (a ++ []))) as K by (rewrite H; now left).
  now apply matches_sound in K.
Qed.

(** A line the formatter does not leave as it is, is a record tagged IN
    or OUT whose content, up to the end of the line, is JSON. *)
Lemma format_line_changes l :
  format_line l = l \/
  exists t ts content tail v,
    (t = IN \/ t = OUT) /\ shaped_timestamp ts /\
    l = line_prefix t ts ++ content ++ tail /\
    content <> [] /\ Forall (fun c => not_newline c = true) content /\
    (tail = [] \/ exists tail', tail = 10 :: tail') /\
    json_loads content = Some v /\
    format_line l = line_prefix t ts ++ indent_continuation (json_dumps v) ++ [NL].
Proof.
  unfold format_line.
  destruct (match_groups pattern_prefix pattern_json l) as [[p a]|] eqn:M; [|now left].
  destruct (json_loads a) as [v|] eqn:J; [|now left].
  right. destruct (match_groups_some _ M) as (Hp & Ha & Hn & tail & -> & Ht).
  destruct (denotes_pattern_prefix (exact_denotes Hp)) as (t & ts & Ht' & Hts & ->).
  exists t, ts, a, tail, v. repeat split; auto.
Qed.

End PatternFacts.

Module CodecFacts.
Import Text Clock Capture ClockSpec.
Import TextFacts ClockFacts.

Lemma to_N_byte_of n : n < 256 -> Byte.to_N (byte_of n) = n.
Proof.
  intros H. unfold byte_of. destruct (Byte.of_N n) eqn:E.
  - now apply Byte.to_of_N.
  - apply Byte.of_N_None_iff in E. lia.
Qed.

Lemma some_inj (A : Type) (x y : A) : Some x = Some y -> x = y.
Proof. congruence. Qed.

Ltac decide_test b v :=
  let E := fresh "E" in
  assert (E : b = v) by (unfold second_ok3, second_ok4, is_continuation;
                         n_goal; try div_lia;
                         repeat match goal with
                                | |- context [if ?x then _ else _] =>
                                    destruct x eqn:?; n_props
                                end; n_goal; div_lia);
  rewrite E; clear E.

(** The decoder reads the UTF-8 form of a scalar value as that value and
    goes on after it. *)
Lemma decode_encoded_char errors c bs rest :
  utf8_encode_char c = Some bs ->
  utf8_decode errors (bs ++ rest) = emit c (utf8_decode errors rest).
Proof.
  unfold utf8_encode_char.
  destruct (c <? 0x80) eqn:E1.
  { intros H. apply some_inj in H. subst bs. n_props. cbn [app utf8_decode].
    rewrite to_N_byte_of by lia. apply N.ltb_lt in E1. now rewrite E1. }
  destruct (c <? 0x800) eqn:E2.
  { intros H. apply some_inj in H. subst bs. n_props. cbn [app utf8_decode].
    rewrite !to_N_byte_of by div_lia.
    decide_test (0xC0 + c / 64 <? 0x80) false.
    decide_test (0xC0 + c / 64 <? 0xC2) false.
    decide_test (0xC0 + c / 64 <? 0xE0) true.
    decide_test (is_continuation (0x80 + c mod 64)) true.
    f_equal. unfold cp2. div_lia. }
  destruct (is_surrogate c) eqn:E3; [discriminate|].
  unfold is_surrogate in E3.
  destruct (c <? 0x10000) eqn:E4.
  { intros H. apply some_inj in H. subst bs. n_props; cbn [app utf8_decode];
      rewrite !to_N_byte_of by div_lia;
      decide_test (0xE0 + c / 4096 <? 0x80) false;
      decide_test (0xE0 + c / 4096 <? 0xC2) false;
      decide_test (0xE0 + c / 4096 <? 0xE0) false;
      decide_test (0xE0 + c / 4096 <? 0xF0) true;
      decide_test (second_ok3 (0xE0 + c / 4096) (0x80 + (c / 64) mod 64)) true;
      decide_test (is_continuation (0x80 + c mod 64)) true;
      f_equal; unfold cp3; div_lia. }
  destruct (c <=? 0x10FFFF) eqn:E5; [|discriminate].
  intros H. apply some_inj in H. subst bs. n_props; cbn [app utf8_decode];
    rewrite !to_N_byte_of by div_lia;
    decide_test (0xF0 + c / 262144 <? 0x80) false;
    decide_test (0xF0 + c / 262144 <? 0xC2) false;
    decide_test (0xF0 + c / 262144 <? 0xE0) false;
    decide_test (0xF0 + c / 262144 <? 0xF0) false;
    decide_test (0xF0 + c / 262144 <? 0xF5) true;
    decide_test (second_ok4 (0xF0 + c / 262144) (0x80 + (c / 4096) mod 64)) true;
    decide_test (is_continuation (0x80 + (c / 64) mod 64)) true;
    decide_test (is_continuation (0x80 + c mod 64)) true;
    f_equal; unfold cp4; div_lia.
Qed.

(** Whatever the text, the bytes it encodes to decode to it, in either
    mode. *)
Lemma utf8_decode_encode errors s : forall b,
  utf8_encode s = Decoded b -> utf8_decode errors b = Decoded s.
Proof.
  induction s as [|c s IH]; cbn [utf8_encode]; intros b.
  - now intros [= <-].
  - destruct (utf8_encode_char c) as [bc|] eqn:Ec; [|discriminate].
    destruct (utf8_encode s) as [bs|]; [|discriminate].
    intros [= <-]. rewrite (decode_encoded_char errors _ bs Ec).
    now rewrite (IH bs eq_refl).
Qed.

Lemma utf8_encode_app_inv a : forall b l,
  utf8_encode (a ++ b) = Decoded l ->
  exists x y, utf8_encode a = Decoded x /\ utf8_encode b = Decoded y /\ l = x ++ y.
Proof.
  induction a as [|c a IH]; cbn [app utf8_encode]; intros b l H.
  - now exists [], l.
  - destruct (utf8_encode_char c) as [bc|]; [|discriminate].
    destruct (utf8_encode (a ++ b)) as [bs|] eqn:E; [|discriminate].
    injection H as <-. destruct (IH _ _ E) as (x & y & -> & Hy & ->).
    exists (bc ++ x), y. now rewrite app_assoc.
Qed.

Lemma utf8_encode_ascii s :
  Forall (fun c => c < 128) s -> utf8_encode s = Decoded (map byte_of s).
Proof.
  induction 1 as [|c s Hc _ IH]; [reflexivity|]. cbn [utf8_encode map].
  unfold utf8_encode_char. apply N.ltb_lt in Hc. now rewrite Hc, IH.
Qed.

Ltac step_done :=
  repeat split; auto; try discriminate;
  first
    [ left; repeat split; auto; n_props; lia
    | right; split;
      [ unfold cp2, cp3, cp4, REPLACEMENT, second_ok3, second_ok4,
          is_continuation in *; n_props; lia
      | repeat constructor;
        unfold second_ok3, second_ok4, is_continuation in *; n_props; lia ] ].

(** The decoder, with replacement, on a text that is not empty: one
    character comes out, an ASCII byte as itself and anything else, made
    of bytes from 0x80 on, as a character from U+0080 on; and the decoder
    goes on with what follows the bytes it took. *)
Lemma decode_step c1 r1 :
  exists c pre tail,
    c1 :: r1 = pre ++ tail /\ pre <> [] /\
    utf8_decode Replace (c1 :: r1) = emit c (utf8_decode Replace tail) /\
    ((c = Byte.to_N c1 /\ c < 0x80 /\ pre = [c1]) \/
     (0x80 <= c /\ Forall (fun b => 0x80 <= Byte.to_N b) pre)).
Proof.
  assert (R : forall tail, on_error Replace (utf8_decode Replace tail) =
                           emit REPLACEMENT (utf8_decode Replace tail))
    by reflexivity.
  assert (R0 : on_error Replace (Decoded []) =
               emit REPLACEMENT (utf8_decode Replace [])) by reflexivity.
  cbn [utf8_decode]. cbv zeta.
  pose proof (Byte.to_N_bounded c1) as B1.
  destruct (Byte.to_N c1 <? 0x80) eqn:E1.
  { exists (Byte.to_N c1), [c1], r1. step_done. }
  destruct (Byte.to_N c1 <? 0xC2) eqn:E2.
  { exists REPLACEMENT, [c1], r1. step_done. }
  destruct (Byte.to_N c1 <? 0xE0) eqn:E3.
  { destruct r1 as [|c2 r2].
    { exists REPLACEMENT, [c1], []. step_done. }
    cbv beta iota zeta. pose proof (Byte.to_N_bounded c2) as B2.
    destruct (is_continuation (Byte.to_N c2)) eqn:E4.
    - exists (cp2 (Byte.to_N c1) (Byte.to_N c2)), [c1; c2], r2. step_done.
    - exists REPLACEMENT, [c1], (c2 :: r2). step_done. }
  destruct (Byte.to_N c1 <? 0xF0) eqn:E4.
  { destruct r1 as [|c2 r2].
    { exists REPLACEMENT, [c1], []. step_done. }
    cbv beta iota zeta. pose proof (Byte.to_N_bounded c2) as B2.
    destruct (second_ok3 (Byte.to_N c1) (Byte.to_N c2)) eqn:E5.
    2: { exists REPLACEMENT, [c1], (c2 :: r2). step_done. }
    destruct r2 as [|c3 r3].
    { exists REPLACEMENT, [c1; c2], []. step_done. }
    cbv beta iota zeta. pose proof (Byte.to_N_bounded c3) as B3.
    destruct (is_continuation (Byte.to_N c3)) eqn:E6.
    - exists (cp3 (Byte.to_N c1) (Byte.to_N c2) (Byte.to_N c3)), [c1; c2; c3], r3.
      step_done.
    - exists REPLACEMENT, [c1; c2], (c3 :: r3). step_done. }
  destruct (Byte.to_N c1 <? 0xF5) eqn:E5.
  2: { exists REPLACEMENT, [c1], r1. step_done. }
  destruct r1 as [|c2 r2].
  { exists REPLACEMENT, [c1], []. step_done. }
  cbv beta iota zeta. pose proof (Byte.to_N_bounded c2) as B2.
  destruct (second_ok4 (Byte.to_N c1) (Byte.to_N c2)) eqn:E6.
  2: { exists REPLACEMENT, [c1], (c2 :: r2). step_done. }
  destruct r2 as [|c3 r3].
  { exists REPLACEMENT, [c1; c2], []. step_done. }
  cbv beta iota zeta. pose proof (Byte.to_N_bounded c3) as B3.
  destruct (is_continuation (Byte.to_N c3)) eqn:E7.
  2: { exists REPLACEMENT, [c1; c2], (c3 :: r3). step_done. }
  destruct r3 as [|c4 r4].
  { exists REPLACEMENT, [c1; c2; c3], []. step_done. }
  cbv beta iota zeta. pose proof (Byte.to_N_bounded c4) as B4.
  destruct (is_continuation (Byte.to_N c4)) eqn:E8.
  - exists (cp4 (Byte.to_N c1) (Byte.to_N c2) (Byte.to_N c3) (Byte.to_N c4)),
           [c1; c2; c3; c4], r4.
    step_done.
  - exists REPLACEMENT, [c1; c2; c3], (c4 :: r4). step_done.
Qed.

Lemma to_N_newline b : Byte.to_N b = 10 -> b = x0a.
Proof.
  intros H. pose proof (Byte.of_to_N b) as E. rewrite H in E.
  cbn in E. congruence.
Qed.

Lemma decode_nil_inv bs : utf8_decode Replace bs = Decoded [] -> bs = [].
Proof.
  destruct bs as [|c1 r1]; [reflexivity|].
  destruct (decode_step c1 r1) as (c & pre & tail & _ & _ & E & _).
  rewrite E. destruct (utf8_decode Replace tail); discriminate.
Qed.

(** A line feed in the decoded text, before its last character, comes
    from a line feed among the bytes before the last. *)
Lemma decode_newlines line : forall text,
  utf8_decode Replace line = Decoded text ->
  Forall (fun b => b <> x0a) (removelast line) ->
  Forall (fun c => c <> 10) (removelast text).
Proof.
  remember (List.length line) as n eqn:Hn.
  revert line Hn. induction n as [n IH] using lt_wf_ind. intros line Hn text D Hl.
  destruct line as [|c1 r1]; [injection D as <-; constructor|].
  destruct (decode_step c1 r1) as (c & pre & tail & Es & Hpre & E & Hc).
  rewrite E in D.
  destruct (utf8_decode Replace tail) as [text'|] eqn:D'; [|discriminate].
  injection D as <-.
  destruct text' as [|c' text'']; [constructor|].
  assert (Ht : tail <> []).
  { intros ->. discriminate. }
  rewrite Es, removelast_app in Hl by exact Ht.
  apply Forall_app in Hl. destruct Hl as [Hp Hl].
  change (removelast (c :: c' :: text'')) with (c :: removelast (c' :: text'')).
  constructor.
  - destruct Hc as [(-> & _ & ->) | [Hc _]]; [|lia].
    inversion Hp as [|? ? Hc1 _]; subst. intros H. now apply Hc1, to_N_newline.
  - apply (IH (List.length tail)) with (line := tail); auto.
    subst n. rewrite Es, length_app. destruct pre; [congruence | simpl; lia].
Qed.

(** The content of the record of a line as [readline] returns it, ending
    at the first line feed, holds no line feed. *)
Lemma record_content_no_newline line text :
  utf8_decode Replace line = Decoded text ->
  Forall (fun b => b <> x0a) (removelast line) ->
  Forall (fun c => c <> 10) (rstrip text).
Proof.
  intros D Hl. pose proof (decode_newlines _ D Hl) as H.
  destruct text as [|c0 text0]; [constructor|].
  rewrite (@app_removelast_last _ (c0 :: text0) 0) by discriminate.
  set (body := removelast (c0 :: text0)) in *.
  destruct (N.eq_dec (last (c0 :: text0) 0) 10) as [E | E].
  - rewrite E, rstrip_app_space by (repeat constructor). now apply rstrip_Forall.
  - apply rstrip_Forall, Forall_app. split; [exact H | repeat constructor; exact E].
Qed.

Lemma ascii_digit_small c : is_ascii_digit c = true -> c < 128.
Proof. unfold is_ascii_digit. intros H. n_props. lia. Qed.

Lemma digits_ascii w n : Forall (fun c => c < 128) (digits w n).
Proof.
  eapply Forall_impl; [|apply digits_are_digits]. intros c. apply ascii_digit_small.
Qed.

Lemma timestamp_ascii now : Forall (fun c => c < 128) (timestamp now).
Proof.
  unfold timestamp, drop_last. apply Forall_firstn'.
  unfold strftime. rewrite !Forall_app.
  repeat split; try apply digits_ascii; try (repeat constructor; fail).
  unfold strftime_Y.
  destruct (_ <? 10); [apply digits_ascii|].
  destruct (_ <? 100); [apply digits_ascii|].
  destruct (_ <? 1000); apply digits_ascii.
Qed.

Lemma line_prefix_ascii t now :
  Forall (fun c => c < 128)
         (lit "[" ++ timestamp now ++ lit "] " ++ tag_name t ++ lit ": ").
Proof.
  rewrite !Forall_app.
  repeat split; try apply timestamp_ascii; try (repeat constructor; fail).
  destruct t; repeat constructor.
Qed.

(** The record of a line that is the UTF-8 form of a text: the prefix in
    ASCII, the bytes of the line up to its trailing whitespace, and a line
    feed. *)
Lemma log_entry_verbatim t now text line :
  utf8_encode text = Decoded line ->
  exists kept ws,
    line = kept ++ ws /\
    utf8_encode (rstrip text) = Decoded kept /\
    (exists blanks, utf8_encode blanks = Decoded ws /\
                    Forall (fun c => isspace c = true) blanks) /\
    log_entry t now line =
      Decoded (map byte_of (lit "[" ++ timestamp now ++ lit "] " ++ tag_name t ++
                            lit ": ") ++ kept ++ [x0a]).
Proof.
  intros E. unfold log_entry. rewrite (utf8_decode_encode Replace _ E).
  destruct (rstrip_split text) as (blanks & Hs & Hb).
  rewrite Hs in E at 1. destruct (utf8_encode_app_inv _ _ E) as (kept & ws & Ek & Ew & ->).
  exists kept, ws. split; [reflexivity|]. split; [exact Ek|].
  split; [now exists blanks|].
  unfold record_text.
  replace (lit "[" ++ timestamp now ++ lit "] " ++ tag_name t ++ lit ": " ++
           rstrip text ++ [Capture.NL])
    with ((lit "[" ++ timestamp now ++ lit "] " ++ tag_name t ++ lit ": ") ++
          rstrip text ++ [Capture.NL])
    by now rewrite <- !app_assoc.
  apply utf8_encode_app; [apply utf8_encode_ascii, line_prefix_ascii|].
  apply utf8_encode_app; [exact Ek | reflexivity].
Qed.

(** The ASCII characters of a text, of bytes. *)
Lemma ascii_survive line : forall text,
  utf8_decode Replace line = Decoded text ->
  filter (fun c => c <? 0x80) text =
  filter (fun c => c <? 0x80) (map Byte.to_N line).
Proof.
  remember (List.length line) as n eqn:Hn.
  revert line Hn. induction n as [n IH] using lt_wf_ind. intros line Hn text D.
  destruct line as [|c1 r1]; [injection D as <-; reflexivity|].
  destruct (decode_step c1 r1) as (c & pre & tail & Es & Hpre & E & Hc).
  rewrite E in D.
  destruct (utf8_decode Replace tail) as [text'|] eqn:D'; [|discriminate].
  injection D as <-.
  assert (IHt : filter (fun c => c <? 0x80) text' =
                filter (fun c => c <? 0x80) (map Byte.to_N tail)).
  { apply (IH (List.length tail)) with (line := tail); auto.
    subst n. rewrite Es, length_app. destruct pre; [congruence | simpl; lia]. }
  rewrite Es, map_app, filter_app. cbn [filter]. rewrite IHt.
  destruct Hc as [(-> & Hc & ->) | [Hc Hp]].
  - cbn [map filter app]. apply N.ltb_lt in Hc. now rewrite Hc.
  - assert ((c <? 0x80) = false) as -> by (n_goal; lia).
    assert (filter (fun c => c <? 0x80) (map Byte.to_N pre) = []) as ->;
      [|reflexivity].
    clear -Hp. induction Hp as [|b pre Hb _ IH]; [reflexivity|].
    cbn [map filter]. assert ((Byte.to_N b <? 0x80) = false) as -> by (n_goal; lia).
    exact IH.
Qed.

End CodecFacts.

Module PipelineFacts.
Import Text Clock Capture Regex PyFloat Json Formatter ClockSpec FormatterSpec.
Import JsonSpec RegexSpec.
Import TextFacts ClockFacts RegexFacts JsonFacts FormatterFacts CodecFacts.

Lemma ascii_digit_isdecimal c : is_ascii_digit c = true -> isdecimal c = true.
Proof.
  unfold is_ascii_digit, isdecimal, decimal_ranges. intros H.
  cbn [existsb fst snd]. now rewrite H.
Qed.

Lemma digits_run w n : digit_run w (digits w n).
Proof.
  split; [apply digits_length|].
  eapply Forall_impl; [|apply digits_are_digits].
  intros c. apply ascii_digit_isdecimal.
Qed.

(** The timestamp of a record has the layout the formatter looks for. *)
Lemma timestamp_shaped now : 1000 <= year now -> shaped_timestamp (timestamp now).
Proof.
  intros Hy. rewrite (timestamp_iso_millis now Hy). unfold iso_millis.
  eexists _, _, _, _, _, _, _. split; [reflexivity|].
  repeat split; try apply digits_length;
    (eapply Forall_impl; [|apply digits_are_digits]);
    intros c; apply ascii_digit_isdecimal.
Qed.

Lemma record_text_prefix t ts content :
  record_text t ts content = line_prefix t ts ++ content ++ [10].
Proof. unfold record_text, line_prefix. now rewrite <- !app_assoc. Qed.

Lemma not_newline_Forall s :
  Forall (fun c => c <> 10) s -> Forall (fun c => not_newline c = true) s.
Proof. apply Forall_impl. intros c. apply not_newline_spec. Qed.

(** What the formatter makes of the record of a line. *)
Lemma record_groups t now line text :
  1000 <= year now ->
  utf8_decode Replace line = Decoded text ->
  Forall (fun b => b <> x0a) (removelast line) ->
  match_groups pattern_prefix pattern_json
    (record_text t (timestamp now) (rstrip text)) =
  if tag_eqb t ERR then None
  else match rstrip text with
       | [] => None
       | _ :: _ => Some (line_prefix t (timestamp now), rstrip text)
       end.
Proof.
  intros Hy D Hl. pose proof (timestamp_shaped now Hy) as Hts.
  rewrite record_text_prefix.
  destruct (tag_eqb t ERR) eqn:Et.
  - destruct t; try discriminate.
    rewrite match_groups_spec, err_line_unmatched by exact Hts. reflexivity.
  - assert (Ht : t <> ERR) by (intros ->; discriminate).
    pose proof (exact_pattern_prefix Ht Hts) as Hp.
    destruct (rstrip text) as [|c cs] eqn:R.
    + rewrite match_groups_spec, Hp. reflexivity.
    + rewrite <- R. apply match_groups_line; auto.
      * congruence.
      * apply not_newline_Forall. now apply (record_content_no_newline line).
      * right. now exists [].
Qed.

(** A text made of complete lines is read as these lines. *)
Lemma readlines_complete_lines ls :
  Forall complete_line ls -> readlines (List.concat ls) = ls.
Proof.
  intros H. unfold readlines.
  assert (N : Forall (fun c => no_cr c = true) (List.concat ls)).
  { induction H as [|l ls (body & Hb & ->) _ IH]; [constructor|].
    cbn [List.concat].
    apply Forall_app; split;
      [apply Forall_app; split; [now apply line_body_no_cr | repeat constructor]
      | exact IH]. }
  rewrite (universal_newlines_id N). clear N.
  induction H as [|l ls (body & Hb & ->) _ IH]; [reflexivity|].
  cbn [List.concat]. rewrite <- app_assoc. cbn [app].
  rewrite split_lines_first by now apply line_body_not_newline.
  now rewrite IH.
Qed.

Lemma universal_newlines_app x y :
  Forall (fun c => no_cr c = true) x ->
  universal_newlines (x ++ y) = x ++ universal_newlines y.
Proof.
  induction 1 as [|c x Hc _ IH]; [reflexivity|]. cbn [app universal_newlines].
  now rewrite (no_cr_eqb _ Hc), IH.
Qed.

(** A carriage return inside a line ends the line for the reader. *)
Lemma readlines_carriage_return a b :
  line_body a -> line_body b -> b <> [] ->
  readlines (a ++ [CR] ++ b ++ [NL]) = [a ++ [NL]; b ++ [NL]].
Proof.
  intros Ha Hb Hn. unfold readlines.
  rewrite universal_newlines_app by now apply line_body_no_cr.
  destruct b as [|c b]; [congruence|].
  inversion Hb as [|? ? [Hc1 Hc2] Hb']; subst.
  cbn [app universal_newlines]. change (CR =? CR) with true. cbv iota.
  rewrite (not_newline_eqb _ Hc1), (no_cr_eqb _ Hc2).
  rewrite universal_newlines_id
    by (apply Forall_app; split; [now apply line_body_no_cr | repeat constructor]).
  rewrite split_lines_first by now apply line_body_not_newline.
  change (c :: b ++ [NL]) with ((c :: b) ++ NL :: []).
  rewrite split_lines_first by now apply line_body_not_newline.
  reflexivity.
Qed.

(** Lines the formatter leaves alone come out as they were read. *)
Lemma format_json_logs_unchanged content :
  Forall (fun l => format_line l = l) (readlines content) ->
  format_json_logs content = universal_newlines content.
Proof.
  intros H. unfold format_json_logs, format_lines.
  rewrite (map_fixed _ H). unfold readlines. apply concat_split_lines.
Qed.

Lemma format_line_no_bracket l :
  (forall r, l <> 91 :: r) -> format_line l = l.
Proof.
  intros H. apply format_line_unmatched. destruct l as [|c r]; [reflexivity|].
  apply unmatched_start. intros ->. now apply (H r).
Qed.

End PipelineFacts.

Module RelayExitFacts.
Import Text Clock Capture ClockSpec CaptureSpec RelaySpec RelayMore.
Import TextFacts ClockFacts CaptureFacts SupervisorFacts RelayFacts.

(** A block of the stdin relay that ends the relay from inside its loop
    leaves the child's stdin closing. *)
Lemma block_closes wc now p es :
  block IN wc now p es Finished -> p <> Unstarted ->
  wc || existsb (fun e => match e with ChildStdinClose => true | _ => false end) es = true.
Proof.
  intros B Hp. destruct wc; [reflexivity|]. cbn [orb].
  inversion B; subst; try congruence; rewrite ?existsb_app; cbn;
    rewrite ?orb_true_r; try reflexivity.
  all: match goal with H : next_pc IN = Finished |- _ => discriminate H end.
Qed.

Lemma block_target t wc now p es p' : block t wc now p es p' -> p' <> Unstarted.
Proof. intros B. inversion B; subst; try discriminate. destruct t; discriminate. Qed.

Lemma stdin_inv_begun s :
  at_pc (stdin_task s) = AtReadline \/ at_pc (stdin_task s) = AtDrain ->
  stdin_inv s.
Proof. intros [H|H]; split; rewrite H; discriminate. Qed.

Lemma stdin_inv_step l s s' : stdin_inv s -> step l s = Some s' -> stdin_inv s'.
Proof.
  intros [I1 I2] St. destruct l as [t now r | code | | f |].
  - apply step_has_effect in St.
    inversion St as [? ? ? p' es Hp B _ | | ? w [E | [f E]] |]; subst;
      try discriminate.
    unfold stdin_inv. cbn [env set_task set_env after_block trace stdin_closing].
    assert (Es : stdin_task (set_task t {| at_pc := p'; must_cancel := false |}
                               (set_env (after_block (env s) es) s)) =
                 if tag_eqb t IN then {| at_pc := p'; must_cancel := false |}
                 else stdin_task s) by (destruct t; reflexivity).
    assert (Ee : env (set_task t {| at_pc := p'; must_cancel := false |}
                               (set_env (after_block (env s) es) s)) =
                 after_block (env s) es) by (destruct t; reflexivity).
    rewrite Es, Ee. cbn [after_block trace stdin_closing].
    destruct (tag_eqb t IN) eqn:Et.
    + apply tag_eqb_eq in Et. subst t. cbn [at_pc task_of] in *. split.
      * now apply block_target in B.
      * intros ->. apply (block_closes B). exact I1.
    + split; [exact I1|]. intros Hf. now rewrite (I2 Hf).
  - cbn [step] in St. destruct (returncode s); [discriminate|].
    injection St as <-. exact (conj I1 I2).
  - cbn [step] in St. injection St as <-. split; [exact I1|]. intros _. reflexivity.
  - cbn [step] in St. injection St as <-. exact (conj I1 I2).
  - apply step_has_effect in St.
    inversion St as [ | | ? w [E | [f E]]
                    | code cancels k_in k_out k_err sup Hs Hr Hsup Hc Hk];
      subst; try discriminate.
    unfold stdin_inv. cbn [env stdin_task trace stdin_closing].
    destruct (Hk IN (stdin_task s) k_in (or_introl eq_refl)) as [Ek _].
    rewrite Ek. exact (conj I1 I2).
Qed.

Lemma stdin_inv_run ls s s' :
  stdin_inv s -> run ls s = Some s' -> stdin_inv s'.
Proof.
  intros I. revert s'.
  apply (@run_invariant (fun _ s => stdin_inv s)).
  - exact I.
  - intros ? l s1 s2 _ I' St. exact (stdin_inv_step l I' St).
Qed.

(** *** The first failure of an iteration *)

Lemma failed_log_write t now line w :
  line <> [] -> log_file w = OpenFile -> faulty w OpLogWrite = true ->
  wake t {| at_pc := AtReadline; must_cancel := false |} now (Value line) w =
    (Ok {| at_pc := Finished; must_cancel := false |},
     after_block w ([ReadLine t line; LoggerError t "OSError"] ++
                    closing_events t (stdin_closing w))).
Proof.
  intros Hl Hf Hq.
  destruct (log_entry_total t now line) as (text & entry & _ & _ & L).
  destruct w as [lf sc fl tr]. cbn [log_file faulty stdin_closing] in *. subst lf.
  destruct line as [|b line]; [congruence|].
  destruct t; unfold_relay; cbn [at_pc must_cancel]; rewrite L;
    cbn [log_file stdin_closing faulty trace];
    rewrite ?Hq; cbn [log_file stdin_closing faulty trace];
    try destruct sc; unfold after_block; cbn; rewrite <- ?app_assoc; reflexivity.
Qed.

Lemma failed_forward t now line entry w :
  t <> IN -> line <> [] -> log_entry t now line = Decoded entry ->
  log_file w = OpenFile ->
  faulty w OpLogWrite = false -> faulty w OpLogFlush = false ->
  faulty w (OpDestWrite t) = true ->
  wake t {| at_pc := AtReadline; must_cancel := false |} now (Value line) w =
    (Ok {| at_pc := Finished; must_cancel := false |},
     after_block w [ReadLine t line; LogWrite t entry; LogFlush t;
                    LoggerError t "OSError"]).
Proof.
  intros Ht Hl L Hf Hw Hfl Hd.
  destruct w as [lf sc fl tr]. cbn [log_file faulty stdin_closing] in *. subst lf.
  destruct line as [|b line]; [congruence|].
  destruct t; [congruence | |]; unfold_relay; cbn [at_pc must_cancel]; rewrite L;
    cbn [log_file stdin_closing faulty trace];
    rewrite ?Hw; cbn [log_file stdin_closing faulty trace];
    rewrite ?Hfl; cbn [log_file stdin_closing faulty trace];
    rewrite ?Hd; cbn [log_file stdin_closing faulty trace];
    unfold after_block; cbn; rewrite <- ?app_assoc, ?orb_false_r; reflexivity.
Qed.

End RelayExitFacts.

Module NamingFacts.
Import Text Clock ClockSpec Naming.
Import TextFacts ClockFacts.

Lemma app_same_length (A : Type) (a1 b1 a2 b2 : list A) :
  List.length a1 = List.length b1 -> a1 ++ a2 = b1 ++ b2 -> a1 = b1 /\ a2 = b2.
Proof.
  revert b1. induction a1 as [|x a1 IH]; intros [|y b1] L E; try discriminate.
  - now split.
  - cbn in L, E. injection E as -> E. injection L as L.
    destruct (IH _ L E) as [-> ->]. now split.
Qed.

Lemma digit_inj n m : digit n = digit m -> n mod 10 = m mod 10.
Proof. unfold digit. lia. Qed.

Lemma digits_inj w : forall n m,
  digits w n = digits w m -> n mod 10 ^ N.of_nat w = m mod 10 ^ N.of_nat w.
Proof.
  induction w as [|w IH]; intros n m E.
  - cbn. now rewrite !N.mod_1_r.
  - rewrite !digits_S in E. apply app_inj_tail in E. destruct E as [E1 E2].
    apply IH in E1. apply digit_inj in E2.
    rewrite Nat2N.inj_succ, N.pow_succ_r'.
    rewrite !N.Div0.mod_mul_r. now rewrite E1, E2.
Qed.

Lemma digits_eq w n m :
  n < 10 ^ N.of_nat w -> m < 10 ^ N.of_nat w -> digits w n = digits w m -> n = m.
Proof.
  intros Hn Hm E. apply digits_inj in E.
  now rewrite !N.mod_small in E by assumption.
Qed.

Lemma valid_datetime_bounds d :
  valid_datetime d = true ->
  year d < 10000 /\ month d < 100 /\ day d < 100 /\ hour d < 100 /\
  minute d < 100 /\ second d < 100 /\ microsecond d / 1000 < 1000.
Proof.
  unfold valid_datetime. intros H. n_props. repeat split; try lia. div_lia.
Qed.

Lemma strftime_Y_four y : 1000 <= y -> strftime_Y y = digits 4 y.
Proof.
  intros H. unfold strftime_Y.
  assert ((y <? 10) = false) as -> by (n_goal; lia).
  assert ((y <? 100) = false) as -> by (n_goal; lia).
  assert ((y <? 1000) = false) as -> by (n_goal; lia). reflexivity.
Qed.

Ltac split_field :=
  match goal with
  | E : digits ?w ?n ++ _ = digits ?w ?m ++ _ |- _ =>
      apply app_same_length in E; [|now rewrite !digits_length];
      let E1 := fresh "F" in destruct E as [E1 E];
      apply digits_eq in E1; [|cbn; lia|cbn; lia]
  | E : lit ?s ++ _ = lit ?s ++ _ |- _ => apply app_inv_head in E
  end.

(** The compact timestamps of two clock readings are the same just when
    the readings are within the same second. *)
Lemma strftime_compact_same a b :
  valid_datetime a = true -> valid_datetime b = true ->
  1000 <= year a -> 1000 <= year b ->
  (strftime_compact a = strftime_compact b <-> same_second a b).
Proof.
  intros Va Vb Ya Yb.
  destruct (valid_datetime_bounds a Va) as (A1 & A2 & A3 & A4 & A5 & A6 & _).
  destruct (valid_datetime_bounds b Vb) as (B1 & B2 & B3 & B4 & B5 & B6 & _).
  unfold strftime_compact, same_second. rewrite !strftime_Y_four by assumption.
  split.
  - intros E. repeat split_field.
    rewrite <- (app_nil_r (digits 2 (second a))) in E.
    rewrite <- (app_nil_r (digits 2 (second b))) in E.
    split_field. auto 10.
  - intros (-> & -> & -> & -> & -> & ->). reflexivity.
Qed.

(** *** The order of timestamps *)

Lemma str_lt_same c s t : str_lt (c :: s) (c :: t) = str_lt s t.
Proof. cbn [str_lt]. now rewrite N.ltb_irrefl, N.eqb_refl. Qed.

Lemma str_lt_lit (w : string) s t : str_lt (lit w ++ s) (lit w ++ t) = str_lt s t.
Proof. induction (lit w) as [|c l IH]; [reflexivity|]. cbn [app]. now rewrite str_lt_same. Qed.

Lemma order_step q q' r r' (x : bool) :
  r < 10 -> r' < 10 ->
  (q <? q') || ((q =? q') &&
    ((48 + r <? 48 + r') || ((48 + r =? 48 + r') && x))) =
  (10 * q + r <? 10 * q' + r') || ((10 * q + r =? 10 * q' + r') && x).
Proof.
  intros Hr Hr'.
  destruct (N.ltb_spec q q'), (N.eqb_spec q q'),
           (N.ltb_spec (48 + r) (48 + r')), (N.eqb_spec (48 + r) (48 + r')),
           (N.ltb_spec (10 * q + r) (10 * q' + r')),
           (N.eqb_spec (10 * q + r) (10 * q' + r')); cbn; try reflexivity; try lia.
Qed.

(** Fields of the same width compare as the numbers they show. *)
Lemma str_lt_digits w : forall n m s t,
  n < 10 ^ N.of_nat w -> m < 10 ^ N.of_nat w ->
  str_lt (digits w n ++ s) (digits w m ++ t) =
  (n <? m) || ((n =? m) && str_lt s t).
Proof.
  induction w as [|w IH]; intros n m s t Hn Hm.
  - cbn in Hn, Hm. assert (n = 0) as -> by lia. assert (m = 0) as -> by lia.
    reflexivity.
  - rewrite Nat2N.inj_succ, N.pow_succ_r' in Hn, Hm.
    rewrite !digits_S, <- !app_assoc. cbn [app].
    rewrite IH by div_lia. cbn [str_lt]. unfold digit.
    rewrite order_step by (apply N.mod_lt; lia).
    now rewrite <- !N.div_mod' .
Qed.

(** The transcript timestamps of two clock readings compare, as text, the
    way the readings do down to the millisecond. *)
Lemma timestamp_order a b :
  valid_datetime a = true -> valid_datetime b = true ->
  1000 <= year a -> 1000 <= year b ->
  str_lt (timestamp a) (timestamp b) = str_lt (shown_fields a) (shown_fields b).
Proof.
  intros Va Vb Ya Yb.
  destruct (valid_datetime_bounds a Va) as (A1 & A2 & A3 & A4 & A5 & A6 & A7).
  destruct (valid_datetime_bounds b Vb) as (B1 & B2 & B3 & B4 & B5 & B6 & B7).
  rewrite !timestamp_iso_millis by assumption. unfold iso_millis, shown_fields.
  rewrite <- (app_nil_r (digits 3 (microsecond a / 1000))).
  rewrite <- (app_nil_r (digits 3 (microsecond b / 1000))).
  repeat (rewrite str_lt_digits by (cbn; lia); rewrite ?str_lt_lit).
  reflexivity.
Qed.

End NamingFacts.

Module OutputPathFacts.
Import Text OutputPath.

Lemma rfind_dot_app a : forall b,
  rfind_dot (a ++ b) =
  match rfind_dot b with
  | Some i => Some (List.length a + i)%nat
  | None => rfind_dot a
  end.
Proof.
  induction a as [|c a IH]; intros b; cbn [app rfind_dot List.length].
  - now destruct (rfind_dot b).
  - rewrite IH. destruct (rfind_dot b); [reflexivity|]. reflexivity.
Qed.

(** Where the last dot is: none after it. *)
Lemma rfind_dot_some name : forall i,
  rfind_dot name = Some i ->
  (i < List.length name)%nat /\
  exists rest, skipn i name = 46 :: rest /\ rfind_dot rest = None.
Proof.
  induction name as [|c name IH]; intros i; cbn [rfind_dot]; [discriminate|].
  destruct (rfind_dot name) as [j|] eqn:E.
  - intros [= <-]. destruct (IH j eq_refl) as (L & rest & S & R).
    split; [cbn; lia|]. exists rest. now cbn [skipn].
  - destruct (c =? 46) eqn:Ec; [|discriminate]. intros [= <-].
    apply N.eqb_eq in Ec. subst c. split; [cbn; lia|]. now exists name.
Qed.

Lemma stem_suffix name : stem name ++ suffix name = name.
Proof.
  unfold stem, suffix. destruct (rfind_dot name) as [i|]; [|apply app_nil_r].
  destruct (_ && _); [apply firstn_skipn | apply app_nil_r].
Qed.

(** A suffix is a dot followed by at least one character, none of them a
    dot. *)
Lemma suffix_shape name c r :
  suffix name = c :: r -> c = 46 /\ r <> [] /\ rfind_dot r = None.
Proof.
  unfold suffix. destruct (rfind_dot name) as [i|] eqn:E; [|discriminate].
  destruct ((0 <? i)%nat && (i <? List.length name - 1)%nat) eqn:B; [|discriminate].
  destruct (rfind_dot_some _ E) as (L & rest & S & R).
  rewrite S. intros [= <- <-]. split; [reflexivity|]. split; [|exact R].
  intros ->. apply andb_true_iff in B. destruct B as [_ B].
  apply Nat.ltb_lt in B.
  pose proof (length_skipn i name) as K. rewrite S in K. cbn in K. lia.
Qed.

Lemma suffix_of_renamed (base : str) r :
  base <> [] -> r <> [] -> rfind_dot r = None ->
  suffix (base ++ 46 :: r) = 46 :: r /\ stem (base ++ 46 :: r) = base.
Proof.
  intros Hb Hr R. unfold suffix, stem.
  rewrite rfind_dot_app. cbn [rfind_dot]. rewrite R. cbn [N.eqb Pos.eqb].
  change (46 =? 46) with true. cbv iota. rewrite Nat.add_0_r.
  assert (B : ((0 <? List.length base)%nat &&
               (List.length base <? List.length (base ++ 46%N :: r) - 1)%nat) = true).
  { rewrite length_app. cbn [List.length].
    apply andb_true_iff. split; apply Nat.ltb_lt.
    - destruct base; [congruence | cbn; lia].
    - destruct r; [congruence | cbn; lia]. }
  rewrite B. split.
  - rewrite skipn_app, Nat.sub_diag, skipn_all. reflexivity.
  - rewrite firstn_app, Nat.sub_diag, firstn_all. cbn. apply app_nil_r.
Qed.

(** What the formatter does by default: it writes beside the input, under
    the name of the input with [_formatted] before the suffix. *)
Lemma sibling_name name n :
  output_target None name = Sibling n \/ output_target (Some []) name = Sibling n ->
  n = stem name ++ lit "_formatted" ++ suffix name /\
  n <> name /\ suffix n = suffix name /\
  stem n = stem name ++ lit "_formatted".
Proof.
  intros H.
  assert (E : match suffix name with
              | [] => Console
              | _ :: _ => Sibling (stem name ++ lit "_formatted" ++ suffix name)
              end = Sibling n) by (destruct H as [H | H]; exact H).
  clear H. destruct (suffix name) as [|c r] eqn:S; [discriminate|].
  injection E as <-. destruct (suffix_shape _ S) as (-> & Hr & R).
  split; [reflexivity|]. split.
  - intros K. pose proof (stem_suffix name) as T. rewrite S in T.
    rewrite <- T in K at 2. apply app_inv_head in K.
    apply (f_equal (@List.length N)) in K. cbn in K. lia.
  - assert (H1 : stem name ++ lit "_formatted" <> [])
      by (destruct (stem name); discriminate).
    pose proof (@suffix_of_renamed (stem name ++ lit "_formatted") r H1 Hr R) as Q.
    rewrite <- app_assoc in Q. exact Q.
Qed.

End OutputPathFacts.

(** ** Further properties of the formatter *)

Module FormatterProperties.
Import Text Clock Capture Regex PyFloat Json Formatter ClockSpec FormatterSpec.
Import JsonSpec RegexSpec OutputPath Scenario Samples.
Import TextFacts ClockFacts RegexFacts JsonFacts FormatterFacts RoundTripFacts.
Import PatternFacts PipelineFacts OutputPathFacts.

(** X1. A value without floats, whose objects have each key once, is read
    back by [json.loads] from the text [json.dumps] prints for it with
    indentation 2, whatever the nesting level the printer starts at. *)
Theorem printed_value_reads_back v level :
  well_keyed v = true -> float_free v = true ->
  json_loads (dumps_at level v) = Some v /\
  json_loads (json_dumps v) = Some v.
Proof.
  intros Hw Hf. split; now apply json_loads_dumps.
Qed.

Lemma printed_value_reads_back_witness :
  well_keyed sample_value = true /\ float_free sample_value = true /\
  json_loads (json_dumps sample_value) = Some sample_value.
Proof.
  split; [reflexivity|]. split; [reflexivity|].
  exact (proj2 (@printed_value_reads_back sample_value 0 eq_refl eq_refl)).
Defined.

(** X2. The formatter changes the layout of a record's JSON, not its
    value: for a record tagged IN or OUT whose content parses to a value
    without floats, what is written after the prefix parses to the same
    value. *)
Theorem formatted_record_keeps_value t ts content tail v :
  t <> ERR -> shaped_timestamp ts -> content <> [] ->
  Forall (fun c => not_newline c = true) content ->
  tail = [] \/ tail = [NL] ->
  json_loads content = Some v -> float_free v = true ->
  exists block,
    format_line (line_prefix t ts ++ content ++ tail) =
      line_prefix t ts ++ block ++ [NL] /\
    json_loads block = Some v.
Proof.
  intros Ht Hts Hc Hn Htail Hv Hf.
  exists (indent_continuation (json_dumps v)). split.
  - apply format_line_json; auto.
    + now apply exact_pattern_prefix.
    + destruct Htail as [-> | ->]; [now left | right; now exists []].
  - unfold json_dumps. rewrite indent_dumps.
    apply json_loads_dumps; [|exact Hf]. now apply (json_loads_well_keyed content).
Qed.

Lemma formatted_record_keeps_value_witness :
  json_loads scenario_content = Some scenario_value /\
  exists block,
    format_line (scenario_line ++ [NL]) =
      line_prefix OUT scenario_ts ++ block ++ [NL] /\
    json_loads block = Some scenario_value.
Proof.
  split; [reflexivity|].
  assert (S : shaped_timestamp scenario_ts).
  { exists (lit "2024"), (lit "01"), (lit "01"), (lit "00"), (lit "00"),
           (lit "00"), (lit "000").
    split; [reflexivity|]. repeat split; repeat constructor. }
  destruct (@formatted_record_keeps_value OUT scenario_ts scenario_content [NL]
              scenario_value ltac:(discriminate) S ltac:(discriminate)
              ltac:(repeat constructor) (or_intror eq_refl) eq_refl eq_refl)
    as (block & E & L).
  exists block. split; [exact E | exact L].
Defined.

(** X3. Indenting the lines after the first of a printed value by two
    spaces gives exactly what the printer writes for the value one nesting
    level deeper: the block of a record is the value as it would be printed
    inside an enclosing array. *)
Theorem continuation_indent_is_one_level_deeper v level :
  indent_continuation (dumps_at level v) = dumps_at (S level) v /\
  indent_continuation (json_dumps v) = dumps_at 1 v.
Proof. split; apply indent_dumps. Qed.

(** X4. What [json.loads] returns has each key once in every object, at
    every depth, whatever the text repeats: the formatter writes no key
    twice. *)
Theorem parsed_objects_have_unique_keys s v :
  json_loads s = Some v -> well_keyed v = true.
Proof. apply json_loads_well_keyed. Qed.

Lemma parsed_objects_have_unique_keys_witness :
  json_loads duplicate_keys = Some (JObj [(lit "a", JInt 2)]) /\
  well_keyed (JObj [(lit "a", JInt 2)]) = true.
Proof.
  split; [reflexivity|].
  exact (@parsed_objects_have_unique_keys duplicate_keys
           (JObj [(lit "a", JInt 2)]) eq_refl).
Defined.

(** X5. The only lines the formatter changes are records tagged IN or
    OUT, with a timestamp of the layout [DDDD-DD-DD DD:DD:DD.DDD], whose
    content up to the end of the line parses as JSON; every other line is
    kept as it is. *)
Theorem only_in_out_json_records_change l :
  format_line l = l \/
  exists t ts content tail v,
    (t = IN \/ t = OUT) /\ shaped_timestamp ts /\
    l = line_prefix t ts ++ content ++ tail /\
    content <> [] /\ Forall (fun c => not_newline c = true) content /\
    (tail = [] \/ exists tail', tail = 10 :: tail') /\
    json_loads content = Some v /\
    format_line l = line_prefix t ts ++ indent_continuation (json_dumps v) ++ [NL].
Proof. apply format_line_changes. Qed.

(** X6. A file in which no line starts with an opening bracket comes out
    of the formatter as it was read: the same text, with each line end
    ([\r\n] or [\r]) as a line feed. *)
Theorem file_without_records_is_copied content :
  Forall (fun l => forall r, l <> 91 :: r) (readlines content) ->
  format_json_logs content = universal_newlines content /\
  (Forall (fun c => no_cr c = true) content -> format_json_logs content = content).
Proof.
  intros H.
  assert (E : format_json_logs content = universal_newlines content).
  { apply format_json_logs_unchanged. revert H. apply Forall_impl.
    intros l. apply format_line_no_bracket. }
  split; [exact E|]. intros Hc. now rewrite E, universal_newlines_id.
Qed.

Lemma file_without_records_is_copied_witness :
  format_json_logs plain_log =
  lit "child started" ++ [NL] ++ lit "ready" ++ [NL].
Proof.
  refine (proj1 (@file_without_records_is_copied plain_log _)).
  repeat constructor; intros r; discriminate.
Defined.

(** X15. Without a path given by [-o], the formatter writes beside its
    input, under the input's name with [_formatted] put before the suffix:
    a name other than the input's, with the same suffix; it prints to the
    console when the input's name has no suffix; with a path given, it
    writes there. *)
Theorem default_output_is_beside_the_input name :
  stem name ++ suffix name = name /\
  (forall path, path <> [] -> output_target (Some path) name = Given path) /\
  (suffix name = [] ->
   output_target None name = Console /\ output_target (Some []) name = Console) /\
  (forall n,
     output_target None name = Sibling n \/ output_target (Some []) name = Sibling n ->
     n = stem name ++ lit "_formatted" ++ suffix name /\
     n <> name /\ suffix n = suffix name /\ stem n = stem name ++ lit "_formatted").
Proof.
  split; [apply stem_suffix|]. split; [|split].
  - intros [|c path] H; [congruence | reflexivity].
  - intros E. unfold output_target. now rewrite E.
  - apply sibling_name.
Qed.

End FormatterProperties.

(** ** Further properties of the capture *)

Module CaptureProperties.
Import Text Clock Capture Regex PyFloat Json Formatter ClockSpec CaptureSpec.
Import RelaySpec FormatterSpec JsonSpec RelayMore Naming OutputPath.
Import Demo Scenario Samples.
Import TextFacts ClockFacts CaptureFacts SupervisorFacts RelayFacts.
Import RegexFacts JsonFacts FormatterFacts CodecFacts PipelineFacts.
Import RelayExitFacts NamingFacts OutputPathFacts.

(** X7. A line that is the UTF-8 form of a text is decoded to that text,
    whether errors are replaced or raised, and its record holds the bytes
    of the line themselves, up to its trailing whitespace, between the
    ASCII prefix and a line feed. *)
Theorem valid_utf8_is_logged_verbatim t now text line :
  utf8_encode text = Decoded line ->
  utf8_decode Replace line = Decoded text /\
  utf8_decode Strict line = Decoded text /\
  exists kept ws,
    line = kept ++ ws /\
    utf8_encode (rstrip text) = Decoded kept /\
    (exists blanks, utf8_encode blanks = Decoded ws /\
                    Forall (fun c => isspace c = true) blanks) /\
    log_entry t now line =
      Decoded (map byte_of (lit "[" ++ timestamp now ++ lit "] " ++ tag_name t ++
                            lit ": ") ++ kept ++ [x0a]).
Proof.
  intros E. split; [now apply utf8_decode_encode|].
  split; [now apply utf8_decode_encode|]. now apply log_entry_verbatim.
Qed.

Lemma valid_utf8_is_logged_verbatim_witness :
  utf8_encode cafe = Decoded cafe_line /\
  utf8_decode Strict cafe_line = Decoded cafe /\
  log_entry OUT new_year cafe_line =
    Decoded (blit "[2024-01-01 00:00:00.000] OUT: caf" ++ [xc3; xa9; x0a]).
Proof.
  split; [reflexivity|].
  destruct (@valid_utf8_is_logged_verbatim OUT new_year cafe cafe_line eq_refl)
    as (_ & S & _).
  split; [exact S | reflexivity].
Defined.

(** X18. Decoding with replacement keeps the ASCII of a line: the ASCII
    characters of the decoded text are the ASCII bytes of the line, all of
    them and in their order; a byte sequence that is not UTF-8 becomes
    U+FFFD without an ASCII byte being taken with it. *)
Theorem ascii_bytes_survive_decoding line :
  exists text,
    utf8_decode Replace line = Decoded text /\
    filter (fun c => c <? 0x80) text =
    filter (fun c => c <? 0x80) (map Byte.to_N line).
Proof.
  destruct (utf8_decode_replace_scalar line) as (text & D & _).
  exists text. split; [exact D | now apply ascii_survive].
Qed.

Lemma decimal_no_cr c : isdecimal c = true -> no_cr c = true.
Proof.
  intros H. apply no_cr_spec. intros ->. vm_compute in H. discriminate.
Qed.

Lemma line_prefix_body t ts : shaped_timestamp ts -> line_body (line_prefix t ts).
Proof.
  intros Hts. pose proof (FormatterClaims.line_prefix_not_newline t Hts) as Hn.
  assert (Hc : Forall (fun c => no_cr c = true) (line_prefix t ts)).
  { destruct Hts as (y & mo & dd & h & mi & s & ms & -> & Hy & Hmo & Hd & Hh & Hmi & Hs & Hms).
    unfold line_prefix. rewrite !Forall_app.
    repeat split;
      try (match goal with H : digit_run _ ?x |- Forall _ ?x =>
             destruct H as [_ H]; revert H; apply Forall_impl, decimal_no_cr end);
      try (repeat constructor).
    destruct t; repeat constructor. }
  unfold line_body. rewrite Forall_forall in *. intros c Hin. split; auto.
Qed.

(** The record of a line whose content keeps no carriage return is one
    complete line of the transcript. *)
Lemma record_is_complete_line t now line text :
  1000 <= year now ->
  utf8_decode Replace line = Decoded text ->
  Forall (fun b => b <> x0a) (removelast line) ->
  Forall (fun c => c <> CR) (rstrip text) ->
  complete_line (record_text t (timestamp now) (rstrip text)).
Proof.
  intros Hy D Hl Hcr.
  exists (line_prefix t (timestamp now) ++ rstrip text). split.
  - apply line_body_app. split.
    + apply line_prefix_body. now apply timestamp_shaped.
    + pose proof (record_content_no_newline line D Hl) as Hn.
      unfold line_body. rewrite Forall_forall in *. intros c Hin. split.
      * apply not_newline_spec. now apply Hn.
      * apply no_cr_spec. now apply Hcr.
  - rewrite record_text_prefix. now rewrite <- app_assoc.
Qed.

(** X8. What the formatter makes of a transcript that holds the record
    the capture writes for a line (read up to its first line feed, at a
    time with a four-digit year), when the content of the record keeps no
    carriage return: the formatter reads the record as one line; the
    record of the stderr relay and the record of a blank line are written
    as they are; the record of another line of the stdin or stdout relay
    is taken apart into its prefix and its content, and is reformatted
    just when the content is JSON. *)
Theorem formatter_recognises_capture_records t now line text :
  1000 <= year now ->
  utf8_decode Replace line = Decoded text ->
  Forall (fun b => b <> x0a) (removelast line) ->
  Forall (fun c => c <> CR) (rstrip text) ->
  readlines (record_text t (timestamp now) (rstrip text)) =
    [record_text t (timestamp now) (rstrip text)] /\
  (t = ERR \/ rstrip text = [] ->
   format_json_logs (record_text t (timestamp now) (rstrip text)) =
     record_text t (timestamp now) (rstrip text)) /\
  (t <> ERR -> rstrip text <> [] ->
   match_groups pattern_prefix pattern_json
     (record_text t (timestamp now) (rstrip text)) =
     Some (line_prefix t (timestamp now), rstrip text) /\
   format_json_logs (record_text t (timestamp now) (rstrip text)) =
     match json_loads (rstrip text) with
     | Some v => line_prefix t (timestamp now) ++
                 indent_continuation (json_dumps v) ++ [Formatter.NL]
     | None => record_text t (timestamp now) (rstrip text)
     end).
Proof.
  intros Hy D Hl Hcr.
  pose proof (@record_groups t now line text Hy D Hl) as G.
  pose proof (@record_is_complete_line t now line text Hy D Hl Hcr) as C.
  assert (R : readlines (record_text t (timestamp now) (rstrip text)) =
              [record_text t (timestamp now) (rstrip text)]).
  { pose proof (@readlines_complete_lines
                  [record_text t (timestamp now) (rstrip text)]
                  (Forall_cons _ C (Forall_nil _))) as R.
    cbn [List.concat] in R. now rewrite app_nil_r in R. }
  assert (F : format_json_logs (record_text t (timestamp now) (rstrip text)) =
              format_line (record_text t (timestamp now) (rstrip text))).
  { unfold format_json_logs, format_lines. rewrite R. cbn [map List.concat].
    apply app_nil_r. }
  split; [exact R|]. rewrite F. split.
  - intros H. apply format_line_unmatched. rewrite G.
    destruct H as [-> | ->]; [reflexivity|]. now destruct (tag_eqb t ERR).
  - intros Ht Hr.
    assert ((tag_eqb t ERR) = false) as Et
      by (destruct t; [reflexivity | reflexivity | congruence]).
    rewrite Et in G. destruct (rstrip text) as [|c cs] eqn:E; [congruence|].
    split; [exact G|]. unfold format_line. rewrite G. reflexivity.
Qed.

Lemma formatter_recognises_capture_records_witness :
  utf8_decode Replace json_line = Decoded (scenario_content ++ [10]) /\
  format_json_logs (record_text OUT (timestamp new_year) scenario_content) =
    indented_rendering.
Proof.
  split; [reflexivity|].
  destruct (@formatter_recognises_capture_records OUT new_year json_line
              (scenario_content ++ [10]) ltac:(cbn; lia) eq_refl
              ltac:(repeat constructor; discriminate)
              ltac:(repeat constructor; discriminate)) as (_ & _ & H).
  destruct (H ltac:(discriminate) ltac:(discriminate)) as [_ E].
  exact E.
Defined.

(** X9. The formatter reads a transcript made of complete lines line by
    line; but a carriage return that a record keeps inside its content
    ends the line for the formatter, which then sees two lines, the second
    one without a prefix. *)
Theorem carriage_return_splits_a_record t ts x y :
  line_body ts -> line_body x -> line_body y -> y <> [] ->
  readlines (record_text t ts (x ++ [CR] ++ y)) =
    [record_text t ts x; y ++ [Formatter.NL]] /\
  forall ls, Forall complete_line ls ->
    readlines (List.concat ls) = ls /\
    format_json_logs (List.concat ls) = List.concat (map format_line ls).
Proof.
  intros Hts Hx Hy Hn. split.
  - rewrite !record_text_prefix.
    pose proof (@readlines_carriage_return (line_prefix t ts ++ x) y) as R.
    rewrite <- !app_assoc in R. rewrite <- !app_assoc. apply R; auto.
    apply line_body_app. split; [|exact Hx].
    unfold line_prefix. rewrite !line_body_app.
    repeat split; auto; try (repeat constructor; fail).
    destruct t; repeat constructor.
  - intros ls Hls. pose proof (readlines_complete_lines Hls) as R.
    split; [exact R|]. unfold format_json_logs, format_lines. now rewrite R.
Qed.

Lemma carriage_return_splits_a_record_witness :
  readlines (record_text OUT scenario_ts (lit "10%" ++ [CR] ++ lit "20%")) =
    [ lit "[2024-01-01 00:00:00.000] OUT: 10%" ++ [Formatter.NL];
      lit "20%" ++ [Formatter.NL] ].
Proof.
  refine (proj1 (@carriage_return_splits_a_record OUT scenario_ts (lit "10%")
                   (lit "20%") _ _ _ _)).
  all: try discriminate; repeat constructor.
Defined.

(** X10. In every session, a stdin relay that has begun its loop and is
    finished has left the child's stdin closing, whatever ended the relay
    (end of input, also at its first read, an error, its cancellation at
    an await): if at some point of the session the relay was suspended in
    its loop and at a later point it is finished, the child's stdin is
    closing then.  A relay is finished with the child's stdin open only
    when it was stopped before it first ran. *)
Theorem finished_stdin_relay_has_closed_stdin faults ls ls' s s' :
  run ls (start_begin faults) = Some s ->
  at_pc (stdin_task s) = AtReadline \/ at_pc (stdin_task s) = AtDrain ->
  run ls' s = Some s' ->
  at_pc (stdin_task s') = Finished ->
  stdin_closing (env s') = true.
Proof.
  intros _ Hp Hr Hf.
  destruct (@stdin_inv_run ls' s s' (@stdin_inv_begun s Hp) Hr) as [_ H]. now apply H.
Qed.

Lemma finished_stdin_relay_has_closed_stdin_witness :
  exists s s',
    run [Wake IN new_year (Value [])] (start_begin no_faults) = Some s /\
    at_pc (stdin_task s) = AtReadline /\
    run [Wake IN new_year (Value [])] s = Some s' /\
    reads IN (trace (env s')) = [] /\
    at_pc (stdin_task s') = Finished /\
    stdin_closing (env s') = true.
Proof.
  destruct (run [Wake IN new_year (Value [])] (start_begin no_faults)) as [s|] eqn:R;
    [|vm_compute in R; discriminate].
  destruct (run [Wake IN new_year (Value [])] s) as [s'|] eqn:R';
    [|injection R as <-; vm_compute in R'; discriminate].
  exists s, s'.
  assert (P : at_pc (stdin_task s) = AtReadline)
    by (injection R as <-; reflexivity).
  assert (Q : at_pc (stdin_task s') = Finished)
    by (injection R as <-; injection R' as <-; reflexivity).
  assert (Z : reads IN (trace (env s')) = [])
    by (injection R as <-; injection R' as <-; reflexivity).
  repeat split; try assumption.
  exact (@finished_stdin_relay_has_closed_stdin no_faults _ _ s s' R (or_introl P) R' Q).
Defined.

(** X11. When writing the record of a line to the log fails, the line is
    lost: the relay has read it, logs the error, and stops, without the
    record and without forwarding the line; the stdin relay still closes
    the child's stdin. *)
Theorem failed_log_write_drops_the_line t now line w :
  line <> [] -> log_file w = OpenFile -> faulty w OpLogWrite = true ->
  wake t {| at_pc := AtReadline; must_cancel := false |} now (Value line) w =
    (Ok {| at_pc := Finished; must_cancel := false |},
     after_block w ([ReadLine t line; LoggerError t "OSError"] ++
                    closing_events t (stdin_closing w))) /\
  forall w', snd (wake t {| at_pc := AtReadline; must_cancel := false |}
                    now (Value line) w) = w' ->
    forwarded t (trace w') = forwarded t (trace w) /\
    records t (trace w') = records t (trace w).
Proof.
  intros Hl Hf Hq. rewrite (@failed_log_write t now line w Hl Hf Hq).
  split; [reflexivity|]. intros w' <-. cbn [snd after_block trace].
  rewrite forwarded_app, records_app.
  destruct t, (stdin_closing w); cbn; rewrite ?app_nil_r; auto.
Qed.

Lemma failed_log_write_drops_the_line_witness :
  wake OUT reading new_year (Value hello) (open_world log_write_fails) =
    (Ok finished,
     {| log_file := OpenFile; stdin_closing := false; faulty := log_write_fails;
        trace := [ReadLine OUT hello; LoggerError OUT "OSError"] |}).
Proof.
  exact (proj1 (@failed_log_write_drops_the_line OUT new_year hello
                  (open_world log_write_fails) ltac:(discriminate) eq_refl eq_refl)).
Defined.

(** X12. When the log works and writing a line to the parent's stdout or
    stderr fails, the record of the line is in the log, written and
    flushed, though the line was not forwarded; the relay logs the error
    and stops. *)
Theorem failed_forward_keeps_the_record t now line entry w :
  t <> IN -> line <> [] -> log_entry t now line = Decoded entry ->
  log_file w = OpenFile ->
  faulty w OpLogWrite = false -> faulty w OpLogFlush = false ->
  faulty w (OpDestWrite t) = true ->
  wake t {| at_pc := AtReadline; must_cancel := false |} now (Value line) w =
    (Ok {| at_pc := Finished; must_cancel := false |},
     after_block w [ReadLine t line; LogWrite t entry; LogFlush t;
                    LoggerError t "OSError"]).
Proof. apply failed_forward. Qed.

Lemma failed_forward_keeps_the_record_witness :
  wake OUT reading new_year (Value hello) (open_world stdout_write_fails) =
    (Ok finished,
     {| log_file := OpenFile; stdin_closing := false; faulty := stdout_write_fails;
        trace := [ReadLine OUT hello;
                  LogWrite OUT (blit "[2024-01-01 00:00:00.000] OUT: hello" ++ [x0a]);
                  LogFlush OUT; LoggerError OUT "OSError"] |}).
Proof.
  exact (@failed_forward_keeps_the_record OUT new_year hello
           (blit "[2024-01-01 00:00:00.000] OUT: hello" ++ [x0a])
           (open_world stdout_write_fails)
           ltac:(discriminate) ltac:(discriminate) eq_refl eq_refl eq_refl eq_refl
           eq_refl).
Defined.

(** X13. The names of the transcript and of the script's own log are made
    from the start time to the second: two captures started at valid times
    with four-digit years get the same transcript name just when they
    start within the same second, and likewise for the script log; the two
    files of a capture never have the same name. *)
Theorem log_names_are_per_second a b :
  valid_datetime a = true -> valid_datetime b = true ->
  1000 <= year a -> 1000 <= year b ->
  (log_name a = log_name b <-> same_second a b) /\
  (script_log_name a = script_log_name b <-> same_second a b) /\
  log_name a <> script_log_name b.
Proof.
  intros Va Vb Ya Yb. pose proof (@strftime_compact_same a b Va Vb Ya Yb) as S.
  unfold log_name, script_log_name. split; [|split].
  - rewrite <- S. split; [|now intros ->].
    intros E. apply app_inv_head in E. now apply app_inv_tail in E.
  - rewrite <- S. split; [|now intros ->].
    intros E. apply app_inv_head in E. now apply app_inv_tail in E.
  - discriminate.
Qed.

Lemma log_names_are_per_second_witness :
  log_name new_year = lit "mcp-capture-20240101-000000.log" /\
  log_name new_year = log_name new_year_later /\
  log_name new_year <> log_name next_second.
Proof.
  split; [reflexivity|].
  destruct (@log_names_are_per_second new_year new_year_later
              eq_refl eq_refl ltac:(cbn; lia) ltac:(cbn; lia)) as ([_ H] & _).
  split; [apply H; repeat split|]. discriminate.
Defined.

(** X14. The timestamps of two records compare as text the way their
    times do, down to the millisecond: sorting the lines of transcripts by
    their text sorts them by time (for valid times with four-digit
    years). *)
Theorem timestamps_sort_by_time a b :
  valid_datetime a = true -> valid_datetime b = true ->
  1000 <= year a -> 1000 <= year b ->
  str_lt (timestamp a) (timestamp b) = str_lt (shown_fields a) (shown_fields b).
Proof. apply timestamp_order. Qed.

Lemma timestamps_sort_by_time_witness :
  str_lt (timestamp new_year) (timestamp new_year_later) = true /\
  str_lt (shown_fields new_year) (shown_fields new_year_later) = true.
Proof.
  pose proof (@timestamps_sort_by_time new_year new_year_later
                eq_refl eq_refl ltac:(cbn; lia) ltac:(cbn; lia)) as E.
  split; [rewrite E|]; reflexivity.
Defined.

End CaptureProperties.

Module TranscriptFacts.
Import Text Clock Capture ClockSpec CaptureSpec RelaySpec RelayMore.
Import TextFacts ClockFacts CaptureFacts SupervisorFacts RelayFacts CodecFacts.

Lemma app_eq_cons_cases (A : Type) (tr es pre post : list A) x :
  tr ++ es = pre ++ x :: post ->
  (exists post1, tr = pre ++ x :: post1) \/
  (exists pre2, pre = tr ++ pre2 /\ es = pre2 ++ x :: post).
Proof.
  revert pre. induction tr as [|a tr IH]; intros pre E.
  - right. now exists pre.
  - destruct pre as [|b pre]; cbn in E; injection E as -> E.
    + left. now exists tr.
    + destruct (IH _ E) as [[post1 ->] | (pre2 & -> & ->)].
      * left. now exists post1.
      * right. now exists pre2.
Qed.

Ltac walk pre2 E :=
  repeat (destruct pre2 as [|? pre2]; cbn [app] in E;
          [ first [discriminate E | idtac]
          | first [discriminate E | injection E as ? E; subst] ]).

(** Where a block writes to a destination, it has just read the line and
    logged it. *)
Lemma block_forward t wc now p es p' pre2 t' l' post :
  block t wc now p es p' -> es = pre2 ++ DestWrite t' l' :: post ->
  exists entry,
    pre2 = [ReadLine t' l'; LogWrite t' entry; LogFlush t'] /\
    log_entry t' now l' = Decoded entry.
Proof.
  intros B E. subst es. inversion B; subst;
    match goal with H : _ = pre2 ++ _ |- _ => rename H into E end;
    unfold iteration_events, closing_events in E.
  4: { assert (K : (k = 1 \/ k = 2 \/ k = 3 \/ k = 4)%nat) by lia.
       destruct K as [-> | [-> | [-> | ->]]]; cbn [firstn app] in E;
         destruct t, wc; walk pre2 E;
         inversion E; subst; eauto. }
  all: try (destruct t, wc); walk pre2 E.
  all: inversion E; subst; eauto.
Qed.

Lemma logged_first_app tr es :
  logged_first tr ->
  (forall pre2 post t line,
     es = pre2 ++ DestWrite t line :: post ->
     exists entry now,
       pre2 = [ReadLine t line; LogWrite t entry; LogFlush t] /\
       log_entry t now line = Decoded entry) ->
  logged_first (tr ++ es).
Proof.
  intros Htr Hes pre post t line E.
  apply app_eq_cons_cases in E. destruct E as [[post1 E] | (pre2 & -> & E)].
  - exact (Htr _ _ _ _ E).
  - destruct (Hes _ _ _ _ E) as (entry & now & -> & L).
    now exists tr, entry, now.
Qed.

Lemma logged_first_quiet tr es :
  logged_first tr ->
  Forall (fun e => match e with DestWrite _ _ => False | _ => True end) es ->
  logged_first (tr ++ es).
Proof.
  intros Htr Hes. apply logged_first_app; [exact Htr|].
  intros pre2 post t line ->. apply Forall_app in Hes. destruct Hes as [_ Hes].
  inversion Hes as [|? ? Hd _]. destruct Hd.
Qed.

Lemma logged_first_run faults ls s :
  run ls (start_begin faults) = Some s -> logged_first (trace (env s)).
Proof.
  apply (@run_invariant (fun _ s => logged_first (trace (env s)))).
  - intros pre post t line E. destruct pre; discriminate.
  - intros ls0 l s1 s2 _ I St. apply step_has_effect in St.
    destruct St as [t0 now r p' es Hp B Hc | code Hr | l w Hl Hlf Htr
                   | code cancels k1 k2 k3 sup Es Er Hsup Fc Hk].
    + rewrite env_set_task. cbn [env set_env after_block trace].
      apply logged_first_app; [exact I|].
      intros pre2 post t line E.
      destruct (@block_forward _ _ _ _ _ _ _ _ _ _ B E) as (entry & -> & L).
      now exists entry, now.
    + exact I.
    + cbn [env set_env]. now rewrite Htr.
    + cbn [env trace]. apply logged_first_quiet; [exact I|].
      apply Forall_app. split.
      * revert Fc. apply Forall_impl. now intros e [t ->].
      * destruct (log_file (env s1)); repeat constructor.
Qed.

(** *** The transcript as a file *)

Lemma utf8_encode_concat texts : forall entries,
  Forall2 (fun x e => utf8_encode x = Decoded e) texts entries ->
  utf8_encode (List.concat texts) = Decoded (List.concat entries).
Proof.
  induction 1 as [|x e texts entries Hx _ IH]; [reflexivity|].
  cbn [List.concat]. now apply utf8_encode_app.
Qed.

Lemma written_app a b : written (a ++ b) = written a ++ written b.
Proof. apply flat_map_app. Qed.

Lemma block_written t wc now p es p' :
  block t wc now p es p' ->
  Forall (fun e => exists line, log_entry t now line = Decoded e) (written es).
Proof.
  intros B. inversion B; subst; unfold iteration_events, closing_events;
    try (destruct t, wc; repeat constructor; fail).
  - repeat constructor. eauto.
  - assert (K : (k = 1 \/ k = 2 \/ k = 3 \/ k = 4)%nat) by lia.
    destruct K as [-> | [-> | [-> | ->]]]; cbn [firstn app];
      destruct t, wc; cbn; repeat constructor; eauto.
Qed.

Lemma written_quiet es :
  Forall (fun e => match e with LogWrite _ _ => False | _ => True end) es ->
  written es = [].
Proof.
  induction 1 as [|e es He _ IH]; [reflexivity|].
  unfold written in *. cbn [flat_map]. rewrite IH. now destruct e.
Qed.

Lemma written_run faults ls s :
  run ls (start_begin faults) = Some s ->
  Forall (fun e => exists t now line, log_entry t now line = Decoded e)
         (written (trace (env s))).
Proof.
  apply (@run_invariant
           (fun _ s => Forall (fun e => exists t now line,
                                 log_entry t now line = Decoded e)
                              (written (trace (env s))))).
  - constructor.
  - intros ls0 l s1 s2 _ I St. apply step_has_effect in St.
    destruct St as [t0 now r p' es Hp B Hc | code Hr | l w Hl Hlf Htr
                   | code cancels k1 k2 k3 sup Es Er Hsup Fc Hk].
    + rewrite env_set_task. cbn [env set_env after_block trace].
      rewrite written_app. apply Forall_app. split; [exact I|].
      eapply Forall_impl; [|exact (block_written B)].
      intros e [line L]. now exists t0, now, line.
    + exact I.
    + cbn [env set_env]. now rewrite Htr.
    + cbn [env trace]. rewrite written_app, (@written_quiet (cancels ++ _)).
      * now rewrite app_nil_r.
      * apply Forall_app. split.
        -- revert Fc. apply Forall_impl. now intros e [t ->].
        -- destruct (log_file (env s1)); repeat constructor.
Qed.

(** Entries that are records are together the UTF-8 form of the texts of
    these records. *)
Lemma records_decode entries :
  Forall (fun e => exists t now line, log_entry t now line = Decoded e) entries ->
  exists texts,
    Forall is_record_text texts /\
    Forall2 (fun x e => utf8_encode x = Decoded e) texts entries /\
    utf8_decode Strict (List.concat entries) = Decoded (List.concat texts).
Proof.
  induction 1 as [|e entries (t & now & line & L) _ (texts & T1 & T2 & T3)].
  - exists []. repeat split; constructor.
  - unfold log_entry in L.
    destruct (utf8_decode Replace line) as [text|] eqn:D; [|discriminate].
    exists (record_text t (timestamp now) (rstrip text) :: texts).
    assert (F2 : Forall2 (fun x e => utf8_encode x = Decoded e)
                   (record_text t (timestamp now) (rstrip text) :: texts)
                   (e :: entries)) by now constructor.
    split; [|split; [exact F2|]].
    + constructor; [|exact T1]. now exists t, now, line, text.
    + apply utf8_decode_encode. now apply utf8_encode_concat.
Qed.

End TranscriptFacts.

(** ** Properties of the transcript of a session *)

Module TranscriptProperties.
Import Text Clock Capture ClockSpec CaptureSpec RelaySpec RelayMore Demo.
Import TextFacts ClockFacts CaptureFacts SupervisorFacts RelayFacts CodecFacts.
Import TranscriptFacts.

(** X16. In every session, nothing is forwarded that is not in the log:
    each write of a line to a destination comes directly after the read of
    that line by the same relay, the write of its record to the log and
    the flush of the log. *)
Theorem forwarded_lines_are_logged_first faults ls s :
  run ls (start_begin faults) = Some s ->
  forall pre post t line,
    trace (env s) = pre ++ DestWrite t line :: post ->
    exists pre' entry now,
      pre = pre' ++ [ReadLine t line; LogWrite t entry; LogFlush t] /\
      log_entry t now line = Decoded entry.
Proof.
  intros Hr. exact (logged_first_run faults ls Hr).
Qed.

Lemma forwarded_lines_are_logged_first_witness :
  run demo_schedule (start_begin no_faults) = Some demo_session /\
  exists pre' entry now,
    [ReadLine OUT hello;
     LogWrite OUT (blit "[2024-01-01 00:00:00.000] OUT: hello" ++ [x0a]);
     LogFlush OUT] =
    pre' ++ [ReadLine OUT hello; LogWrite OUT entry; LogFlush OUT] /\
    log_entry OUT now hello = Decoded entry.
Proof.
  assert (R : run demo_schedule (start_begin no_faults) = Some demo_session)
    by (vm_compute; reflexivity).
  split; [exact R|].
  exact (@forwarded_lines_are_logged_first no_faults demo_schedule demo_session R
           [ReadLine OUT hello;
            LogWrite OUT (blit "[2024-01-01 00:00:00.000] OUT: hello" ++ [x0a]);
            LogFlush OUT]
           _ OUT hello eq_refl).
Defined.

(** X17. The transcript of every session is valid UTF-8, whatever bytes the
    relays read: decoded strictly, as the formatter reads it, the bytes
    written to the log are the texts of the records one after the other,
    each of the form [[timestamp] TAG: content] with a line feed. *)
Theorem transcript_is_valid_utf8 faults ls s :
  run ls (start_begin faults) = Some s ->
  exists texts,
    Forall is_record_text texts /\
    Forall2 (fun x e => utf8_encode x = Decoded e) texts
            (written (trace (env s))) /\
    utf8_decode Strict (transcript (trace (env s))) = Decoded (List.concat texts).
Proof.
  intros Hr. apply records_decode. exact (written_run faults ls Hr).
Qed.

Lemma transcript_is_valid_utf8_witness :
  run demo_schedule (start_begin no_faults) = Some demo_session /\
  utf8_decode Strict (transcript (trace (env demo_session))) =
    Decoded (lit "[2024-01-01 00:00:00.000] OUT: hello" ++ [10] ++
             lit "[2024-01-01 00:00:00.000] IN: ping" ++ [10]) /\
  exists texts,
    utf8_decode Strict (transcript (trace (env demo_session))) =
      Decoded (List.concat texts).
Proof.
  assert (R : run demo_schedule (start_begin no_faults) = Some demo_session)
    by (vm_compute; reflexivity).
  split; [exact R|]. split; [reflexivity|].
  destruct (@transcript_is_valid_utf8 no_faults demo_schedule demo_session R)
    as (texts & _ & _ & E).
  now exists texts.
Defined.

End TranscriptProperties.

Module BudgetFacts.
Import Text Regex PyFloat Json Formatter FormatterSpec JsonSpec.
Import TextFacts RegexFacts JsonFacts FormatterFacts RoundTripFacts.

Lemma skip_ws_length s : (List.length (skip_ws s) <= List.length s)%nat.
Proof.
  induction s as [|c s IH]; [cbn; lia|]. cbn [skip_ws].
  destruct (is_whitespace c); cbn [List.length]; lia.
Qed.

Lemma push_length c k s rest :
  push c k = Some (s, rest) -> exists s', k = Some (s', rest).
Proof. destruct k as [[s' r]|]; [|discriminate]. intros [= _ <-]. eauto. Qed.

Lemma scanstring_length s : forall key rest,
  scanstring s = Some (key, rest) -> (List.length rest < List.length s)%nat.
Proof.
  remember (List.length s) as n eqn:Hn. revert s Hn.
  induction n as [n IH] using lt_wf_ind. intros s Hn key rest. subst n.
  assert (IH' : forall t k r, (List.length t < List.length s)%nat ->
                              scanstring t = Some (k, r) ->
                              (List.length r < List.length t)%nat).
  { intros t k r Ht. apply (IH (List.length t)); [lia | reflexivity]. }
  clear IH.
  assert (P : forall c t k r, (List.length t < List.length s)%nat ->
                              push c (scanstring t) = Some (k, r) ->
                              (List.length r < List.length t)%nat).
  { intros c t k r Ht H. apply push_length in H. destruct H as [k' H]. eauto. }
  destruct s as [|c r]; [discriminate|]. cbn [scanstring].
  destruct (c =? 34); [intros [= _ <-]; cbn; lia|].
  destruct (c =? 92).
  - destruct r as [|e r1]; [discriminate|].
    destruct (e =? 117).
    + destruct r1 as [|a [|b [|c' [|d r2]]]]; try discriminate.
      destruct (hex4 a b c' d) as [u|]; [|discriminate].
      destruct r2 as [|bs [|uu [|a2 [|b2 [|c2 [|d2 [|x r3]]]]]]];
        try (intros H; apply P in H; cbn in *; lia).
      destruct (is_high_surrogate u && (bs =? 92) && (uu =? 117));
        [|intros H; apply P in H; cbn in *; lia].
      destruct (hex4 a2 b2 c2 d2) as [u2|]; [|discriminate].
      destruct (is_low_surrogate u2); intros H; apply P in H; cbn in *; lia.
    + destruct (unescape e); [|discriminate].
      intros H. apply P in H; cbn in *; lia.
  - destruct (c <=? 31); [discriminate|].
    intros H. apply P in H; cbn in *; lia.
Qed.

Lemma span_length p s a b : span p s = (a, b) -> (List.length b <= List.length s)%nat.
Proof.
  revert a b. induction s as [|c s IH]; intros a b; cbn [span].
  - intros [= _ <-]. cbn. lia.
  - destruct (p c); [|intros [= _ <-]; cbn; lia].
    destruct (span p s) as [a' b'] eqn:E. intros [= _ <-].
    specialize (IH _ _ eq_refl). cbn. lia.
Qed.

Lemma strip_prefix_length p : forall s r,
  strip_prefix p s = Some r -> (List.length r <= List.length s)%nat.
Proof.
  intros s r H. apply strip_prefix_some in H. subst s. rewrite length_app. lia.
Qed.

Lemma match_number_length s t r :
  match_number s = Some (t, r) -> (List.length r <= List.length s)%nat.
Proof.
  unfold match_number.
  destruct (match_sign s) as [neg s1] eqn:E1.
  assert (L1 : (List.length s1 <= List.length s)%nat).
  { unfold match_sign in E1. destruct s as [|c s']; [injection E1 as _ <-; lia|].
    destruct (c =? 45); injection E1 as _ <-; cbn; lia. }
  destruct (match_int s1) as [[ds s2]|] eqn:E2; [|discriminate].
  assert (L2 : (List.length s2 <= List.length s1)%nat).
  { unfold match_int in E2. destruct s1 as [|c s']; [discriminate|].
    destruct ((49 <=? c) && (c <=? 57)).
    - destruct (span is_digit s') as [a b] eqn:Sp. injection E2 as _ <-.
      apply span_length in Sp. cbn. lia.
    - destruct (c =? 48); [|discriminate]. injection E2 as _ <-. cbn. lia. }
  destruct (match_frac s2) as [fr s3] eqn:E3.
  assert (L3 : (List.length s3 <= List.length s2)%nat).
  { unfold match_frac in E3. destruct s2 as [|dot [|d s']];
      try (injection E3 as _ <-; lia).
    destruct ((dot =? 46) && is_digit d); [|injection E3 as _ <-; lia].
    cbn [tl] in E3. destruct (span is_digit (d :: s')) as [a b] eqn:Sp.
    injection E3 as _ <-. apply span_length in Sp. cbn in *. lia. }
  destruct (match_exp s3) as [ex s4] eqn:E4.
  assert (L4 : (List.length s4 <= List.length s3)%nat).
  { unfold match_exp in E4. destruct s3 as [|e r0]; [injection E4 as _ <-; lia|].
    destruct ((e =? 101) || (e =? 69)); [|injection E4 as _ <-; lia].
    set (pick := match r0 with
                 | sg :: _ :: _ =>
                     if (sg =? 45) || (sg =? 43) then (sg =? 45, true, tl r0)
                     else (false, false, r0)
                 | _ => (false, false, r0)
                 end) in E4.
    assert (Lp : (List.length (snd pick) <= List.length r0)%nat).
    { subst pick. destruct r0 as [|sg [|x r1]]; cbn; try lia.
      destruct ((sg =? 45) || (sg =? 43)); cbn; lia. }
    destruct pick as [[minus signed] r1]. cbn [snd] in Lp.
    destruct (span is_digit r1) as [a b] eqn:Sp. apply span_length in Sp.
    destruct a; injection E4 as _ <-; cbn in *; lia. }
  intros [= _ <-]. lia.
Qed.

Lemma scan_literal_length s v r :
  scan_literal s = Some (v, r) -> (List.length r <= List.length s)%nat.
Proof.
  unfold scan_literal.
  repeat match goal with
         | |- context [strip_prefix ?a ?b] =>
             destruct (strip_prefix a b) eqn:?;
             [intros [= _ <-];
              match goal with
              | H : strip_prefix _ _ = Some _ |- _ =>
                  apply strip_prefix_length in H; exact H
              end|]
         end.
  destruct (match_number s) as [[t r']|] eqn:E; [|discriminate].
  intros [= _ <-]. now apply match_number_length in E.
Qed.

(** What is left after a value is not longer than the text scanned. *)
Lemma scan_rest_length fuel :
  (forall s v r, scan_once fuel s = Scanned v r ->
                 (List.length r <= List.length s)%nat) /\
  (forall s acc v r, parse_items fuel s acc = Scanned v r ->
                     (List.length r <= List.length s)%nat) /\
  (forall s acc v r, parse_members fuel s acc = Scanned v r ->
                     (List.length r <= List.length s)%nat).
Proof.
  induction fuel as [|f (IH1 & IH2 & IH3)]; [repeat split; discriminate|].
  split; [|split].
  - intros [|c s] v r; [discriminate|]. cbn [scan_once].
    destruct (c =? 34).
    { destruct (scanstring s) as [[a b]|] eqn:E; [|discriminate].
      intros [= _ <-]. apply scanstring_length in E. cbn. lia. }
    destruct (c =? 123).
    { pose proof (skip_ws_length s) as K.
      destruct (skip_ws s) as [|c2 r2]; [discriminate|].
      destruct (c2 =? 125); [intros [= _ <-]; cbn in *; lia|].
      intros H. apply IH3 in H. cbn in *. lia. }
    destruct (c =? 91).
    { pose proof (skip_ws_length s) as K.
      destruct (skip_ws s) as [|c2 r2]; [discriminate|].
      destruct (c2 =? 93); [intros [= _ <-]; cbn in *; lia|].
      intros H. apply IH2 in H. cbn in *. lia. }
    destruct (scan_literal (c :: s)) as [[a b]|] eqn:L; [|discriminate].
    intros [= _ <-]. now apply scan_literal_length in L.
  - intros s acc v r. rewrite parse_items_S.
    destruct (scan_once f s) as [v1 rest| |] eqn:S1; try discriminate.
    apply IH1 in S1. pose proof (skip_ws_length rest) as K.
    destruct (skip_ws rest) as [|c r1]; [discriminate|].
    destruct (c =? 93); [intros [= _ <-]; cbn in *; lia|].
    destruct (c =? 44); [|discriminate].
    intros H. apply IH2 in H. pose proof (skip_ws_length r1). cbn in *. lia.
  - intros [|q s] acc v r; [discriminate|]. cbn [parse_members].
    destruct (q =? 34); [|discriminate].
    destruct (scanstring s) as [[key rest]|] eqn:E; [|discriminate].
    apply scanstring_length in E. pose proof (skip_ws_length rest) as K.
    destruct (skip_ws rest) as [|colon r2]; [discriminate|].
    destruct (colon =? 58); [|discriminate].
    pose proof (skip_ws_length r2) as K2.
    destruct (scan_once f (skip_ws r2)) as [v1 rest2| |] eqn:S1; try discriminate.
    apply IH1 in S1. pose proof (skip_ws_length rest2) as K3.
    destruct (skip_ws rest2) as [|c r3]; [discriminate|].
    destruct (c =? 125); [intros [= _ <-]; cbn in *; lia|].
    destruct (c =? 44); [|discriminate].
    intros H. apply IH3 in H. pose proof (skip_ws_length r3). cbn in *. lia.
Qed.

(** The budget [json_loads] gives the scanner is never what stops it. *)
Lemma scan_budget fuel :
  (forall s, (2 * List.length s + 1 <= fuel)%nat -> scan_once fuel s <> Exhausted) /\
  (forall s acc, (2 * List.length s + 2 <= fuel)%nat ->
                 parse_items fuel s acc <> Exhausted) /\
  (forall s acc, (2 * List.length s + 2 <= fuel)%nat ->
                 parse_members fuel s acc <> Exhausted).
Proof.
  induction fuel as [|f (IH1 & IH2 & IH3)]; [repeat split; intros; lia|].
  split; [|split].
  - intros [|c s] Hf; [discriminate|]. cbn [scan_once]. cbn [List.length] in Hf.
    destruct (c =? 34); [destruct (scanstring s) as [[a b]|]; discriminate|].
    destruct (c =? 123).
    { pose proof (skip_ws_length s) as K.
      destruct (skip_ws s) as [|c2 r2]; [discriminate|].
      destruct (c2 =? 125); [discriminate|]. apply IH3. cbn in *. lia. }
    destruct (c =? 91).
    { pose proof (skip_ws_length s) as K.
      destruct (skip_ws s) as [|c2 r2]; [discriminate|].
      destruct (c2 =? 93); [discriminate|]. apply IH2. cbn in *. lia. }
    destruct (scan_literal (c :: s)) as [[a b]|]; discriminate.
  - intros s acc Hf. rewrite parse_items_S.
    destruct (scan_once f s) as [v1 rest| |] eqn:S1; try discriminate.
    + apply (proj1 (scan_rest_length f)) in S1.
      pose proof (skip_ws_length rest) as K.
      destruct (skip_ws rest) as [|c r1]; [discriminate|].
      destruct (c =? 93); [discriminate|].
      destruct (c =? 44); [|discriminate].
      apply IH2. pose proof (skip_ws_length r1). cbn in *. lia.
    + exfalso. apply (IH1 s); [lia | exact S1].
  - intros [|q s] acc Hf; [discriminate|]. cbn [parse_members].
    cbn [List.length] in Hf.
    destruct (q =? 34); [|discriminate].
    destruct (scanstring s) as [[key rest]|] eqn:E; [|discriminate].
    apply scanstring_length in E. pose proof (skip_ws_length rest) as K.
    destruct (skip_ws rest) as [|colon r2]; [discriminate|].
    destruct (colon =? 58); [|discriminate].
    pose proof (skip_ws_length r2) as K2.
    destruct (scan_once f (skip_ws r2)) as [v1 rest2| |] eqn:S1; try discriminate.
    + apply (proj1 (scan_rest_length f)) in S1.
      pose proof (skip_ws_length rest2) as K3.
      destruct (skip_ws rest2) as [|c r3]; [discriminate|].
      destruct (c =? 125); [discriminate|].
      destruct (c =? 44); [|discriminate].
      apply IH3. pose proof (skip_ws_length r3). cbn in *. lia.
    + exfalso. apply (IH1 (skip_ws r2)); [cbn in *; lia | exact S1].
Qed.

Lemma json_loads_budget s :
  scan_once (S (2 * List.length s)) (skip_ws s) <> Exhausted.
Proof.
  apply (proj1 (scan_budget _)). pose proof (skip_ws_length s). lia.
Qed.

End BudgetFacts.
